(** * Shell completion of podman: cmd/podman/common/completion.go

    A shallow embedding of the completion helpers of
    [cmd/podman/common/completion.go] and of the few functions of Go's
    standard library and of cobra that they call.

    - Go strings are byte sequences: they are [string]s, whose characters
      are bytes; [len(s)] is [String.length s].
    - A Go function that can panic at run time (index or slice out of
      range, method call on a nil interface) returns in the monad [M],
      which also records what the function writes on cobra's diagnostic
      channels and which queries it sends to the backend.
    - [map[string]...] values are [gmap string _]; the order in which
      [range] visits a map is not fixed by Go, it is a parameter of the
      development. *)

From Stdlib Require Import ZArith String Ascii List Lia Bool.
From stdpp Require Import base option list gmap strings.

Local Open Scope string_scope.
Local Open Scope list_scope.
Local Open Scope Z_scope.

(** ** Outcomes, events and the monad of the embedding *)

Inductive panic : Type :=
| SliceBoundsOutOfRange   (* s[i:j] with j > len(s), or i > j *)
| IndexOutOfRange         (* a[i] with i >= len(a) *)
| NilDereference.         (* method call on a nil interface value *)

Inductive outcome (A : Type) : Type :=
| Returns (a : A)
| Panics (p : panic).
Arguments Returns {A} a.
Arguments Panics {A} p.

(** The calls on the external query interface, one per entity kind. *)
Inductive query : Type :=
| QContainerList (all pod : bool) (filters : gmap string (list string))
| QPodPs (filters : gmap string (list string))
| QVolumeList
| QImageList
| QGetRegistries
| QNetworkList
| QReadCustomConfig.

Inductive event : Type :=
| Asked (q : query)            (* one call of the query interface *)
| CompErrorln (msg : string)   (* cobra.CompErrorln(msg) *)
| CompDebugln (msg : string).  (* cobra.CompDebugln(msg, true) *)

Record M (A : Type) : Type := Run { trace : list event; result : outcome A }.
Arguments Run {A} trace result.
Arguments trace {A} m.
Arguments result {A} m.

Global Instance M_ret : MRet M := λ A a, Run [] (Returns a).
Global Instance M_bind : MBind M := λ A B f m,
  match result m with
  | Returns a => Run (trace m ++ trace (f a)) (result (f a))
  | Panics p => Run (trace m) (Panics p)
  end.

Definition throw {A} (p : panic) : M A := Run [] (Panics p).
Definition emit (e : event) : M unit := Run [e] (Returns tt).

(** [for _, x := range l { s = body(s, x) }] over a slice. *)
Fixpoint forRange {A S : Type} (body : S → A → M S) (s : S) (l : list A) : M S :=
  match l with
  | [] => mret s
  | x :: l' => s' ← body s x; forRange body s' l'
  end.

(** ** Go's string operations *)

Module strings.

(** [strings.HasPrefix(s, prefix)] *)
Definition HasPrefix (s pre : string) : bool := String.prefix pre s.

(** [s[n:]] for [n <= len(s)] (the bound is checked by [sliceFrom]). *)
Fixpoint drop (n : nat) (s : string) : string :=
  match n, s with
  | O, _ => s
  | S n', String _ s' => drop n' s'
  | S _, EmptyString => EmptyString
  end.

(** [s[:n]] for [n <= len(s)] (the bound is checked by [sliceTo]). *)
Fixpoint take (n : nat) (s : string) : string :=
  match n, s with
  | O, _ => EmptyString
  | S n', String c s' => String c (take n' s')
  | S _, EmptyString => EmptyString
  end.

(** [strings.TrimPrefix(s, prefix)] *)
Definition TrimPrefix (s pre : string) : string :=
  if HasPrefix s pre then drop (String.length pre) s else s.

(** [strings.Index(s, substr)]: the first position where [substr]
    occurs, [None] for Go's -1. *)
Fixpoint Index (s substr : string) : option nat :=
  if HasPrefix s substr then Some O
  else match s with
       | EmptyString => None
       | String _ s' => S <$> Index s' substr
       end.

(** [strings.ReplaceAll(s, old, new)] for a non-empty [old]: the
    occurrences of [old] are replaced from left to right, without
    overlap.  [skip] counts the bytes of a replaced occurrence that are
    still to be dropped. *)
Fixpoint replaceFrom (old new : string) (skip : nat) (s : string) : string :=
  match s with
  | EmptyString => EmptyString
  | String c s' =>
      match skip with
      | S k => replaceFrom old new k s'
      | O => if HasPrefix s old
             then new +:+ replaceFrom old new (String.length old - 1) s'
             else String c (replaceFrom old new O s')
      end
  end.
Definition ReplaceAll (s old new : string) : string := replaceFrom old new O s.

(** [strings.Count(s, substr)] for a non-empty [substr]: the number of
    occurrences without overlap. *)
Fixpoint countFrom (substr : string) (skip : nat) (s : string) : nat :=
  match s with
  | EmptyString => O
  | String c s' =>
      match skip with
      | S k => countFrom substr k s'
      | O => if HasPrefix s substr
             then S (countFrom substr (String.length substr - 1) s')
             else countFrom substr O s'
      end
  end.
Definition Count (s substr : string) : nat := countFrom substr O s.

(** [genSplit(s, sep, 0, n)] of Go's strings package, for [n >= 0] and a
    non-empty [sep]: at most [n] pieces, the last one unsplit. *)
Fixpoint genSplit (s sep : string) (n : nat) : list string :=
  match n with
  | O => []
  | S O => [s]
  | S n' =>
      match Index s sep with
      | None => [s]
      | Some m => take m s :: genSplit (drop (m + String.length sep) s) sep n'
      end
  end.

(** [strings.SplitN(s, sep, n)] for [n >= 0]. *)
Definition SplitN (s sep : string) (n : nat) : list string := genSplit s sep n.

(** [strings.Split(s, sep)], that is [genSplit] with
    [n = Count(s, sep) + 1]. *)
Definition Split (s sep : string) : list string :=
  genSplit s sep (Count s sep + 1).

(** [strings.Join(elems, sep)] *)
Fixpoint Join (elems : list string) (sep : string) : string :=
  match elems with
  | [] => EmptyString
  | [e] => e
  | e :: rest => e +:+ sep +:+ Join rest sep
  end.

End strings.

(** Slicing and indexing, with the run-time checks of Go. *)

(** [s[0:n]] *)
Definition sliceTo (s : string) (n : nat) : M string :=
  if (n <=? String.length s)%nat then mret (strings.take n s)
  else throw SliceBoundsOutOfRange.

(** [s[n:]] *)
Definition sliceFrom (s : string) (n : nat) : M string :=
  if (n <=? String.length s)%nat then mret (strings.drop n s)
  else throw SliceBoundsOutOfRange.

(** [s[len(s)-1:]]: the lower bound is negative for the empty string. *)
Definition sliceLast (s : string) : M string :=
  match String.length s with
  | O => throw SliceBoundsOutOfRange
  | S n => sliceFrom s n
  end.

(** [a[i]] *)
Definition index {A} (a : list A) (i : nat) : M A :=
  match a !! i with
  | Some x => mret x
  | None => throw IndexOutOfRange
  end.

(** ** cobra: directives and argument validators *)

(** [cobra.ShellCompDirective] is a bit mask:
    [ShellCompDirectiveError = 1 << iota], then [NoSpace], [NoFileComp];
    [ShellCompDirectiveDefault] is 0. *)
Abbreviation ShellCompDirective := Z (only parsing).
Definition ShellCompDirectiveError : ShellCompDirective := Z.shiftl 1 0.
Definition ShellCompDirectiveNoSpace : ShellCompDirective := Z.shiftl 1 1.
Definition ShellCompDirectiveNoFileComp : ShellCompDirective := Z.shiftl 1 2.
Definition ShellCompDirectiveDefault : ShellCompDirective := 0.

(** Whether the directive [d] has the flag [flag] set. *)
Definition hasFlag (d flag : ShellCompDirective) : bool :=
  negb (Z.land d flag =? 0).

(** A Go [error] is [nil] ([None]) or carries the text that its [Error()]
    method returns. *)
Definition error : Type := option string.

(** [cobra.PositionalArgs], the type of [cmd.Args]; the command itself is
    not used by the validators of this development. *)
Definition PositionalArgs : Type := list string → error.

(** The decimal digit [d], for [0 <= d < 10]. *)
Definition digitChar (d : Z) : ascii := ascii_of_nat (48 + Z.to_nat d).

(** The loop of [strconv.formatBits] in base 10: the digits of [u] are
    written in front of [acc], the last one first, while [u >= 10].
    [fuel] bounds the number of digits; the number of bits of [u] is
    enough. *)
Fixpoint formatBits (fuel : nat) (u : Z) (acc : string) : string :=
  match fuel with
  | O => acc
  | S fuel' =>
      if u <? 10 then String (digitChar u) acc
      else formatBits fuel' (u / 10) (String (digitChar (u mod 10)) acc)
  end.

(** [strconv.Itoa], which is also what the verb [%d] of [fmt.Errorf]
    prints. *)
Definition Itoa (n : Z) : string :=
  if n <? 0
  then String "-" (formatBits (S (Z.to_nat (Z.log2 (- n)))) (- n) EmptyString)
  else formatBits (S (Z.to_nat (Z.log2 n))) n EmptyString.

(** [cobra.MinimumNArgs(n)] *)
Definition MinimumNArgs (n : Z) : PositionalArgs := λ args,
  if Z.of_nat (length args) <? n
  then Some ("requires at least " +:+ Itoa n +:+ " arg(s), only received "
             +:+ Itoa (Z.of_nat (length args)))
  else None.

(** [cobra.ExactArgs(n)] *)
Definition ExactArgs (n : Z) : PositionalArgs := λ args,
  if negb (Z.of_nat (length args) =? n)
  then Some ("accepts " +:+ Itoa n +:+ " arg(s), received "
             +:+ Itoa (Z.of_nat (length args)))
  else None.

(** ** fmt.Sscanf

    The scanner of Go's fmt package, for formats made of [%d] verbs,
    spaces and literal bytes, which is what ["%d arg(s), received %d"] is.
    The input is read rune by rune; the only runes that the scanner tells
    apart from their bytes are the Unicode spaces. *)
Module fmt.

Inductive scanError : Type :=
| EOF                       (* io.EOF: no input left for a verb *)
| UnexpectedEOF             (* io.ErrUnexpectedEOF: no input left for a literal *)
| UnexpectedNewline
| ExpectedInteger
| InputDoesNotMatchFormat
| ExpectedSpace
| NewlineInInput
| OutOfRange (tok : string)
| TooFewOperands
| TooManyOperands
| BadVerb.

Definition quote : string := String (ascii_of_nat 34) EmptyString.

(** The text of [err.Error()]. *)
Definition message (e : scanError) : string :=
  match e with
  | EOF => "EOF"
  | UnexpectedEOF => "unexpected EOF"
  | UnexpectedNewline => "unexpected newline"
  | ExpectedInteger => "expected integer"
  | InputDoesNotMatchFormat => "input does not match format"
  | ExpectedSpace => "expected space in input to match format"
  | NewlineInInput => "newline in input does not match format"
  | OutOfRange tok =>
      "strconv.ParseInt: parsing " +:+ quote +:+ tok +:+ quote
      +:+ ": value out of range"
  | TooFewOperands => "too few operands for format '%d'"
  | TooManyOperands => "too many operands"
  | BadVerb => "bad verb"
  end.

Definition byte (s : string) : option (nat * string) :=
  match s with
  | EmptyString => None
  | String c s' => Some (nat_of_ascii c, s')
  end.

(** [isSpace] on the next rune of the input: when the input starts with
    the UTF-8 encoding of a rune of fmt's [space] table (U+0009..U+000D,
    U+0020, U+0085, U+00A0, U+1680, U+2000..U+200A, U+2028, U+2029,
    U+202F, U+205F, U+3000), whether it is a newline, and the rest. *)
Definition readSpace (s : string) : option (bool * string) :=
  match byte s with
  | None => None
  | Some (b1, s1) =>
      if (b1 =? 10)%nat then Some (true, s1)
      else if ((9 <=? b1) && (b1 <=? 13) || (b1 =? 32))%nat then Some (false, s1)
      else match byte s1 with
      | None => None
      | Some (b2, s2) =>
          if ((b1 =? 194) && ((b2 =? 133) || (b2 =? 160)))%nat then Some (false, s2)
          else match byte s2 with
          | None => None
          | Some (b3, s3) =>
              if ((b1 =? 225) && (b2 =? 154) && (b3 =? 128)
                  || (b1 =? 226) && (b2 =? 128)
                     && ((128 <=? b3) && (b3 <=? 138) || (b3 =? 168)
                         || (b3 =? 169) || (b3 =? 175))
                  || (b1 =? 226) && (b2 =? 129) && (b3 =? 159)
                  || (b1 =? 227) && (b2 =? 128) && (b3 =? 128))%nat
              then Some (false, s3) else None
          end
      end
  end.

(** The loop [for isSpace(inputc) && inputc != '\n' { inputc = getRune() }]
    followed by [UnreadRune]: the input without its leading spaces, up
    to a newline.  [fuel] bounds the number of runes read; the length of
    the input is enough. *)
Fixpoint skipBlanks (fuel : nat) (s : string) : string :=
  match fuel with
  | O => s
  | S fuel' =>
      match readSpace s with
      | Some (false, rest) => skipBlanks fuel' rest
      | _ => s
      end
  end.

(** [ss.SkipSpace()] of a scanner that does not take newlines for
    spaces ([Sscanf]): a newline is an error. *)
Definition SkipSpace (s : string) : scanError + string :=
  let s' := skipBlanks (String.length s) s in
  match readSpace s' with
  | Some (true, _) => inl UnexpectedNewline
  | _ => inr s'
  end.

Definition isDigit (c : ascii) : bool :=
  ((48 <=? nat_of_ascii c) && (nat_of_ascii c <=? 57))%nat.

(** [for s.accept(digits) {}]: the digits at the head of the input and
    what follows them. *)
Fixpoint digits (s : string) : string * string :=
  match s with
  | String c s' =>
      if isDigit c then let '(d, r) := digits s' in (String c d, r)
      else (EmptyString, s)
  | EmptyString => (EmptyString, EmptyString)
  end.

(** The number that a string of decimal digits writes. *)
Fixpoint decimal (acc : Z) (s : string) : Z :=
  match s with
  | EmptyString => acc
  | String c s' => decimal (10 * acc + (Z.of_nat (nat_of_ascii c) - 48)) s'
  end.

(** [strconv.ParseInt(tok, 10, 64)] on an optional sign followed by
    digits, as [scanNumber] hands it over. *)
Definition ParseInt (neg : bool) (sign ds : string) : scanError + Z :=
  let un := decimal 0 ds in
  let cutoff := Z.shiftl 1 63 in
  if negb neg && (cutoff <=? un) then inl (OutOfRange (sign +:+ ds))
  else if neg && (cutoff <? un) then inl (OutOfRange (sign +:+ ds))
  else inr (if neg then - un else un).

(** [ss.scanInt('d', 64)]: skip spaces, an optional sign, at least one
    digit. *)
Definition scanInt (s : string) : scanError + (Z * string) :=
  match SkipSpace s with
  | inl e => inl e
  | inr EmptyString => inl EOF
  | inr (String c s1 as s0) =>
      let '(neg, sign, s2) :=
        if Ascii.eqb c "+" then (false, "+", s1)
        else if Ascii.eqb c "-" then (true, "-", s1)
        else (false, "", s0) in
      match s2 with
      | EmptyString => inl EOF
      | _ =>
          let '(ds, rest) := digits s2 in
          match ds with
          | EmptyString => inl ExpectedInteger
          | _ => match ParseInt neg sign ds with
                 | inl e => inl e
                 | inr n => inr (n, rest)
                 end
          end
      end
  end.

(** [ss.doScanf(format, a)] with [operands] integer operands: the
    integers stored before the scan ended, in order, and the error.  A
    run of spaces of the format matches one or more spaces of the input,
    or its end; a literal matches itself.  Verbs other than [%d] are not
    part of this model. *)
Fixpoint doScanf (format : string) (operands : nat) (input : string)
  : list Z * option scanError :=
  match format with
  | EmptyString =>
      match operands with
      | O => ([], None)
      | S _ => ([], Some TooManyOperands)
      end
  | String "%" (String "d" format') =>
      match operands with
      | O => ([], Some TooFewOperands)
      | S operands' =>
          match scanInt input with
          | inl e => ([], Some e)
          | inr (n, rest) =>
              let '(ns, err) := doScanf format' operands' rest in
              (n :: ns, err)
          end
      end
  | String "%" _ => ([], Some BadVerb)
  | String " " (String " " _ as format') =>
      doScanf format' operands input
  | String " " format' =>
      match input with
      | EmptyString => doScanf format' operands input
      | _ =>
          match readSpace input with
          | None => ([], Some ExpectedSpace)
          | Some (true, _) => ([], Some NewlineInInput)
          | Some (false, rest) =>
              doScanf format' operands (skipBlanks (String.length rest) rest)
          end
      end
  | String c format' =>
      match input with
      | EmptyString => ([], Some UnexpectedEOF)
      | String c' rest =>
          if Ascii.eqb c c' then doScanf format' operands rest
          else ([], Some InputDoesNotMatchFormat)
      end
  end.

(** [var a, b int; _, err = fmt.Sscanf(str, format, &a, &b)]: the values
    of [a] and [b] after the call (an operand that the scan did not
    reach keeps its zero value) and [err]. *)
Definition Sscanf2 (str format : string) : Z * Z * option scanError :=
  let '(ns, err) := doScanf format 2 str in
  (nth 0 ns 0, nth 1 ns 0, err).

(** [err.Error()]; the call panics on a nil [err]. *)
Definition Error (err : option scanError) : M string :=
  match err with
  | Some e => mret (message e)
  | None => throw NilDereference
  end.

End fmt.

(** ** The arity gate *)

(** What the gate reads of a [*cobra.Command]: its [Args] function, which
    may be nil. *)
Record Command : Type := { Args : option PositionalArgs }.

(** [validCurrentCmdLine] (completion.go, lines 197-230) *)
Definition validCurrentCmdLine (cmd : Command) (args : list string)
    (toComplete : string) : M bool :=
  match Args cmd with
  | None =>
      (* Without an Args function we cannot check so assume it's correct *)
      mret true
  | Some validate =>
      match validate (args ++ [toComplete]) with
      | Some msg =>
          let cleanErr := strings.TrimPrefix msg "requires at least " in
          let cleanErr := strings.ReplaceAll cleanErr "only received" "received" in
          let cleanErr := strings.TrimPrefix cleanErr "accepts " in
          _ ← emit (CompDebugln cleanErr);
          let '(need, got, err) := fmt.Sscanf2 cleanErr "%d arg(s), received %d" in
          let reject : M bool :=
            text ← fmt.Error err;
            _ ← emit (CompDebugln text);
            mret false in
          match err with
          | None =>
              if need >=? got
              then (* We still need more arguments so provide more completions *)
                   mret true
              else reject
          | Some _ => reject
          end
      | None => mret true
      end
  end.

(** ** The records of the query interface *)

(** [entities.ListContainer] *)
Module ListContainer.
Record t : Type := { ID : string; Names : list string; PodName : string }.
End ListContainer.

(** [entities.ListPodsReport] *)
Module ListPodsReport.
Record t : Type := { Id : string; Name : string }.
End ListPodsReport.

(** [entities.ImageSummary] *)
Module ImageSummary.
Record t : Type := { ID : string; RepoTags : list string }.
End ImageSummary.

(** [entities.VolumeListReport] *)
Module VolumeListReport.
Record t : Type := { Name : string }.
End VolumeListReport.

(** [entities.NetworkListReport] *)
Module NetworkListReport.
Record t : Type := { Name : string }.
End NetworkListReport.

(** [config.Destination] and, of [config.Config], the field
    [Engine.ServiceDestinations]. *)
Module Destination.
Record t : Type := { URI : string }.
End Destination.

(** What a call of the query interface gives back: Go's [(value, err)]
    with [err == nil], or an error and its text. *)
Inductive reply (A : Type) : Type :=
| Ok (a : A)
| Failed (msg : string).
Arguments Ok {A} a.
Arguments Failed {A} msg.

(** The external query interface: the container and image engines of
    [registry], [registries.GetRegistries] and [config.ReadCustomConfig],
    as they answer during one completion. *)
Record Backend : Type := {
  ContainerList : bool → bool → gmap string (list string) → reply (list ListContainer.t);
  PodPs : gmap string (list string) → reply (list ListPodsReport.t);
  VolumeList : reply (list VolumeListReport.t);
  ImageList : reply (list ImageSummary.t);
  GetRegistries : reply (list string);
  NetworkList : reply (list NetworkListReport.t);
  ReadCustomConfig : reply (gmap string Destination.t)
}.

(** One call of the query interface. *)
Definition ask {A} (q : query) (r : reply A) : M (reply A) :=
  Run [Asked q] (Returns r).

Inductive completeType : Type :=
| completeDefault   (* complete names and IDs after two chars *)
| completeIDs       (* only complete IDs *)
| completeNames.    (* only complete Names *)

Global Instance completeType_eq_dec : EqDecision completeType.
Proof. solve_decision. Defined.

Abbreviation suggestion := string (only parsing).
Abbreviation completion := (list suggestion * ShellCompDirective)%type (only parsing).

(** [map[string]func(s string) ([]string, cobra.ShellCompDirective)]; a
    key can be mapped to the nil function. *)
Abbreviation keyValueCompletion := (gmap string (option (string → M completion))).

Definition tab : string := String (ascii_of_nat 9) EmptyString.

(** [len(toComplete)], in bytes. *)
Abbreviation len s := (String.length s).

Section Completion.

Variable backend : Backend.

(** The order in which a [range] loop visits the entries of a map: some
    enumeration of its entries. *)
Variable mapRange : ∀ V : Type, gmap string V → list (string * V).
Hypothesis mapRange_perm : ∀ V (m : gmap string V), mapRange V m ≡ₚ map_to_list m.

(** The body of the loop over the containers in [getContainers]
    (lines 56-67). *)
Definition containerSuggestions (toComplete : string) (cType : completeType)
    (suggestions : list suggestion) (c : ListContainer.t) : M (list suggestion) :=
  (* include ids in suggestions if cType == completeIDs or
     more then 2 chars are typed and cType == completeDefault *)
  suggestions ←
    (if ((1 <? len toComplete)%nat && bool_decide (cType = completeDefault)
         || bool_decide (cType = completeIDs))
        && strings.HasPrefix (ListContainer.ID c) toComplete
     then id12 ← sliceTo (ListContainer.ID c) 12;
          mret (suggestions ++ [id12 +:+ tab +:+ ListContainer.PodName c])
     else mret suggestions);
  (* include name in suggestions *)
  if negb (bool_decide (cType = completeIDs))
  then name ← index (ListContainer.Names c) 0;
       if strings.HasPrefix name toComplete
       then mret (suggestions ++ [name +:+ tab +:+ ListContainer.PodName c])
       else mret suggestions
  else mret suggestions.

(** [getContainers] (lines 39-69) *)
Definition getContainers (toComplete : string) (cType : completeType)
    (statuses : list string) : M completion :=
  let suggestions : list suggestion := [] in
  let Filters : gmap string (list string) := ∅ in
  let Filters :=
    if (0 <? length statuses)%nat then <["status" := statuses]> Filters
    else Filters in
  containers ← ask (QContainerList true true Filters)
                   (ContainerList backend true true Filters);
  match containers with
  | Failed err =>
      _ ← emit (CompErrorln err);
      mret ([], ShellCompDirectiveError)
  | Ok containers =>
      suggestions ← forRange (containerSuggestions toComplete cType)
                             suggestions containers;
      mret (suggestions, ShellCompDirectiveNoFileComp)
  end.

(** The body of the loop over the pods in [getPods] (lines 86-97). *)
Definition podSuggestions (toComplete : string) (cType : completeType)
    (suggestions : list suggestion) (pod : ListPodsReport.t) : M (list suggestion) :=
  (* include ids in suggestions if cType == completeIDs or
     more then 2 chars are typed and cType == completeDefault *)
  suggestions ←
    (if ((1 <? len toComplete)%nat && bool_decide (cType = completeDefault)
         || bool_decide (cType = completeIDs))
        && strings.HasPrefix (ListPodsReport.Id pod) toComplete
     then id12 ← sliceTo (ListPodsReport.Id pod) 12;
          mret (suggestions ++ [id12])
     else mret suggestions);
  (* include name in suggestions *)
  if negb (bool_decide (cType = completeIDs))
     && strings.HasPrefix (ListPodsReport.Name pod) toComplete
  then mret (suggestions ++ [ListPodsReport.Name pod])
  else mret suggestions.

(** [getPods] (lines 71-99) *)
Definition getPods (toComplete : string) (cType : completeType)
    (statuses : list string) : M completion :=
  let suggestions : list suggestion := [] in
  let Filters : gmap string (list string) := ∅ in
  let Filters :=
    if (0 <? length statuses)%nat then <["status" := statuses]> Filters
    else Filters in
  pods ← ask (QPodPs Filters) (PodPs backend Filters);
  match pods with
  | Failed err =>
      _ ← emit (CompErrorln err);
      mret ([], ShellCompDirectiveError)
  | Ok pods =>
      suggestions ← forRange (podSuggestions toComplete cType) suggestions pods;
      mret (suggestions, ShellCompDirectiveNoFileComp)
  end.

(** [getVolumes] (lines 101-117) *)
Definition getVolumes (toComplete : string) : M completion :=
  let suggestions : list suggestion := [] in
  volumes ← ask QVolumeList (VolumeList backend);
  match volumes with
  | Failed err =>
      _ ← emit (CompErrorln err);
      mret ([], ShellCompDirectiveError)
  | Ok volumes =>
      suggestions ← forRange (λ suggestions v,
        if strings.HasPrefix (VolumeListReport.Name v) toComplete
        then mret (suggestions ++ [VolumeListReport.Name v])
        else mret suggestions) suggestions volumes;
      mret (suggestions, ShellCompDirectiveNoFileComp)
  end.

(** The body of the loop over [image.RepoTags] in [getImages]
    (lines 135-159). *)
Definition repoTagSuggestions (toComplete : string)
    (suggestions : list suggestion) (repo : string) : M (list suggestion) :=
  if bool_decide (toComplete = "")
  then
    (* suggest only full repo path if no input is given *)
    if strings.HasPrefix repo toComplete
    then mret (suggestions ++ [repo])
    else mret suggestions
  else
    let paths := strings.Split repo "/" in
    forRange (λ suggestions i,
      let suggestionWithTag := strings.Join (drop i paths) "/" in
      let suggestions :=
        if strings.HasPrefix suggestionWithTag toComplete
        then suggestions ++ [suggestionWithTag]
        else suggestions in
      beforeColon ← index (strings.SplitN suggestionWithTag ":" 2) 0;
      suggestionWithoutTag ← index (strings.SplitN beforeColon "@" 2) 0;
      if strings.HasPrefix suggestionWithoutTag toComplete
      then mret (suggestions ++ [suggestionWithoutTag])
      else mret suggestions) suggestions (seq 0 (length paths)).

(** The body of the loop over the images in [getImages]
    (lines 129-161). *)
Definition imageSuggestions (toComplete : string)
    (suggestions : list suggestion) (image : ImageSummary.t) : M (list suggestion) :=
  (* include ids in suggestions if more then 2 chars are typed *)
  suggestions ←
    (if (1 <? len toComplete)%nat
        && strings.HasPrefix (ImageSummary.ID image) toComplete
     then id12 ← sliceTo (ImageSummary.ID image) 12;
          mret (suggestions ++ [id12])
     else mret suggestions);
  forRange (repoTagSuggestions toComplete) suggestions
           (ImageSummary.RepoTags image).

(** [getImages] (lines 119-163) *)
Definition getImages (toComplete : string) : M completion :=
  let suggestions : list suggestion := [] in
  images ← ask QImageList (ImageList backend);
  match images with
  | Failed err =>
      _ ← emit (CompErrorln err);
      mret ([], ShellCompDirectiveError)
  | Ok images =>
      suggestions ← forRange (imageSuggestions toComplete) suggestions images;
      mret (suggestions, ShellCompDirectiveNoFileComp)
  end.

(** [getRegistries] (lines 165-172) *)
Definition getRegistries : M completion :=
  regs ← ask QGetRegistries (GetRegistries backend);
  match regs with
  | Failed err =>
      _ ← emit (CompErrorln err);
      mret ([], ShellCompDirectiveError)
  | Ok regs => mret (regs, ShellCompDirectiveNoFileComp)
  end.

(** [getNetworks] (lines 174-190) *)
Definition getNetworks (toComplete : string) : M completion :=
  let suggestions : list suggestion := [] in
  networks ← ask QNetworkList (NetworkList backend);
  match networks with
  | Failed err =>
      _ ← emit (CompErrorln err);
      mret ([], ShellCompDirectiveError)
  | Ok networks =>
      suggestions ← forRange (λ suggestions n,
        if strings.HasPrefix (NetworkListReport.Name n) toComplete
        then mret (suggestions ++ [NetworkListReport.Name n])
        else mret suggestions) suggestions networks;
      mret (suggestions, ShellCompDirectiveNoFileComp)
  end.

(** [prefixSlice] (lines 232-237); the slice is updated in place and
    returned. *)
Definition prefixSlice (pre : string) (slice : list string) : list string :=
  (λ s, pre +:+ s) <$> slice.

(** The [range] loop of [completeKeyValues] (lines 242-258) over the
    entries still to visit, with its two early returns. *)
Fixpoint rangeKeyValues (toComplete : string)
    (entries : list (string * option (string → M completion)))
    (suggestions : list suggestion) (directive : ShellCompDirective)
  : M completion :=
  match entries with
  | [] => mret (suggestions, directive)
  | (key, getComps) :: entries' =>
      if strings.HasPrefix toComplete key
      then match getComps with
           | Some getComps =>
               rest ← sliceFrom toComplete (len key);
               '(suggestions, dir) ← getComps rest;
               mret (prefixSlice key suggestions, dir)
           | None => mret ([], ShellCompDirectiveNoFileComp)
           end
      else if strings.HasPrefix key toComplete
      then
        let suggestions := suggestions ++ [key] in
        latKey ← sliceLast key;
        let directive :=
          if String.eqb latKey "=" || String.eqb latKey ":"
          then (* make sure we don't add a space after ':' or '=' *)
               Z.lor ShellCompDirectiveNoSpace ShellCompDirectiveNoFileComp
          else directive in
        rangeKeyValues toComplete entries' suggestions directive
      else rangeKeyValues toComplete entries' suggestions directive
  end.

(** [completeKeyValues] (lines 239-260) *)
Definition completeKeyValues (toComplete : string) (k : keyValueCompletion)
  : M completion :=
  let suggestions : list suggestion := [] in
  let directive := ShellCompDirectiveNoFileComp in
  rangeKeyValues toComplete (mapRange _ k) suggestions directive.

(** [AutocompleteRegistries] (lines 378-383) *)
Definition AutocompleteRegistries (cmd : Command) (args : list string)
    (toComplete : string) : M completion :=
  valid ← validCurrentCmdLine cmd args toComplete;
  if negb valid then mret ([], ShellCompDirectiveNoFileComp)
  else getRegistries.

(** [AutocompleteSystemConnections] (lines 414-431) *)
Definition AutocompleteSystemConnections (cmd : Command) (args : list string)
    (toComplete : string) : M completion :=
  valid ← validCurrentCmdLine cmd args toComplete;
  if negb valid then mret ([], ShellCompDirectiveNoFileComp)
  else
    let suggestions : list suggestion := [] in
    cfg ← ask QReadCustomConfig (ReadCustomConfig backend);
    match cfg with
    | Failed err =>
        _ ← emit (CompErrorln err);
        mret ([], ShellCompDirectiveError)
    | Ok ServiceDestinations =>
        suggestions ← forRange (λ suggestions kv,
          (* the URI will be show as description in shells like zsh *)
          mret (suggestions ++ [kv.1 +:+ tab +:+ Destination.URI kv.2]))
          suggestions (mapRange _ ServiceDestinations);
        mret (suggestions, ShellCompDirectiveNoFileComp)
    end.

(** The grammar of [AutocompleteNamespace] (lines 466-471). *)
Definition namespaceKeys : keyValueCompletion :=
  <["container:" := Some (λ s, getContainers s completeDefault [])]>
  (<["ns:" := Some (λ s : string, mret ([], ShellCompDirectiveDefault))]>
  (<["host" := None]>
  (<["private" := None]> ∅))).

(** [AutocompleteNamespace] (lines 465-473) *)
Definition AutocompleteNamespace (cmd : Command) (args : list string)
    (toComplete : string) : M completion :=
  let kv := namespaceKeys in
  completeKeyValues toComplete kv.

(** [AutocompleteUserNamespace] (lines 477-481) *)
Definition AutocompleteUserNamespace (cmd : Command) (args : list string)
    (toComplete : string) : M completion :=
  '(results, directive) ← AutocompleteNamespace cmd args toComplete;
  let results := results ++ ["auto"; "keep-id"] in
  mret (results, directive).

End Completion.

(** ** The other entry points of the router *)

(** [strings.Contains(s, substr)], that is [strings.Index(s, substr) >= 0]. *)
Definition Contains (s substr : string) : bool :=
  match strings.Index s substr with
  | Some _ => true
  | None => false
  end.

(** The files that [AutocompleteUserFlag] reads with [os.Open] and a
    [bufio.Scanner]: [Open path] is the error of [os.Open], or the lines
    that [scanner.Scan] yields, in order, and [scanner.Err()] after the
    last one. *)
Record FileSystem : Type := {
  Open : string → reply (list string * error)
}.

Section Router.

Variable backend : Backend.
Variable files : FileSystem.
Variable mapRange : ∀ V : Type, gmap string V → list (string * V).

(** [define.HealthCheckHealthy] and [define.HealthCheckUnhealthy], of
    libpod/define. *)
Variables HealthCheckHealthy HealthCheckUnhealthy : string.

(** [AutocompleteContainers] (lines 265-270) *)
Definition AutocompleteContainers (cmd : Command) (args : list string)
    (toComplete : string) : M completion :=
  valid ← validCurrentCmdLine cmd args toComplete;
  if negb valid then mret ([], ShellCompDirectiveNoFileComp)
  else getContainers backend toComplete completeDefault [].

(** [AutocompleteContainersCreated] (lines 273-278) *)
Definition AutocompleteContainersCreated (cmd : Command) (args : list string)
    (toComplete : string) : M completion :=
  valid ← validCurrentCmdLine cmd args toComplete;
  if negb valid then mret ([], ShellCompDirectiveNoFileComp)
  else getContainers backend toComplete completeDefault ["created"].

(** [AutocompleteContainersExited] (lines 281-286) *)
Definition AutocompleteContainersExited (cmd : Command) (args : list string)
    (toComplete : string) : M completion :=
  valid ← validCurrentCmdLine cmd args toComplete;
  if negb valid then mret ([], ShellCompDirectiveNoFileComp)
  else getContainers backend toComplete completeDefault ["exited"].

(** [AutocompleteContainersPaused] (lines 289-294) *)
Definition AutocompleteContainersPaused (cmd : Command) (args : list string)
    (toComplete : string) : M completion :=
  valid ← validCurrentCmdLine cmd args toComplete;
  if negb valid then mret ([], ShellCompDirectiveNoFileComp)
  else getContainers backend toComplete completeDefault ["paused"].

(** [AutocompleteContainersRunning] (lines 297-302) *)
Definition AutocompleteContainersRunning (cmd : Command) (args : list string)
    (toComplete : string) : M completion :=
  valid ← validCurrentCmdLine cmd args toComplete;
  if negb valid then mret ([], ShellCompDirectiveNoFileComp)
  else getContainers backend toComplete completeDefault ["running"].

(** [AutocompleteContainersStartable] (lines 305-310) *)
Definition AutocompleteContainersStartable (cmd : Command) (args : list string)
    (toComplete : string) : M completion :=
  valid ← validCurrentCmdLine cmd args toComplete;
  if negb valid then mret ([], ShellCompDirectiveNoFileComp)
  else getContainers backend toComplete completeDefault ["created"; "exited"].

(** [AutocompletePods] (lines 313-318) *)
Definition AutocompletePods (cmd : Command) (args : list string)
    (toComplete : string) : M completion :=
  valid ← validCurrentCmdLine cmd args toComplete;
  if negb valid then mret ([], ShellCompDirectiveNoFileComp)
  else getPods backend toComplete completeDefault [].

(** [AutocompletePodsRunning] (lines 322-327) *)
Definition AutocompletePodsRunning (cmd : Command) (args : list string)
    (toComplete : string) : M completion :=
  valid ← validCurrentCmdLine cmd args toComplete;
  if negb valid then mret ([], ShellCompDirectiveNoFileComp)
  else getPods backend toComplete completeDefault ["running"; "degraded"].

(** [AutocompleteContainersAndPods] (lines 330-337) *)
Definition AutocompleteContainersAndPods (cmd : Command) (args : list string)
    (toComplete : string) : M completion :=
  valid ← validCurrentCmdLine cmd args toComplete;
  if negb valid then mret ([], ShellCompDirectiveNoFileComp)
  else
    '(containers, _) ← getContainers backend toComplete completeDefault [];
    '(pods, _) ← getPods backend toComplete completeDefault [];
    mret (containers ++ pods, ShellCompDirectiveNoFileComp).

(** [AutocompleteContainersAndImages] (lines 340-347) *)
Definition AutocompleteContainersAndImages (cmd : Command) (args : list string)
    (toComplete : string) : M completion :=
  valid ← validCurrentCmdLine cmd args toComplete;
  if negb valid then mret ([], ShellCompDirectiveNoFileComp)
  else
    '(containers, _) ← getContainers backend toComplete completeDefault [];
    '(images, _) ← getImages backend toComplete;
    mret (containers ++ images, ShellCompDirectiveNoFileComp).

(** [AutocompleteVolumes] (lines 350-355) *)
Definition AutocompleteVolumes (cmd : Command) (args : list string)
    (toComplete : string) : M completion :=
  valid ← validCurrentCmdLine cmd args toComplete;
  if negb valid then mret ([], ShellCompDirectiveNoFileComp)
  else getVolumes backend toComplete.

(** [AutocompleteImages] (lines 358-363) *)
Definition AutocompleteImages (cmd : Command) (args : list string)
    (toComplete : string) : M completion :=
  valid ← validCurrentCmdLine cmd args toComplete;
  if negb valid then mret ([], ShellCompDirectiveNoFileComp)
  else getImages backend toComplete.

(** [AutocompleteCreateRun] (lines 366-375) *)
Definition AutocompleteCreateRun (cmd : Command) (args : list string)
    (toComplete : string) : M completion :=
  valid ← validCurrentCmdLine cmd args toComplete;
  if negb valid then mret ([], ShellCompDirectiveNoFileComp)
  else if (length args <? 1)%nat then getImages backend toComplete
  else mret ([], ShellCompDirectiveDefault).

(** [AutocompleteNetworks] (lines 386-391) *)
Definition AutocompleteNetworks (cmd : Command) (args : list string)
    (toComplete : string) : M completion :=
  valid ← validCurrentCmdLine cmd args toComplete;
  if negb valid then mret ([], ShellCompDirectiveNoFileComp)
  else getNetworks backend toComplete.

(** The loop of [AutocompleteCpCommand] (lines 400-407) over the
    suggestions still to visit: it returns all the containers at the
    first suggestion that the token is a prefix of, and falls back on
    the completion of paths after the last one. *)
Fixpoint rangeCpCommand (toComplete : string) (containers rest : list string)
  : completion :=
  match rest with
  | [] => ([], ShellCompDirectiveDefault)
  | container :: rest' =>
      if strings.HasPrefix container toComplete
      then (containers, ShellCompDirectiveNoSpace)
      else rangeCpCommand toComplete containers rest'
  end.

(** [AutocompleteCpCommand] (lines 394-411) *)
Definition AutocompleteCpCommand (cmd : Command) (args : list string)
    (toComplete : string) : M completion :=
  valid ← validCurrentCmdLine cmd args toComplete;
  if negb valid then mret ([], ShellCompDirectiveNoFileComp)
  else if (length args <? 2)%nat then
    '(containers, _) ← getContainers backend toComplete completeDefault [];
    mret (rangeCpCommand toComplete containers containers)
  else
    (* don't complete more than 2 args *)
    mret ([], ShellCompDirectiveNoFileComp).

(** The grammar of [AutocompleteSecurityOption] (lines 533-543). *)
Definition securityOptionKeys : keyValueCompletion :=
  <["apparmor=" := None]>
  (<["no-new-privileges" := None]>
  (<["seccomp=" := Some (λ s : string, mret ([], ShellCompDirectiveDefault))]>
  (<["label=" := Some (λ s : string,
       if strings.HasPrefix s "d"
       then mret (["disable"], ShellCompDirectiveNoFileComp)
       else mret (["user:"; "role:"; "type:"; "level:"; "filetype:"; "disable"],
                  Z.lor ShellCompDirectiveNoSpace ShellCompDirectiveNoFileComp))]>
   ∅))).

(** [AutocompleteSecurityOption] (lines 532-545) *)
Definition AutocompleteSecurityOption (cmd : Command) (args : list string)
    (toComplete : string) : M completion :=
  let kv := securityOptionKeys in
  completeKeyValues mapRange toComplete kv.

(** The loop over the lines of /etc/group in [AutocompleteUserFlag]
    (lines 577-584). *)
Definition groupSuggestions (toComplete user : string)
    (groups : list suggestion) (line : string) : M (list suggestion) :=
  let entries := strings.SplitN line ":" 4 in
  name ← index entries 0;
  let groups := groups ++ [user +:+ ":" +:+ name] in
  (* complete ids after at least one char is given *)
  if (len user + 1 <? len toComplete)%nat
  then gid ← index entries 2;
       mret (groups ++ [user +:+ ":" +:+ gid])
  else mret groups.

(** The loop over the lines of /etc/passwd in [AutocompleteUserFlag]
    (lines 601-608). *)
Definition userSuggestions (toComplete : string)
    (users : list suggestion) (line : string) : M (list suggestion) :=
  let entries := strings.SplitN line ":" 7 in
  name ← index entries 0;
  let users := users ++ [name +:+ ":"] in
  (* complete ids after at least one char is given *)
  if (0 <? len toComplete)%nat
  then uid ← index entries 2;
       mret (users ++ [uid +:+ ":"])
  else mret users.

(** [AutocompleteUserFlag] (lines 564-613) *)
Definition AutocompleteUserFlag (cmd : Command) (args : list string)
    (toComplete : string) : M completion :=
  if Contains toComplete ":"
  then
    match Open files "/etc/group" with
    | Failed _ => mret ([], ShellCompDirectiveError)
    | Ok (lines, scanErr) =>
        let groups : list suggestion := [] in
        user ← index (strings.SplitN toComplete ":" 2) 0;
        groups ← forRange (groupSuggestions toComplete user) groups lines;
        match scanErr with
        | Some _ => mret ([], ShellCompDirectiveError)
        | None => mret (groups, ShellCompDirectiveNoFileComp)
        end
    end
  else
    match Open files "/etc/passwd" with
    | Failed _ => mret ([], ShellCompDirectiveError)
    | Ok (lines, scanErr) =>
        let users : list suggestion := [] in
        users ← forRange (userSuggestions toComplete) users lines;
        match scanErr with
        | Some _ => mret ([], ShellCompDirectiveError)
        | None => mret (users, ShellCompDirectiveNoSpace)
        end
    end.

(** [AutocompleteVolumeFlag] (lines 625-633) *)
Definition AutocompleteVolumeFlag (cmd : Command) (args : list string)
    (toComplete : string) : M completion :=
  '(volumes, _) ← getVolumes backend toComplete;
  let directive := Z.lor ShellCompDirectiveNoSpace ShellCompDirectiveDefault in
  let directive :=
    if Contains toComplete ":"
    then (* add space after second path *) ShellCompDirectiveDefault
    else directive in
  mret (volumes, directive).

(** [containerStatuses] (line 751), as the package initialises it: the
    completer of [status=] returns this very slice, which [prefixSlice]
    then updates in place, so that the value holds for the first
    completion of a process, the only one that the completion command
    makes. *)
Definition containerStatuses : list string :=
  ["created"; "running"; "paused"; "stopped"; "exited"; "unknown"].

(** The grammar of [AutocompletePsFilters] (lines 755-772). *)
Definition psFilterKeys : keyValueCompletion :=
  <["id=" := Some (λ s, getContainers backend s completeIDs [])]>
  (<["name=" := Some (λ s, getContainers backend s completeNames [])]>
  (<["status=" := Some (λ _ : string,
       mret (containerStatuses, ShellCompDirectiveNoFileComp))]>
  (<["ancestor" := Some (λ s, getImages backend s)]>
  (<["before=" := Some (λ s, getContainers backend s completeDefault [])]>
  (<["since=" := Some (λ s, getContainers backend s completeDefault [])]>
  (<["volume=" := Some (λ s, getVolumes backend s)]>
  (<["health=" := Some (λ _ : string,
       mret ([HealthCheckHealthy; HealthCheckUnhealthy],
             ShellCompDirectiveNoFileComp))]>
  (<["label=" := None]>
  (<["exited=" := None]>
  (<["until=" := None]> ∅)))))))))).

(** [AutocompletePsFilters] (lines 754-774) *)
Definition AutocompletePsFilters (cmd : Command) (args : list string)
    (toComplete : string) : M completion :=
  let kv := psFilterKeys in
  completeKeyValues mapRange toComplete kv.

(** The grammar of [AutocompletePodPsFilters] (lines 778-792). *)
Definition podPsFilterKeys : keyValueCompletion :=
  <["id=" := Some (λ s, getPods backend s completeIDs [])]>
  (<["name=" := Some (λ s, getPods backend s completeNames [])]>
  (<["status=" := Some (λ _ : string,
       mret (["stopped"; "running"; "paused"; "exited"; "dead"; "created";
              "degraded"], ShellCompDirectiveNoFileComp))]>
  (<["ctr-ids=" := Some (λ s, getContainers backend s completeIDs [])]>
  (<["ctr-names=" := Some (λ s, getContainers backend s completeNames [])]>
  (<["ctr-number=" := None]>
  (<["ctr-status=" := Some (λ _ : string,
       mret (containerStatuses, ShellCompDirectiveNoFileComp))]>
  (<["label=" := None]> ∅))))))).

(** [AutocompletePodPsFilters] (lines 777-794) *)
Definition AutocompletePodPsFilters (cmd : Command) (args : list string)
    (toComplete : string) : M completion :=
  let kv := podPsFilterKeys in
  completeKeyValues mapRange toComplete kv.

End Router.

(** * Definitions for the statements

    What the theorems speak of and the code does not name: the outcome
    of a run, the parts of a loop body, the conditions on the records,
    and sample inputs. *)

(** ** Outcomes *)

(** The run [m] panics. *)
Definition panics {A} (m : M A) : Prop := ∃ p, result m = Panics p.

(** ** The arity gate *)

(** What [validCurrentCmdLine] reads in the text of a validator's error:
    the text is cleaned, then scanned for the two counts. *)
Definition recovered (msg : string) : Z * Z * option fmt.scanError :=
  let cleanErr := strings.TrimPrefix msg "requires at least " in
  let cleanErr := strings.ReplaceAll cleanErr "only received" "received" in
  let cleanErr := strings.TrimPrefix cleanErr "accepts " in
  fmt.Sscanf2 cleanErr "%d arg(s), received %d".

(** A string of decimal digits. *)
Fixpoint allDigits (s : string) : bool :=
  match s with
  | EmptyString => true
  | String c s' => fmt.isDigit c && allDigits s'
  end.

(** What follows a number in the input: the end, or a byte that is not a
    digit. *)
Definition endsNumber (rest : string) : bool :=
  match rest with
  | EmptyString => true
  | String c _ => negb (fmt.isDigit c)
  end.

(** The scan of ["<need> arg(s), received <got>"]. *)
Definition counts (need got : Z) : string :=
  Itoa need +:+ " arg(s), received " +:+ Itoa got.

(** A string without the byte [c]. *)
Fixpoint noByte (c : ascii) (s : string) : bool :=
  match s with
  | EmptyString => true
  | String c' s' => negb (Ascii.eqb c c') && noByte c s'
  end.

(** A command that requires at least two arguments, and one that
    accepts exactly two. *)
Definition minimum2 : Command := {| Args := Some (MinimumNArgs 2) |}.
Definition exact2 : Command := {| Args := Some (ExactArgs 2) |}.

(** ** The key-value combinator *)

(** The last byte of a string. *)
Fixpoint lastByte (s : string) : option ascii :=
  match s with
  | EmptyString => None
  | String c EmptyString => Some c
  | String _ s' => lastByte s'
  end.

(** A key that ends in ['='] or [':']. *)
Definition endsInSeparator (key : string) : bool :=
  match lastByte key with
  | Some c => Ascii.eqb c "=" || Ascii.eqb c ":"
  | None => false
  end.

(** [cobra.ShellCompDirectiveNoSpace | cobra.ShellCompDirectiveNoFileComp] *)
Definition noSpaceNoFileComp : ShellCompDirective :=
  Z.lor ShellCompDirectiveNoSpace ShellCompDirectiveNoFileComp.

(** The grammar [{"status=": f}] where [f] returns
    [["running"; "paused"]]. *)
Definition statusCompleter : string → M completion :=
  λ _, mret (["running"; "paused"], ShellCompDirectiveNoFileComp).
Definition statusGrammar : keyValueCompletion :=
  {[ "status=" := Some statusCompleter ]}.

(** An order of the loop: the one of [map_to_list]. *)
Definition listRange : ∀ V : Type, gmap string V → list (string * V) :=
  λ V m, map_to_list m.

(** A grammar with a key that ends in ['='] and one that does not. *)
Definition filterGrammar : keyValueCompletion :=
  <["status=" := Some statusCompleter]> {[ "host" := None ]}.

(** ** The entity query adapters *)

(** The [Filters] of the list options that [getContainers] and [getPods]
    build from [statuses]. *)
Definition statusFilters (statuses : list string) : gmap string (list string) :=
  if (0 <? length statuses)%nat then <["status" := statuses]> ∅ else ∅.

(** Whether the loops take the ID branch on an ID: ID completion is on
    for the token and the mode, and the token is a prefix of the ID. *)
Definition idsEnabled (toComplete : string) (cType : completeType) : bool :=
  (1 <? len toComplete)%nat && bool_decide (cType = completeDefault)
  || bool_decide (cType = completeIDs).

Definition idMatches (toComplete : string) (cType : completeType) (ID : string) : bool :=
  idsEnabled toComplete cType && strings.HasPrefix ID toComplete.

(** What the ID branch and the name branch add to the suggestions for a
    container, when no slice or index is out of range. *)
Definition containerIDSuggestion (toComplete : string) (cType : completeType)
    (c : ListContainer.t) : list string :=
  if idMatches toComplete cType (ListContainer.ID c)
  then [strings.take 12 (ListContainer.ID c) +:+ tab +:+ ListContainer.PodName c]
  else [].

Definition containerNameSuggestion (toComplete : string) (cType : completeType)
    (c : ListContainer.t) : list string :=
  match ListContainer.Names c !! 0%nat with
  | Some name =>
      if negb (bool_decide (cType = completeIDs)) && strings.HasPrefix name toComplete
      then [name +:+ tab +:+ ListContainer.PodName c]
      else []
  | None => []
  end.

(** A container is safe for a token and a mode when its ID is long
    enough if the ID branch is taken, and it has a name if names are
    completed. *)
Definition containerSafe (toComplete : string) (cType : completeType)
    (c : ListContainer.t) : Prop :=
  (idMatches toComplete cType (ListContainer.ID c) = true →
   (12 ≤ len (ListContainer.ID c))%nat)
  ∧ (cType ≠ completeIDs → ListContainer.Names c ≠ []).

(** The same for a pod. *)
Definition podIDSuggestion (toComplete : string) (cType : completeType)
    (pod : ListPodsReport.t) : list string :=
  if idMatches toComplete cType (ListPodsReport.Id pod)
  then [strings.take 12 (ListPodsReport.Id pod)]
  else [].

Definition podNameSuggestion (toComplete : string) (cType : completeType)
    (pod : ListPodsReport.t) : list string :=
  if negb (bool_decide (cType = completeIDs))
     && strings.HasPrefix (ListPodsReport.Name pod) toComplete
  then [ListPodsReport.Name pod]
  else [].

(** A pod is safe when its ID is long enough if the ID branch is taken. *)
Definition podSafe (toComplete : string) (cType : completeType)
    (pod : ListPodsReport.t) : Prop :=
  idMatches toComplete cType (ListPodsReport.Id pod) = true →
  (12 ≤ len (ListPodsReport.Id pod))%nat.

(** [strings.SplitN(s, sep, 2)[0]]: [s] up to the first [sep]. *)
Definition beforeFirst (sep s : string) : string :=
  match strings.Index s sep with
  | Some m => strings.take m s
  | None => s
  end.

(** What line 154 computes: the string up to its first [':'], and of
    that, the part up to its first ['@']. *)
Definition withoutTag (s : string) : string := beforeFirst "@" (beforeFirst ":" s).

(** The suffixes of a list that are not empty, longest first:
    [paths[i:]] for [i] in the range of [paths]. *)
Fixpoint suffixes {A} (l : list A) : list (list A) :=
  match l with
  | [] => []
  | x :: l' => (x :: l') :: suffixes l'
  end.

(** The candidates that the code derives from a repo tag: for each
    suffix of its segments, the suffix joined and [withoutTag] of it. *)
Definition repoTagCandidates (repo : string) : list string :=
  flat_map (λ suffix, let joined := strings.Join suffix "/" in
                      [joined; withoutTag joined])
           (suffixes (strings.Split repo "/")).

(** The test of the ID branch of [getImages] (line 131), what the branch
    adds, and what the loop over the repo tags adds. *)
Definition imageIDMatches (toComplete ID : string) : bool :=
  (1 <? len toComplete)%nat && strings.HasPrefix ID toComplete.

Definition imageIDSuggestion (toComplete : string) (image : ImageSummary.t)
  : list string :=
  if imageIDMatches toComplete (ImageSummary.ID image)
  then [strings.take 12 (ImageSummary.ID image)]
  else [].

Definition imageTagSuggestions (toComplete : string) (image : ImageSummary.t)
  : list string :=
  flat_map (λ repo, if bool_decide (toComplete = "") then [repo]
                    else List.filter (λ s, strings.HasPrefix s toComplete)
                                     (repoTagCandidates repo))
           (ImageSummary.RepoTags image).

(** An image is safe when its ID is long enough if the ID branch is
    taken. *)
Definition imageSafe (toComplete : string) (image : ImageSummary.t) : Prop :=
  imageIDMatches toComplete (ImageSummary.ID image) = true →
  (12 ≤ len (ImageSummary.ID image))%nat.

(** What the loops of [getVolumes] and [getNetworks] add for a record. *)
Definition volumeSuggestion (toComplete : string) (v : VolumeListReport.t)
  : list string :=
  if strings.HasPrefix (VolumeListReport.Name v) toComplete
  then [VolumeListReport.Name v] else [].

Definition networkSuggestion (toComplete : string) (n : NetworkListReport.t)
  : list string :=
  if strings.HasPrefix (NetworkListReport.Name n) toComplete
  then [NetworkListReport.Name n] else [].

(** The run of an adapter whose query [q] failed with [msg]: one query,
    the error reported, no suggestion and the directive Error alone. *)
Definition failure (q : query) (msg : string) : M completion :=
  Run [Asked q; CompErrorln msg] (Returns ([], ShellCompDirectiveError)).

(** The contract of an adapter, by the answer of the backend to its one
    query [q]: on an error, the run is [failure q msg]; on an answer, the
    adapter asks once, and returns NoFileComp unless it panics. *)
Definition adapterContract {A} (answer : reply A) (q : query) (m : M completion)
  : Prop :=
  match answer with
  | Failed msg => m = failure q msg
  | Ok _ =>
      trace m = [Asked q]
      ∧ (panics m ∨ ∃ suggestions, result m = Returns (suggestions, ShellCompDirectiveNoFileComp))
  end.

(** The same, for an adapter that cannot panic. *)
Definition adapterContractTotal {A} (answer : reply A) (q : query)
    (m : M completion) : Prop :=
  match answer with
  | Failed msg => m = failure q msg
  | Ok _ => ∃ suggestions, m = Run [Asked q] (Returns (suggestions, ShellCompDirectiveNoFileComp))
  end.

(** The name suggestion of a container is its first name, which the
    token is a prefix of, with the pod name as annotation. *)
Definition nameMatch (toComplete : string) (containers : list ListContainer.t)
    (s : string) : Prop :=
  ∃ c name, c ∈ containers
            ∧ ListContainer.Names c !! 0%nat = Some name
            ∧ strings.HasPrefix name toComplete = true
            ∧ s = name +:+ tab +:+ ListContainer.PodName c.

(** ** Sample inputs *)

(** Two containers with long IDs. *)
Definition demoContainers : list ListContainer.t :=
  [ {| ListContainer.ID := "abcdef1234567890"; ListContainer.Names := ["web"];
       ListContainer.PodName := "pod1" |};
    {| ListContainer.ID := "abff001122334455"; ListContainer.Names := ["db"];
       ListContainer.PodName := "" |} ].

(** A pod whose ID is shorter than 12 bytes. *)
Definition demoPods : list ListPodsReport.t :=
  [ {| ListPodsReport.Id := "abc"; ListPodsReport.Name := "p1" |} ].

(** An image on a registry with a port. *)
Definition demoImages : list ImageSummary.t :=
  [ {| ImageSummary.ID := "0123456789abcdef";
       ImageSummary.RepoTags := ["localhost:5000/app:latest"] |} ].

(** A backend whose volume query fails. *)
Definition demoBackend : Backend := {|
  ContainerList := λ _ _ _, Ok demoContainers;
  PodPs := λ _, Ok demoPods;
  VolumeList := Failed "connection refused";
  ImageList := Ok demoImages;
  GetRegistries := Ok ["docker.io"; "quay.io"];
  NetworkList := Ok [];
  ReadCustomConfig := Ok ∅
|}.

(** A command without [Args] function. *)
Definition anyArgs : Command := {| Args := None |}.

(** The reference without its trailing [:tag] or [@digest] component, in
    the words of the specification.  A repo tag is [repo[:tag|@digest]]:
    the digest follows the ['@'], the tag follows the [':'] of the last
    segment, a [':'] of an earlier segment being the port of the
    registry. *)
Definition stripTagOrDigest (ref : string) : string :=
  match strings.Index ref "@" with
  | Some m => strings.take m ref
  | None =>
      let segments := strings.Split ref "/" in
      strings.Join (take (length segments - 1) segments
                    ++ [beforeFirst ":" (List.last segments "")]) "/"
  end.

(** ** The other entry points *)

(** A line of cobra's debug channel. *)
Definition isDebug (e : event) : bool :=
  match e with
  | CompDebugln _ => true
  | _ => false
  end.

(** A completion whose directive has the Error flag only with an empty
    list of suggestions. *)
Definition errorMeansEmpty (c : completion) : Prop :=
  hasFlag c.2 ShellCompDirectiveError = true → c.1 = [].

(** The first name of a container, [c.Names[0]], when it has one. *)
Definition firstName (c : ListContainer.t) : string :=
  match ListContainer.Names c with
  | name :: _ => name
  | [] => ""
  end.

(** A suggestion continues the token: it starts with the token, of which
    only the first 12 bytes are compared (the length of a suggested
    ID). *)
Definition continuesToken (toComplete s : string) : Prop :=
  strings.HasPrefix s (strings.take 12 toComplete) = true.

(** The entry points that ask [validCurrentCmdLine] first. *)
Definition gatedEntryPoints (backend : Backend)
    (mapRange : ∀ V : Type, gmap string V → list (string * V))
  : list (Command → list string → string → M completion) :=
  [ AutocompleteContainers backend;
    AutocompleteContainersCreated backend;
    AutocompleteContainersExited backend;
    AutocompleteContainersPaused backend;
    AutocompleteContainersRunning backend;
    AutocompleteContainersStartable backend;
    AutocompletePods backend;
    AutocompletePodsRunning backend;
    AutocompleteContainersAndPods backend;
    AutocompleteContainersAndImages backend;
    AutocompleteVolumes backend;
    AutocompleteImages backend;
    AutocompleteCreateRun backend;
    AutocompleteRegistries backend;
    AutocompleteNetworks backend;
    AutocompleteCpCommand backend;
    AutocompleteSystemConnections backend mapRange ].

(** A backend that is down: every query fails. *)
Definition downBackend : Backend := {|
  ContainerList := λ _ _ _, Failed "containers: connection refused";
  PodPs := λ _, Failed "pods: connection refused";
  VolumeList := Failed "volumes: connection refused";
  ImageList := Failed "images: connection refused";
  GetRegistries := Failed "registries: connection refused";
  NetworkList := Failed "networks: connection refused";
  ReadCustomConfig := Failed "config: permission denied"
|}.

(** A grammar in which no key is a prefix of another one. *)
Definition prefixFree (k : keyValueCompletion) : Prop :=
  ∀ key key', key ∈ dom k → key' ∈ dom k →
              strings.HasPrefix key key' = true → key' = key.

(** The completion of what follows a key by the value of the key: the
    suggestions of the completer with the key in front, or nothing with
    NoFileComp for a key without completer. *)
Definition delegate (key : string) (v : option (string → M completion))
    (rest : string) : M completion :=
  match v with
  | Some f => '(nested, dir) ← f rest; mret (prefixSlice key nested, dir)
  | None => mret ([], ShellCompDirectiveNoFileComp)
  end.

(** What follows the first [sep] in [s]; nothing without [sep]. *)
Definition afterFirst (sep s : string) : string :=
  match strings.Index s sep with
  | Some m => strings.drop (m + len sep) s
  | None => ""
  end.

(** The first and the third field of a line of /etc/passwd or
    /etc/group, the fields being separated by [':']. *)
Definition firstField (line : string) : string := beforeFirst ":" line.
Definition thirdField (line : string) : string :=
  beforeFirst ":" (afterFirst ":" (afterFirst ":" line)).

(** A file system with the given lines in /etc/passwd and in
    /etc/group, read without error. *)
Definition demoFiles (passwd group : list string) : FileSystem :=
  {| Open := λ path, if String.eqb path "/etc/passwd" then Ok (passwd, None)
                     else if String.eqb path "/etc/group" then Ok (group, None)
                     else Failed "no such file or directory" |}.

(** An image on a registry without port. *)
Definition alpineImage : ImageSummary.t :=
  {| ImageSummary.ID := "0123456789abcdef";
     ImageSummary.RepoTags := ["quay.io/libpod/alpine:latest"] |}.

(** A backend with that image and with one system connection. *)
Definition connectionsBackend : Backend := {|
  ContainerList := λ _ _ _, Ok demoContainers;
  PodPs := λ _, Ok demoPods;
  VolumeList := Ok [];
  ImageList := Ok [alpineImage];
  GetRegistries := Ok [];
  NetworkList := Ok [];
  ReadCustomConfig :=
    Ok {[ "prod" := {| Destination.URI := "ssh://core@prod/run/podman.sock" |} ]}
|}.

(** A validator with an error of its own. *)
Definition noArguments : Command :=
  {| Args := Some (λ tokens, Some "no arguments are accepted") |}.

(** A backend with a container without name. *)
Definition namelessContainer : ListContainer.t :=
  {| ListContainer.ID := "abcdef1234567890"; ListContainer.Names := [];
     ListContainer.PodName := "" |}.
Definition namelessBackend : Backend := {|
  ContainerList := λ _ _ _, Ok [namelessContainer];
  PodPs := λ _, Ok [];
  VolumeList := Ok [];
  ImageList := Ok [];
  GetRegistries := Ok [];
  NetworkList := Ok [];
  ReadCustomConfig := Ok ∅
|}.

(** * Properties *)

(** ** The monad *)

Lemma M_eta {A} (m : M A) : Run (trace m) (result m) = m.
Proof. by destruct m. Qed.

Lemma mret_bind {A B} (a : A) (f : A → M B) : mret a ≫= f = f a.
Proof. unfold mbind, M_bind, mret, M_ret; simpl. apply M_eta. Qed.

Lemma bind_returns {A B} (m : M A) (f : A → M B) a :
  result m = Returns a → result (m ≫= f) = result (f a).
Proof. unfold mbind, M_bind. by intros ->. Qed.

Lemma bind_panics {A B} (m : M A) (f : A → M B) p :
  result m = Panics p → result (m ≫= f) = Panics p.
Proof. unfold mbind, M_bind. by intros ->. Qed.

Lemma bind_returns_inv {A B} (m : M A) (f : A → M B) b :
  result (m ≫= f) = Returns b →
  ∃ a, result m = Returns a ∧ result (f a) = Returns b.
Proof.
  unfold mbind, M_bind. destruct (result m) as [a|p]; simpl; [eauto | done].
Qed.

(** ** Loops over slices *)

Section ForRange.
Context {A S : Type} (body : S → A → M S).

Lemma forRange_ext (body' : S → A → M S) s l :
  (∀ s x, x ∈ l → body s x = body' s x) →
  forRange body s l = forRange body' s l.
Proof.
  revert s. induction l as [|x l IH]; intros s Hext; [done|].
  simpl. rewrite Hext by apply list_elem_of_here.
  unfold mbind, M_bind.
  destruct (result (body' s x)) as [s1|p]; [|done].
  rewrite (IH s1); [done|]. intros. apply Hext. by apply list_elem_of_further.
Qed.

(** A loop panics as soon as one of its steps does. *)
Lemma forRange_panics s l x :
  x ∈ l → (∀ s, panics (body s x)) → panics (forRange body s l).
Proof.
  intros Hin Hbad. revert s.
  induction Hin as [x l | x y l Hin IH]; intros s; simpl.
  - destruct (Hbad s) as [p Hp]. exists p. by apply bind_panics.
  - destruct (result (body s y)) as [s1|p] eqn:E.
    + destruct (IH Hbad s1) as [p Hp]. exists p.
      by rewrite (bind_returns _ _ _ E).
    + exists p. by apply bind_panics.
Qed.

(** A loop whose steps write nothing writes nothing. *)
Lemma forRange_trace s l :
  (∀ s x, x ∈ l → trace (body s x) = []) → trace (forRange body s l) = [].
Proof.
  revert s. induction l as [|x l IH]; intros s Hstep; [done|].
  simpl. unfold mbind, M_bind.
  destruct (result (body s x)) as [s1|p] eqn:E; simpl.
  - rewrite Hstep by apply list_elem_of_here. simpl. apply IH. intros. apply Hstep.
    by apply list_elem_of_further.
  - apply Hstep. apply list_elem_of_here.
Qed.
End ForRange.

(** ** Strings *)

Lemma HasPrefix_empty s : strings.HasPrefix s "" = true.
Proof. by destruct s. Qed.

Lemma HasPrefix_of_empty key : key ≠ "" → strings.HasPrefix "" key = false.
Proof. by destruct key. Qed.

Lemma HasPrefix_length s pre :
  strings.HasPrefix s pre = true → (len pre ≤ len s)%nat.
Proof.
  unfold strings.HasPrefix. revert s.
  induction pre as [|c pre IH]; intros [|c' s]; simpl; try lia; try done.
  destruct (ascii_dec c c'); [|done]. intros H%IH. lia.
Qed.

Lemma HasPrefix_append pre s : strings.HasPrefix (pre +:+ s) pre = true.
Proof.
  unfold strings.HasPrefix. induction pre as [|c pre IH]; simpl.
  - by destruct s.
  - by destruct (ascii_dec c c).
Qed.

Lemma drop_append pre s : strings.drop (len pre) (pre +:+ s) = s.
Proof. induction pre as [|c pre IH]; simpl; [by destruct s | done]. Qed.

Lemma sliceFrom_prefix s pre :
  strings.HasPrefix s pre = true →
  sliceFrom s (len pre) = mret (strings.drop (len pre) s).
Proof.
  intros H%HasPrefix_length. unfold sliceFrom.
  by rewrite (proj2 (Nat.leb_le _ _) H).
Qed.

(** ** The arity gate *)

(** The gate, case by case: without validator, and with a validator that
    accepts, it returns true; when the validator fails, it returns true
    if two counts are recovered with [need >= got], false if no counts
    are recovered, and it panics if they are recovered with [need < got],
    on the call [err.Error()] of line 226, where [err] is the nil error
    of the scan. *)
Lemma validCurrentCmdLine_result cmd args toComplete :
  result (validCurrentCmdLine cmd args toComplete) =
  match Args cmd with
  | None => Returns true
  | Some validate =>
      match validate (args ++ [toComplete]) with
      | None => Returns true
      | Some msg =>
          match recovered msg with
          | (need, got, None) =>
              if need >=? got then Returns true else Panics NilDereference
          | (_, _, Some _) => Returns false
          end
      end
  end.
Proof.
  unfold validCurrentCmdLine, recovered.
  destruct (Args cmd) as [validate|]; [|done].
  destruct (validate (args ++ [toComplete])) as [msg|]; [|done].
  destruct (fmt.Sscanf2 _ _) as [[need got] [e|]]; simpl; [done|].
  by destruct (need >=? got).
Qed.

(** ** Printing and scanning the counts *)

Lemma append_cons c (s1 s2 : string) : String c s1 +:+ s2 = String c (s1 +:+ s2).
Proof. reflexivity. Qed.

Lemma append_nil (s : string) : s +:+ "" = s.
Proof. induction s as [|c s IH]; [done|]. by rewrite append_cons, IH. Qed.

Lemma append_assoc (s1 s2 s3 : string) : (s1 +:+ s2) +:+ s3 = s1 +:+ s2 +:+ s3.
Proof. induction s1 as [|c s1 IH]; [done|]. by rewrite !append_cons, IH. Qed.

Lemma decimal_app a s1 s2 :
  fmt.decimal a (s1 +:+ s2) = fmt.decimal (fmt.decimal a s1) s2.
Proof.
  revert a. induction s1 as [|c s1 IH]; intros a; [done|].
  rewrite append_cons. cbn [fmt.decimal]. apply IH.
Qed.

Lemma formatBits_acc fuel u acc :
  formatBits fuel u acc = formatBits fuel u "" +:+ acc.
Proof.
  revert u acc. induction fuel as [|fuel IH]; intros u acc; [done|].
  simpl. destruct (u <? 10); [done|].
  rewrite (IH _ (String _ acc)). symmetry. rewrite (IH _ (String _ "")).
  by rewrite append_assoc.
Qed.

Lemma digitChar_code d : 0 ≤ d < 10 → nat_of_ascii (digitChar d) = (48 + Z.to_nat d)%nat.
Proof. intros H. unfold digitChar. apply nat_ascii_embedding. lia. Qed.

Lemma digitChar_isDigit d : 0 ≤ d < 10 → fmt.isDigit (digitChar d) = true.
Proof.
  intros H. unfold fmt.isDigit. rewrite (digitChar_code d H).
  apply andb_true_intro. split; apply Nat.leb_le; lia.
Qed.

Lemma allDigits_app s1 s2 : allDigits (s1 +:+ s2) = allDigits s1 && allDigits s2.
Proof.
  induction s1 as [|c s1 IH]; [done|].
  rewrite append_cons. cbn [allDigits]. by rewrite IH, andb_assoc.
Qed.

Lemma formatBits_allDigits fuel u :
  0 ≤ u → allDigits (formatBits fuel u "") = true.
Proof.
  revert u. induction fuel as [|fuel IH]; intros u Hu; [done|].
  cbn [formatBits]. destruct (u <? 10) eqn:E.
  - apply Z.ltb_lt in E. cbn [allDigits].
    by rewrite digitChar_isDigit by lia.
  - rewrite formatBits_acc, allDigits_app, IH by (apply Z.div_pos; lia).
    cbn [allDigits andb]. rewrite digitChar_isDigit; [done|].
    apply Z.mod_pos_bound. lia.
Qed.

Lemma formatBits_nonempty fuel u : formatBits (S fuel) u "" ≠ "".
Proof.
  cbn [formatBits]. destruct (u <? 10); [done|]. rewrite formatBits_acc.
  destruct (formatBits fuel (u / 10) ""); [done | by rewrite append_cons].
Qed.

Lemma decimal_formatBits fuel u :
  0 ≤ u < 2 ^ Z.of_nat fuel → fmt.decimal 0 (formatBits fuel u "") = u.
Proof.
  revert u. induction fuel as [|fuel IH]; intros u Hu.
  - simpl in *. lia.
  - cbn [formatBits]. destruct (u <? 10) eqn:E.
    + apply Z.ltb_lt in E. cbn [fmt.decimal].
      rewrite digitChar_code by lia. lia.
    + apply Z.ltb_ge in E.
      rewrite formatBits_acc, decimal_app, IH.
      * cbn [fmt.decimal].
        rewrite digitChar_code by (apply Z.mod_pos_bound; lia).
        pose proof (Z.mod_pos_bound u 10 ltac:(lia)).
        pose proof (Z.div_mod u 10 ltac:(lia)). lia.
      * rewrite Nat2Z.inj_succ, Z.pow_succ_r in Hu by lia.
        split; [apply Z.div_pos; lia|].
        apply Z.div_lt_upper_bound; lia.
Qed.

Lemma Itoa_nonneg n :
  0 ≤ n →
  Itoa n ≠ "" ∧ allDigits (Itoa n) = true ∧ fmt.decimal 0 (Itoa n) = n.
Proof.
  intros Hn. unfold Itoa. rewrite (proj2 (Z.ltb_ge _ _) Hn).
  split; [apply formatBits_nonempty|]. split; [by apply formatBits_allDigits|].
  apply decimal_formatBits. split; [done|].
  rewrite Nat2Z.inj_succ, Z2Nat.id by apply Z.log2_nonneg.
  destruct (Z.eq_dec n 0) as [->|]; [done|].
  apply Z.log2_spec. lia.
Qed.

Lemma digits_app ds rest :
  allDigits ds = true → endsNumber rest = true →
  fmt.digits (ds +:+ rest) = (ds, rest).
Proof.
  intros Hds Hrest. induction ds as [|c ds IH].
  - destruct rest as [|c rest]; [done|]. simpl in *.
    by destruct (fmt.isDigit c).
  - rewrite append_cons. cbn [fmt.digits allDigits] in *.
    apply andb_true_iff in Hds as [-> Hds]. by rewrite IH.
Qed.

Lemma readSpace_digit c s : fmt.isDigit c = true → fmt.readSpace (String c s) = None.
Proof.
  unfold fmt.isDigit. intros [H1%Nat.leb_le H2%Nat.leb_le]%andb_true_iff.
  unfold fmt.readSpace, fmt.byte.
  set (n := nat_of_ascii c) in *.
  rewrite (proj2 (Nat.eqb_neq n 10)) by lia.
  rewrite (proj2 (Nat.leb_gt n 13)) by lia.
  rewrite (proj2 (Nat.eqb_neq n 32)) by lia.
  rewrite andb_false_r. cbn [orb].
  rewrite (proj2 (Nat.eqb_neq n 194)) by lia.
  rewrite (proj2 (Nat.eqb_neq n 225)) by lia.
  rewrite (proj2 (Nat.eqb_neq n 226)) by lia.
  rewrite (proj2 (Nat.eqb_neq n 227)) by lia.
  destruct s as [|c2 [|c3 s]]; done.
Qed.

Lemma isDigit_not_sign c :
  fmt.isDigit c = true → Ascii.eqb c "+" = false ∧ Ascii.eqb c "-" = false.
Proof.
  intros H. split; apply Ascii.eqb_neq; intros ->; done.
Qed.

(** Scanning a number that [Itoa] printed gives the number back. *)
Lemma scanInt_Itoa n rest :
  0 ≤ n < 2 ^ 63 → endsNumber rest = true →
  fmt.scanInt (Itoa n +:+ rest) = inr (n, rest).
Proof.
  intros [Hn Hmax] Hrest.
  destruct (Itoa_nonneg n Hn) as (Hne & Hds & Hval).
  destruct (Itoa n) as [|c ds] eqn:E; [done|].
  pose proof Hds as Hds'. cbn [allDigits] in Hds'.
  apply andb_true_iff in Hds' as [Hc _].
  unfold fmt.scanInt, fmt.SkipSpace.
  change (String c ds +:+ rest) with (String c (ds +:+ rest)).
  cbn [String.length fmt.skipBlanks].
  rewrite (readSpace_digit c _ Hc). cbv iota.
  rewrite (readSpace_digit c _ Hc).
  destruct (isDigit_not_sign c Hc) as [-> ->].
  change (String c (ds +:+ rest)) with (String c ds +:+ rest).
  rewrite (digits_app _ _ Hds Hrest).
  unfold fmt.ParseInt. rewrite Hval. cbn [negb andb].
  change (Z.shiftl 1 63) with (2 ^ 63).
  by rewrite (proj2 (Z.leb_gt _ _) Hmax).
Qed.

Lemma skipBlanks_digit fuel c s :
  fmt.isDigit c = true → fmt.skipBlanks fuel (String c s) = String c s.
Proof.
  intros Hc. destruct fuel as [|fuel]; [done|].
  cbn [fmt.skipBlanks]. by rewrite (readSpace_digit c s Hc).
Qed.

(** The literal part of the format, on the same text. *)
Lemma doScanf_literal input :
  fmt.doScanf " arg(s), received %d" 1 (" arg(s), received " +:+ input)
  = fmt.doScanf "%d" 1 (fmt.skipBlanks (String.length input) input).
Proof. reflexivity. Qed.

Lemma Sscanf2_counts need got :
  0 ≤ need < 2 ^ 63 → 0 ≤ got < 2 ^ 63 →
  fmt.Sscanf2 (counts need got) "%d arg(s), received %d" = (need, got, None).
Proof.
  intros Hneed Hgot. unfold fmt.Sscanf2, counts.
  change (fmt.doScanf "%d arg(s), received %d" 2 ?input)
    with (match fmt.scanInt input with
          | inl e => ([], Some e)
          | inr (n, rest) =>
              let '(ns, err) := fmt.doScanf " arg(s), received %d" 1 rest in
              (n :: ns, err)
          end).
  rewrite (scanInt_Itoa need (" arg(s), received " +:+ Itoa got) Hneed eq_refl).
  rewrite doScanf_literal.
  destruct (Itoa_nonneg got (proj1 Hgot)) as (Hne & Hds & _).
  destruct (Itoa got) as [|c ds] eqn:E; [done|].
  cbn [allDigits] in Hds. apply andb_true_iff in Hds as [Hc _].
  rewrite (skipBlanks_digit _ c ds Hc), <- E.
  change (fmt.doScanf "%d" 1 ?input)
    with (match fmt.scanInt input with
          | inl e => ([], Some e)
          | inr (n, rest) =>
              let '(ns, err) := fmt.doScanf "" 0 rest in (n :: ns, err)
          end).
  rewrite <- (append_nil (Itoa got)).
  by rewrite (scanInt_Itoa got "" Hgot eq_refl).
Qed.

Lemma noByte_app c s1 s2 : noByte c (s1 +:+ s2) = noByte c s1 && noByte c s2.
Proof.
  induction s1 as [|c' s1 IH]; [done|].
  rewrite append_cons. cbn [noByte]. by rewrite IH, andb_assoc.
Qed.

Lemma allDigits_noByte c s :
  fmt.isDigit c = false → allDigits s = true → noByte c s = true.
Proof.
  intros Hc. induction s as [|c' s IH]; [done|]. cbn [allDigits noByte].
  intros [Hc' Hs]%andb_true_iff. rewrite (IH Hs), andb_true_r.
  apply negb_true_iff, Ascii.eqb_neq. intros ->. congruence.
Qed.

Lemma HasPrefix_other_byte c c' s pre :
  Ascii.eqb c c' = false → strings.HasPrefix (String c' s) (String c pre) = false.
Proof.
  intros H%Ascii.eqb_neq. unfold strings.HasPrefix. cbn [String.prefix].
  by destruct (ascii_dec c c').
Qed.

(** Nothing is replaced in a text without the first byte of [old]. *)
Lemma replaceFrom_app c old new s1 s2 :
  noByte c s1 = true →
  strings.replaceFrom (String c old) new 0 (s1 +:+ s2)
  = s1 +:+ strings.replaceFrom (String c old) new 0 s2.
Proof.
  induction s1 as [|c' s1 IH]; [done|]. cbn [noByte].
  intros [Hc%negb_true_iff Hs]%andb_true_iff.
  rewrite !append_cons. cbn [strings.replaceFrom].
  by rewrite (HasPrefix_other_byte _ _ _ _ Hc), (IH Hs).
Qed.

Lemma replaceFrom_noByte c old new s :
  noByte c s = true → strings.replaceFrom (String c old) new 0 s = s.
Proof.
  intros H. rewrite <- (append_nil s) at 1.
  by rewrite (replaceFrom_app _ _ _ _ _ H), append_nil.
Qed.

Lemma Itoa_noByte c n : 0 ≤ n → fmt.isDigit c = false → noByte c (Itoa n) = true.
Proof.
  intros Hn Hc. apply (allDigits_noByte _ _ Hc). by apply Itoa_nonneg.
Qed.

(** The counts are recovered from the two phrasings of cobra. *)
Lemma recovered_ExactArgs n got :
  0 ≤ n < 2 ^ 63 → 0 ≤ got < 2 ^ 63 →
  recovered ("accepts " +:+ Itoa n +:+ " arg(s), received " +:+ Itoa got)
  = (n, got, None).
Proof.
  intros Hn Hgot. unfold recovered.
  change (strings.TrimPrefix ("accepts " +:+ ?s) "requires at least ")
    with ("accepts " +:+ s).
  unfold strings.ReplaceAll.
  rewrite (replaceFrom_noByte "o" "nly received" "received").
  - unfold strings.TrimPrefix.
    rewrite (HasPrefix_append "accepts "), (drop_append "accepts ").
    by apply Sscanf2_counts.
  - rewrite !noByte_app, !Itoa_noByte by (done || lia). done.
Qed.

Lemma TrimPrefix_digit c s pre :
  fmt.isDigit c = true → fmt.isDigit pre = false →
  ∀ rest, strings.TrimPrefix (String c s) (String pre rest) = String c s.
Proof.
  intros Hc Hpre rest. unfold strings.TrimPrefix.
  rewrite HasPrefix_other_byte; [done|].
  apply Ascii.eqb_neq. intros ->. congruence.
Qed.

Lemma recovered_MinimumNArgs n got :
  0 ≤ n < 2 ^ 63 → 0 ≤ got < 2 ^ 63 →
  recovered ("requires at least " +:+ Itoa n +:+ " arg(s), only received "
             +:+ Itoa got)
  = (n, got, None).
Proof.
  intros Hn Hgot. unfold recovered.
  unfold strings.TrimPrefix at 2.
  rewrite (HasPrefix_append "requires at least "),
          (drop_append "requires at least ").
  change (Itoa n +:+ " arg(s), only received " +:+ Itoa got)
    with (Itoa n +:+ " arg(s), " +:+ "only received " +:+ Itoa got).
  unfold strings.ReplaceAll.
  rewrite <- (append_assoc (Itoa n) " arg(s), ").
  rewrite (replaceFrom_app "o" "nly received" "received")
    by (rewrite noByte_app, Itoa_noByte by (done || lia); done).
  change (strings.replaceFrom "only received" "received" 0
            ("only received " +:+ ?s))
    with ("received " +:+ strings.replaceFrom "only received" "received" 0 s).
  rewrite (replaceFrom_noByte "o" "nly received" "received")
    by (apply Itoa_noByte; (done || lia)).
  rewrite append_assoc.
  change (" arg(s), " +:+ "received " +:+ Itoa got)
    with (" arg(s), received " +:+ Itoa got).
  destruct (Itoa_nonneg n (proj1 Hn)) as (Hne & Hds & _).
  destruct (Itoa n) as [|c ds] eqn:E; [done|].
  cbn [allDigits] in Hds. apply andb_true_iff in Hds as [Hc _].
  rewrite append_cons, (TrimPrefix_digit c _ "a" Hc eq_refl).
  rewrite <- append_cons, <- E.
  by apply Sscanf2_counts.
Qed.

(** A minimum arity never closes the gate: short of the minimum the
    counts are recovered with [need > got], from the minimum on the
    validator accepts. *)
Lemma MinimumNArgs_gate n args toComplete :
  0 ≤ n < 2 ^ 63 →
  result (validCurrentCmdLine {| Args := Some (MinimumNArgs n) |} args toComplete)
  = Returns true.
Proof.
  intros Hn. rewrite validCurrentCmdLine_result. cbn [Args]. unfold MinimumNArgs.
  destruct (Z.of_nat (length (args ++ [toComplete])) <? n) eqn:E; [|done].
  apply Z.ltb_lt in E.
  rewrite recovered_MinimumNArgs by lia.
  by rewrite (proj2 (Z.geb_le _ _)) by lia.
Qed.

(** An exact arity: the gate returns true up to the arity, and panics on
    a line with more tokens. *)
Lemma ExactArgs_gate n args toComplete :
  0 ≤ n < 2 ^ 63 → Z.of_nat (length args) + 1 < 2 ^ 63 →
  result (validCurrentCmdLine {| Args := Some (ExactArgs n) |} args toComplete)
  = if Z.of_nat (length args) + 1 <=? n then Returns true
    else Panics NilDereference.
Proof.
  intros Hn Hargs. rewrite validCurrentCmdLine_result. cbn [Args]. unfold ExactArgs.
  assert (Z.of_nat (length (args ++ [toComplete])) = Z.of_nat (length args) + 1)
    as -> by (rewrite length_app; simpl; lia).
  destruct (Z.of_nat (length args) + 1 =? n) eqn:E; cbn [negb].
  - apply Z.eqb_eq in E. by rewrite (proj2 (Z.leb_le _ _)) by lia.
  - apply Z.eqb_neq in E. rewrite recovered_ExactArgs by lia.
    destruct (Z.of_nat (length args) + 1 <=? n) eqn:E'.
    + apply Z.leb_le in E'. by rewrite (proj2 (Z.geb_le _ _)) by lia.
    + apply Z.leb_gt in E'.
      destruct (n >=? Z.of_nat (length args) + 1) eqn:E''; [|done].
      apply Z.geb_le in E''. lia.
Qed.

(** C1 (code defect).  The gate returns true when the validator accepts
    and when counts are recovered with [need >= got], false when no
    counts are recovered; but when counts are recovered with
    [need < got] it does not return false: it panics.  So it is for a
    command that accepts exactly two arguments, with two arguments on
    the line. *)
Theorem arity_gate_panics_when_overfull :
  (∀ validate args toComplete,
     result (validCurrentCmdLine {| Args := Some validate |} args toComplete) =
     match validate (args ++ [toComplete]) with
     | None => Returns true
     | Some msg =>
         match recovered msg with
         | (need, got, None) =>
             if need >=? got then Returns true else Panics NilDereference
         | (_, _, Some _) => Returns false
         end
     end) ∧
  ExactArgs 2 (["a"; "b"] ++ ["x"]) = Some "accepts 2 arg(s), received 3" ∧
  recovered "accepts 2 arg(s), received 3" = (2, 3, None) ∧
  validCurrentCmdLine exact2 ["a"; "b"] "x" =
    Run [CompDebugln "2 arg(s), received 3"] (Panics NilDereference).
Proof.
  split; [|by vm_compute].
  intros. by rewrite validCurrentCmdLine_result.
Qed.

(** C6, as stated, fails: with two arguments on the line, the validator
    of a command that requires at least two arguments accepts the three
    tokens, and the gate returns true. *)
Lemma minimum2_two_args_not_rejected :
  result (validCurrentCmdLine minimum2 ["a"; "b"] "x") = Returns true ∧
  result (validCurrentCmdLine minimum2 ["a"; "b"] "x") ≠ Returns false.
Proof. by vm_compute. Qed.

(** C6 (amended).  For a command that requires at least two arguments:
    with no argument on the line and any partial token, the gate returns
    true (need = 2, got = 1); with two arguments on the line and any
    partial token, it returns true as well, since the validator
    accepts. *)
Theorem minimum2_gate :
  ∀ toComplete,
    validCurrentCmdLine minimum2 [] toComplete =
      Run [CompDebugln "2 arg(s), received 1"] (Returns true) ∧
    ∀ a b, validCurrentCmdLine minimum2 [a; b] toComplete = mret true.
Proof. intros toComplete. split; [|intros a b]; by vm_compute. Qed.

(** ** The key-value combinator *)

Lemma drop_last c s :
  ∃ c', strings.drop (len s) (String c s) = String c' EmptyString
        ∧ lastByte (String c s) = Some c'.
Proof.
  revert c. induction s as [|d s IH]; intros c.
  - by exists c.
  - destruct (IH d) as (c' & H1 & H2). exists c'. split; [exact H1|].
    simpl in *. exact H2.
Qed.

(** [key[len(key)-1:]] does not panic on a key that is not empty, and is
    the last byte of the key. *)
Lemma sliceLast_nonempty key :
  key ≠ "" →
  ∃ c, sliceLast key = mret (String c EmptyString) ∧ lastByte key = Some c.
Proof.
  destruct key as [|c s]; [done|]. intros _.
  destruct (drop_last c s) as (c' & H1 & H2). exists c'. split; [|done].
  unfold sliceLast, sliceFrom. cbn [String.length].
  rewrite (proj2 (Nat.leb_le _ _)) by lia. by rewrite H1.
Qed.

Lemma latKey_separator c :
  String.eqb (String c EmptyString) "=" || String.eqb (String c EmptyString) ":"
  = Ascii.eqb c "=" || Ascii.eqb c ":".
Proof.
  cbn [String.eqb].
  by destruct (Ascii.eqb c "="), (Ascii.eqb c ":").
Qed.

(** The loop on the empty token, over keys that are not empty: no key is
    a prefix of the token, every key has the token as a prefix. *)
Lemma rangeKeyValues_empty_token entries suggestions directive :
  Forall (λ e, e.1 ≠ "") entries →
  rangeKeyValues "" entries suggestions directive =
  mret (suggestions ++ entries.*1,
        if existsb endsInSeparator entries.*1 then noSpaceNoFileComp
        else directive).
Proof.
  intros Hne. revert suggestions directive.
  induction Hne as [|[key f] entries Hkey _ IH]; intros suggestions directive.
  - simpl. by rewrite app_nil_r.
  - cbn [rangeKeyValues]. simpl in Hkey.
    rewrite (HasPrefix_of_empty key Hkey), HasPrefix_empty.
    destruct (sliceLast_nonempty key Hkey) as (c & -> & Hlast).
    rewrite mret_bind, IH, latKey_separator.
    cbn [fmap list_fmap fst existsb]. rewrite <- app_assoc. cbn [app].
    unfold endsInSeparator at 2. rewrite Hlast.
    fold noSpaceNoFileComp.
    destruct (Ascii.eqb c "=" || Ascii.eqb c ":"); [|done].
    by destruct (existsb endsInSeparator entries.*1).
Qed.

Lemma map_to_list_keys {V} (k : gmap string V) :
  (map_to_list k).*1 ≡ₚ elements (dom k).
Proof.
  apply NoDup_Permutation.
  - apply NoDup_fst_map_to_list.
  - apply NoDup_elements.
  - intros key. rewrite elem_of_elements, elem_of_dom, list_elem_of_fmap.
    split.
    + intros ([key' v] & -> & Hin%elem_of_map_to_list). by exists v.
    + intros [v Hv]. exists (key, v). by rewrite elem_of_map_to_list.
Qed.

Section KeyValues.

Variable mapRange : ∀ V : Type, gmap string V → list (string * V).
Hypothesis mapRange_perm : ∀ V (m : gmap string V), mapRange V m ≡ₚ map_to_list m.

Lemma mapRange_keys {V} (k : gmap string V) :
  (mapRange V k).*1 ≡ₚ elements (dom k).
Proof. by rewrite mapRange_perm, map_to_list_keys. Qed.

Lemma elem_of_mapRange {V} (k : gmap string V) key v :
  (key, v) ∈ mapRange V k ↔ k !! key = Some v.
Proof. by rewrite mapRange_perm, elem_of_map_to_list. Qed.

(** C2.  On the empty token and a grammar whose keys are not empty,
    [completeKeyValues] returns the declared keys, each one once, and a
    directive that has NoFileComp set, and NoSpace set if and only if
    some key ends in ['='] or [':']. *)
Theorem completeKeyValues_empty_token (k : keyValueCompletion) :
  (∀ key, key ∈ dom k → key ≠ "") →
  ∃ suggestions directive,
    completeKeyValues mapRange "" k = mret (suggestions, directive)
    ∧ suggestions ≡ₚ elements (dom k)
    ∧ (hasFlag directive ShellCompDirectiveNoSpace = true
       ↔ ∃ key, key ∈ dom k ∧ endsInSeparator key = true)
    ∧ hasFlag directive ShellCompDirectiveNoFileComp = true
    ∧ hasFlag directive ShellCompDirectiveError = false.
Proof.
  intros Hne. unfold completeKeyValues.
  rewrite rangeKeyValues_empty_token.
  2:{ apply Forall_forall. intros [key f] Hin. simpl. apply Hne.
      apply elem_of_mapRange in Hin. apply elem_of_dom. by exists f. }
  eexists _, _. split; [done|]. rewrite app_nil_l.
  split; [apply mapRange_keys|].
  assert (existsb endsInSeparator (mapRange _ k).*1 = true
          ↔ ∃ key, key ∈ dom k ∧ endsInSeparator key = true) as Hex.
  { rewrite existsb_exists. setoid_rewrite <- list_elem_of_In.
    setoid_rewrite mapRange_keys. by setoid_rewrite elem_of_elements. }
  destruct (existsb endsInSeparator (mapRange _ k).*1).
  - repeat split; try done. intros _. by apply Hex.
  - repeat split; try done. intros H. apply Hex in H. done.
Qed.

End KeyValues.

(** The entries visited before the first key that the token begins with
    leave no mark in what a delegation returns. *)
Lemma rangeKeyValues_skip toComplete pre entries suggestions directive :
  Forall (λ e, strings.HasPrefix toComplete e.1 = false) pre →
  ∃ suggestions' directive',
    rangeKeyValues toComplete (pre ++ entries) suggestions directive =
    rangeKeyValues toComplete entries suggestions' directive'.
Proof.
  intros Hpre. revert suggestions directive.
  induction Hpre as [|[key f] pre Hkey _ IH]; intros suggestions directive.
  - by eexists _, _.
  - cbn [app rangeKeyValues]. simpl in Hkey. rewrite Hkey.
    destruct (strings.HasPrefix key toComplete); [|apply IH].
    assert (key ≠ "") as Hne.
    { intros ->. by rewrite HasPrefix_empty in Hkey. }
    destruct (sliceLast_nonempty key Hne) as (c & -> & _).
    rewrite mret_bind. apply IH.
Qed.

Lemma prefixSlice_strip key (nested : list string) :
  strings.drop (len key) <$> prefixSlice key nested = nested.
Proof.
  unfold prefixSlice. rewrite <- list_fmap_compose.
  rewrite <- (list_fmap_id nested) at 2.
  apply list_fmap_ext. intros _ s _. simpl. apply drop_append.
Qed.

Section Delegation.

Variable mapRange : ∀ V : Type, gmap string V → list (string * V).

(** The loop that reaches the key [key], a prefix of the token with the
    completer [f], before any other key that the token begins with. *)
Lemma completeKeyValues_delegates (k : keyValueCompletion)
    (toComplete key : string) (f : string → M completion)
    (before after : list (string * option (string → M completion))) :
  mapRange _ k = before ++ (key, Some f) :: after →
  Forall (λ e, strings.HasPrefix toComplete e.1 = false) before →
  strings.HasPrefix toComplete key = true →
  completeKeyValues mapRange toComplete k =
    ('(nested, dir) ← f (strings.drop (len key) toComplete);
     mret (prefixSlice key nested, dir)).
Proof.
  intros Horder Hbefore Hkey.
  unfold completeKeyValues. rewrite Horder.
  destruct (rangeKeyValues_skip toComplete before ((key, Some f) :: after)
              [] ShellCompDirectiveNoFileComp Hbefore) as (s' & d' & ->).
  cbn [rangeKeyValues]. by rewrite Hkey, (sliceFrom_prefix _ _ Hkey), mret_bind.
Qed.

(** C5.  When the loop of [completeKeyValues] takes the delegation branch
    at the key [key], which is the first key in the order of the loop
    that the token begins with, and [key] has the nested completer [f]:
    the call is the call of [f] on the token without [key], with [key]
    put back in front of every suggestion and the directive of [f]
    unchanged; stripping [key] from the suggestions gives back what [f]
    returned. *)
Theorem completeKeyValues_delegation (k : keyValueCompletion)
    (toComplete key : string) (f : string → M completion)
    (before after : list (string * option (string → M completion))) :
  mapRange _ k = before ++ (key, Some f) :: after →
  Forall (λ e, strings.HasPrefix toComplete e.1 = false) before →
  strings.HasPrefix toComplete key = true →
  completeKeyValues mapRange toComplete k =
    ('(nested, dir) ← f (strings.drop (len key) toComplete);
     mret (prefixSlice key nested, dir))
  ∧ ∀ (nested : list string) dir,
      result (f (strings.drop (len key) toComplete)) = Returns (nested, dir) →
      ∃ suggestions : list string,
        result (completeKeyValues mapRange toComplete k) = Returns (suggestions, dir)
        ∧ suggestions = (λ s, key +:+ s) <$> nested
        ∧ strings.drop (len key) <$> suggestions = nested
        ∧ Forall (λ s, strings.HasPrefix s key = true) suggestions.
Proof.
  intros Horder Hbefore Hkey.
  pose proof (completeKeyValues_delegates k toComplete key f before after
                Horder Hbefore Hkey) as Heq.
  split; [exact Heq|].
  intros nested dir Hf. exists ((λ s, key +:+ s) <$> nested).
  split; [|split; [done|split]].
  - rewrite Heq. by rewrite (bind_returns _ _ _ Hf).
  - apply prefixSlice_strip.
  - apply Forall_fmap, Forall_forall. intros s _. apply HasPrefix_append.
Qed.

End Delegation.

(** [listRange] is an order of the loop. *)
Lemma listRange_perm V (m : gmap string V) : listRange V m ≡ₚ map_to_list m.
Proof. reflexivity. Defined.

(** C5 on the grammar [statusGrammar] and the token ["status="]. *)
Lemma completeKeyValues_delegation_witness :
  listRange _ statusGrammar = [] ++ [("status=", Some statusCompleter)]
  ∧ result (completeKeyValues listRange "status=" statusGrammar)
    = Returns (["status=running"; "status=paused"], ShellCompDirectiveNoFileComp).
Proof.
  assert (listRange _ statusGrammar
          = [] ++ [("status=", Some statusCompleter)]) as Horder.
  { apply map_to_list_singleton. }
  split; [exact Horder|].
  destruct (completeKeyValues_delegation listRange statusGrammar
              "status=" "status=" statusCompleter [] [] Horder) as [_ H].
  - constructor.
  - reflexivity.
  - destruct (H ["running"; "paused"] ShellCompDirectiveNoFileComp eq_refl)
      as (suggestions & Hres & -> & _).
    exact Hres.
Defined.

(** The keys of [filterGrammar] are not empty. *)
Lemma filterGrammar_keys : ∀ key, key ∈ dom filterGrammar → key ≠ "".
Proof.
  intros key Hin ->. apply elem_of_dom in Hin as [v Hv].
  vm_compute in Hv. discriminate.
Defined.

(** C2 on the grammar [filterGrammar]. *)
Lemma completeKeyValues_empty_token_witness :
  (∀ key, key ∈ dom filterGrammar → key ≠ "")
  ∧ ∃ suggestions directive,
      completeKeyValues listRange "" filterGrammar = mret (suggestions, directive)
      ∧ suggestions ≡ₚ elements (dom filterGrammar)
      ∧ (hasFlag directive ShellCompDirectiveNoSpace = true
         ↔ ∃ key, key ∈ dom filterGrammar ∧ endsInSeparator key = true)
      ∧ hasFlag directive ShellCompDirectiveNoFileComp = true
      ∧ hasFlag directive ShellCompDirectiveError = false.
Proof.
  split; [exact filterGrammar_keys|].
  exact (completeKeyValues_empty_token listRange listRange_perm filterGrammar
           filterGrammar_keys).
Defined.

(** ** The entity query adapters *)

(** A loop whose steps append to the suggestions. *)
Lemma forRange_append {A} (body : list string → A → M (list string))
    (g : A → list string) suggestions l :
  (∀ suggestions x, x ∈ l → body suggestions x = mret (suggestions ++ g x)) →
  forRange body suggestions l = mret (suggestions ++ flat_map g l).
Proof.
  revert suggestions. induction l as [|x l IH]; intros suggestions Hstep; simpl.
  - by rewrite app_nil_r.
  - rewrite Hstep by apply list_elem_of_here. rewrite mret_bind, IH.
    + by rewrite app_assoc.
    + intros. apply Hstep. by apply list_elem_of_further.
Qed.

Lemma sliceTo_short s n : (len s < n)%nat → sliceTo s n = throw SliceBoundsOutOfRange.
Proof. intros H. unfold sliceTo. by rewrite (proj2 (Nat.leb_gt _ _) H). Qed.

Lemma sliceTo_long s n : (n ≤ len s)%nat → sliceTo s n = mret (strings.take n s).
Proof. intros H. unfold sliceTo. by rewrite (proj2 (Nat.leb_le _ _) H). Qed.

Lemma index_head {A} (a : list A) : a ≠ [] → ∃ x, a !! 0%nat = Some x ∧ index a 0 = mret x.
Proof. destruct a as [|x a]; [done|]. intros _. by exists x. Qed.

(** The trace of a step made of tests, slices and returns. *)
Ltac silent_steps :=
  repeat (first
    [ done
    | rewrite mret_bind
    | match goal with
      | |- context [if ?b then _ else _] => destruct b
      | |- context [match ?o with Some _ => _ | None => _ end] => destruct o
      end ]).

(** *** Containers *)

Lemma containerSuggestions_safe toComplete cType suggestions c :
  containerSafe toComplete cType c →
  containerSuggestions toComplete cType suggestions c =
  mret (suggestions ++ (containerIDSuggestion toComplete cType c
                        ++ containerNameSuggestion toComplete cType c)).
Proof.
  intros [Hid Hname].
  unfold containerSuggestions, containerIDSuggestion, containerNameSuggestion.
  fold (idsEnabled toComplete cType).
  fold (idMatches toComplete cType (ListContainer.ID c)).
  destruct (idMatches toComplete cType (ListContainer.ID c)).
  - rewrite (sliceTo_long _ _ (Hid eq_refl)), !mret_bind.
    destruct (bool_decide (cType = completeIDs)) eqn:E; simpl.
    + destruct (ListContainer.Names c !! 0%nat); by rewrite ?app_nil_r.
    + apply bool_decide_eq_false in E.
      destruct (index_head _ (Hname E)) as (name & -> & ->).
      rewrite mret_bind.
      destruct (strings.HasPrefix name toComplete);
        by rewrite <- ?app_assoc, ?app_nil_r.
  - rewrite mret_bind.
    destruct (bool_decide (cType = completeIDs)) eqn:E; simpl.
    + destruct (ListContainer.Names c !! 0%nat); by rewrite ?app_nil_r.
    + apply bool_decide_eq_false in E.
      destruct (index_head _ (Hname E)) as (name & -> & ->).
      rewrite mret_bind.
      destruct (strings.HasPrefix name toComplete);
        by rewrite ?app_nil_r.
Qed.

Lemma containerSuggestions_short_id toComplete cType suggestions c :
  idMatches toComplete cType (ListContainer.ID c) = true →
  (len (ListContainer.ID c) < 12)%nat →
  containerSuggestions toComplete cType suggestions c =
  throw SliceBoundsOutOfRange.
Proof.
  intros Hid Hlen. unfold containerSuggestions.
  fold (idsEnabled toComplete cType).
  fold (idMatches toComplete cType (ListContainer.ID c)).
  by rewrite Hid, (sliceTo_short _ _ Hlen).
Qed.

Lemma containerSuggestions_trace toComplete cType suggestions c :
  trace (containerSuggestions toComplete cType suggestions c) = [].
Proof.
  unfold containerSuggestions, sliceTo, index. silent_steps.
Qed.

(** *** Pods *)

Lemma podSuggestions_safe toComplete cType suggestions pod :
  podSafe toComplete cType pod →
  podSuggestions toComplete cType suggestions pod =
  mret (suggestions ++ (podIDSuggestion toComplete cType pod
                        ++ podNameSuggestion toComplete cType pod)).
Proof.
  intros Hid.
  unfold podSuggestions, podIDSuggestion, podNameSuggestion.
  fold (idsEnabled toComplete cType).
  fold (idMatches toComplete cType (ListPodsReport.Id pod)).
  unfold podSafe in Hid.
  destruct (idMatches toComplete cType (ListPodsReport.Id pod)).
  - rewrite (sliceTo_long _ _ (Hid eq_refl)), !mret_bind.
    destruct (negb _ && _); by rewrite <- ?app_assoc, ?app_nil_r.
  - rewrite mret_bind. destruct (negb _ && _); by rewrite ?app_nil_r.
Qed.

Lemma podSuggestions_short_id toComplete cType suggestions pod :
  idMatches toComplete cType (ListPodsReport.Id pod) = true →
  (len (ListPodsReport.Id pod) < 12)%nat →
  podSuggestions toComplete cType suggestions pod = throw SliceBoundsOutOfRange.
Proof.
  intros Hid Hlen. unfold podSuggestions.
  fold (idsEnabled toComplete cType).
  fold (idMatches toComplete cType (ListPodsReport.Id pod)).
  by rewrite Hid, (sliceTo_short _ _ Hlen).
Qed.

Lemma podSuggestions_trace toComplete cType suggestions pod :
  trace (podSuggestions toComplete cType suggestions pod) = [].
Proof. unfold podSuggestions, sliceTo. silent_steps. Qed.

(** *** Images *)

Lemma SplitN2_head s sep :
  index (strings.SplitN s sep 2) 0 = mret (beforeFirst sep s).
Proof.
  unfold strings.SplitN, beforeFirst. cbn [strings.genSplit].
  by destruct (strings.Index s sep).
Qed.

Lemma suffixes_drop {A} (l : list A) :
  (λ i, drop i l) <$> seq 0 (length l) = suffixes l.
Proof.
  induction l as [|x l IH]; [done|].
  cbn [length seq fmap list_fmap suffixes]. f_equal.
  rewrite <- IH, <- seq_shift, <- list_fmap_compose. done.
Qed.

Lemma flat_map_fmap {A B C} (f : A → B) (g : B → list C) l :
  flat_map g (f <$> l) = flat_map (λ x, g (f x)) l.
Proof.
  induction l as [|x l IH]; [done|].
  cbn [fmap list_fmap flat_map]. by f_equal.
Qed.

Lemma filter_flat_map {A B} (p : B → bool) (g : A → list B) l :
  List.filter p (flat_map g l) = flat_map (λ x, List.filter p (g x)) l.
Proof.
  induction l as [|x l IH]; [done|]. simpl. by rewrite List.filter_app, IH.
Qed.

(** The loop body over the repo tags never panics: on the empty token it
    adds the repo tag itself; on another token, the candidates that the
    token is a prefix of. *)
Lemma repoTagSuggestions_result toComplete suggestions repo :
  repoTagSuggestions toComplete suggestions repo =
  mret (suggestions ++
        if bool_decide (toComplete = "") then [repo]
        else List.filter (λ s, strings.HasPrefix s toComplete)
                         (repoTagCandidates repo)).
Proof.
  unfold repoTagSuggestions.
  destruct (bool_decide (toComplete = "")) eqn:E.
  - apply bool_decide_eq_true in E as ->. by rewrite HasPrefix_empty.
  - unfold repoTagCandidates.
    rewrite <- suffixes_drop, flat_map_fmap, filter_flat_map.
    apply forRange_append. intros acc i _.
    rewrite SplitN2_head, mret_bind, SplitN2_head, mret_bind.
    fold (withoutTag (strings.Join (drop i (strings.Split repo "/")) "/")).
    cbn [List.filter].
    destruct (strings.HasPrefix (strings.Join _ _) toComplete),
             (strings.HasPrefix (withoutTag _) toComplete);
      by rewrite <- ?app_assoc, ?app_nil_r.
Qed.

(** Where the cut is the trailing tag. *)

Lemma take_app_length (s1 s2 : string) m :
  strings.take (String.length s1 + m) (s1 +:+ s2) = s1 +:+ strings.take m s2.
Proof.
  induction s1 as [|c s1 IH]; [done|].
  rewrite !append_cons. cbn [String.length Nat.add strings.take]. by rewrite IH.
Qed.

Lemma Index_app_noByte c (s1 s2 : string) :
  noByte c s1 = true →
  strings.Index (s1 +:+ s2) (String c "")
  = (λ m, String.length s1 + m)%nat <$> strings.Index s2 (String c "").
Proof.
  induction s1 as [|c' s1 IH].
  - intros _. change ("" +:+ s2) with s2.
    by destruct (strings.Index s2 (String c "")).
  - cbn [noByte]. intros [Hc%negb_true_iff Hs]%andb_true_iff.
    rewrite append_cons. cbn [strings.Index].
    rewrite (HasPrefix_other_byte _ _ _ _ Hc), (IH Hs).
    by destruct (strings.Index s2 (String c "")).
Qed.

(** A separator that is not in [s1] is looked for in what follows. *)
Lemma beforeFirst_app c (s1 s2 : string) :
  noByte c s1 = true →
  beforeFirst (String c "") (s1 +:+ s2) = s1 +:+ beforeFirst (String c "") s2.
Proof.
  intros H. unfold beforeFirst. rewrite (Index_app_noByte _ _ _ H).
  destruct (strings.Index s2 (String c "")) as [m|]; [|done].
  apply take_app_length.
Qed.

Lemma beforeFirst_noByte c (s : string) :
  noByte c s = true → beforeFirst (String c "") s = s.
Proof.
  intros H. rewrite <- (append_nil s) at 1.
  by rewrite (beforeFirst_app _ _ _ H), append_nil.
Qed.

Lemma beforeFirst_here c (s : string) : beforeFirst (String c "") (String c s) = "".
Proof.
  unfold beforeFirst, strings.Index, strings.HasPrefix.
  destruct s; cbn [String.prefix]; by destruct (ascii_dec c c).
Qed.

(** On a reference [dir ++ base], [dir ++ base ++ ":" ++ tag] or
    [dir ++ base ++ "@" ++ digest] whose [dir] and [base] have no [':']
    and no ['@'], the cut of line 154 is [dir ++ base]: the reference
    without its tag or digest. *)
Lemma withoutTag_strips (dir base : string) :
  noByte ":" dir = true → noByte "@" dir = true →
  noByte ":" base = true → noByte "@" base = true →
  withoutTag (dir +:+ base) = dir +:+ base
  ∧ (∀ tag, withoutTag (dir +:+ base +:+ ":" +:+ tag) = dir +:+ base)
  ∧ (∀ digest, withoutTag (dir +:+ base +:+ "@" +:+ digest) = dir +:+ base).
Proof.
  intros Hd1 Hd2 Hb1 Hb2.
  assert (noByte ":" (dir +:+ base) = true) as H1 by (by rewrite noByte_app, Hd1, Hb1).
  assert (noByte "@" (dir +:+ base) = true) as H2 by (by rewrite noByte_app, Hd2, Hb2).
  unfold withoutTag. split; [|split].
  - by rewrite (beforeFirst_noByte ":" _ H1), (beforeFirst_noByte "@" _ H2).
  - intros tag. rewrite <- (append_assoc dir base).
    rewrite (beforeFirst_app ":" _ _ H1).
    change (":" +:+ tag) with (String ":" tag).
    by rewrite beforeFirst_here, append_nil, (beforeFirst_noByte "@" _ H2).
  - intros digest. rewrite <- (append_assoc dir base).
    rewrite (beforeFirst_app ":" _ _ H1).
    rewrite (beforeFirst_app ":" "@" digest eq_refl).
    rewrite (beforeFirst_app "@" _ _ H2).
    change ("@" +:+ ?x) with (String "@" x).
    by rewrite beforeFirst_here, append_nil.
Qed.

Lemma imageSuggestions_safe toComplete suggestions image :
  imageSafe toComplete image →
  imageSuggestions toComplete suggestions image =
  mret (suggestions ++ (imageIDSuggestion toComplete image
                        ++ imageTagSuggestions toComplete image)).
Proof.
  intros Hid. unfold imageSuggestions, imageIDSuggestion, imageTagSuggestions.
  fold (imageIDMatches toComplete (ImageSummary.ID image)).
  unfold imageSafe in Hid.
  destruct (imageIDMatches toComplete (ImageSummary.ID image)).
  - rewrite (sliceTo_long _ _ (Hid eq_refl)), !mret_bind.
    rewrite (forRange_append _ _ _ _ (λ acc repo _, repoTagSuggestions_result _ acc repo)).
    by rewrite <- app_assoc.
  - rewrite mret_bind.
    by rewrite (forRange_append _ _ _ _ (λ acc repo _, repoTagSuggestions_result _ acc repo)).
Qed.

Lemma imageSuggestions_short_id toComplete suggestions image :
  imageIDMatches toComplete (ImageSummary.ID image) = true →
  (len (ImageSummary.ID image) < 12)%nat →
  imageSuggestions toComplete suggestions image = throw SliceBoundsOutOfRange.
Proof.
  intros Hid Hlen. unfold imageSuggestions.
  fold (imageIDMatches toComplete (ImageSummary.ID image)).
  by rewrite Hid, (sliceTo_short _ _ Hlen).
Qed.

Lemma imageSuggestions_trace toComplete suggestions image :
  trace (imageSuggestions toComplete suggestions image) = [].
Proof.
  unfold imageSuggestions, sliceTo.
  assert (∀ acc, trace (forRange (repoTagSuggestions toComplete) acc
                                 (ImageSummary.RepoTags image)) = []) as H.
  { intros acc.
    by rewrite (forRange_append _ _ _ _ (λ acc repo _, repoTagSuggestions_result _ acc repo)). }
  destruct (_ && _); [destruct (_ <=? _)%nat|]; rewrite ?mret_bind; try apply H.
  done.
Qed.

(** *** What the adapters do with the answer of the backend *)

Section Adapters.

Variable backend : Backend.

(** A loop that returns makes the adapter return its suggestions with
    NoFileComp; a loop that panics makes the adapter panic. *)
Lemma adapter_ok {R} (q : query) (records : list R)
    (body : list string → R → M (list string)) :
  (∀ suggestions r, trace (body suggestions r) = []) →
  let m : M completion :=
    answer ← ask q (Ok records);
    match answer with
    | Failed err => _ ← emit (CompErrorln err); mret ([], ShellCompDirectiveError)
    | Ok records =>
        suggestions ← forRange body [] records;
        mret (suggestions, ShellCompDirectiveNoFileComp)
    end in
  trace m = [Asked q]
  ∧ result m = match result (forRange body [] records) with
               | Returns suggestions => Returns (suggestions, ShellCompDirectiveNoFileComp)
               | Panics p => Panics p
               end.
Proof.
  intros Htrace m. subst m. unfold ask, mbind, M_bind. simpl.
  rewrite (forRange_trace body [] records) by (intros; apply Htrace).
  destruct (result (forRange body [] records)); by simpl.
Qed.

Lemma getContainers_failed toComplete cType statuses msg :
  ContainerList backend true true (statusFilters statuses) = Failed msg →
  getContainers backend toComplete cType statuses =
  Run [Asked (QContainerList true true (statusFilters statuses)); CompErrorln msg]
      (Returns ([], ShellCompDirectiveError)).
Proof.
  intros H. unfold getContainers. fold (statusFilters statuses). by rewrite H.
Qed.

Lemma getContainers_ok toComplete cType statuses containers :
  ContainerList backend true true (statusFilters statuses) = Ok containers →
  trace (getContainers backend toComplete cType statuses)
  = [Asked (QContainerList true true (statusFilters statuses))]
  ∧ result (getContainers backend toComplete cType statuses)
    = match result (forRange (containerSuggestions toComplete cType) [] containers) with
      | Returns suggestions => Returns (suggestions, ShellCompDirectiveNoFileComp)
      | Panics p => Panics p
      end.
Proof.
  intros H. unfold getContainers. fold (statusFilters statuses). rewrite H.
  apply adapter_ok. apply containerSuggestions_trace.
Qed.

Lemma getPods_failed toComplete cType statuses msg :
  PodPs backend (statusFilters statuses) = Failed msg →
  getPods backend toComplete cType statuses =
  Run [Asked (QPodPs (statusFilters statuses)); CompErrorln msg]
      (Returns ([], ShellCompDirectiveError)).
Proof.
  intros H. unfold getPods. fold (statusFilters statuses). by rewrite H.
Qed.

Lemma getPods_ok toComplete cType statuses pods :
  PodPs backend (statusFilters statuses) = Ok pods →
  trace (getPods backend toComplete cType statuses)
  = [Asked (QPodPs (statusFilters statuses))]
  ∧ result (getPods backend toComplete cType statuses)
    = match result (forRange (podSuggestions toComplete cType) [] pods) with
      | Returns suggestions => Returns (suggestions, ShellCompDirectiveNoFileComp)
      | Panics p => Panics p
      end.
Proof.
  intros H. unfold getPods. fold (statusFilters statuses). rewrite H.
  apply adapter_ok. apply podSuggestions_trace.
Qed.

Lemma getImages_failed toComplete msg :
  ImageList backend = Failed msg →
  getImages backend toComplete =
  Run [Asked QImageList; CompErrorln msg] (Returns ([], ShellCompDirectiveError)).
Proof. intros H. unfold getImages. by rewrite H. Qed.

Lemma getImages_ok toComplete images :
  ImageList backend = Ok images →
  trace (getImages backend toComplete) = [Asked QImageList]
  ∧ result (getImages backend toComplete)
    = match result (forRange (imageSuggestions toComplete) [] images) with
      | Returns suggestions => Returns (suggestions, ShellCompDirectiveNoFileComp)
      | Panics p => Panics p
      end.
Proof.
  intros H. unfold getImages. rewrite H.
  apply adapter_ok. apply imageSuggestions_trace.
Qed.

(** An adapter whose loop steps append and cannot panic. *)
Lemma adapter_total {R} (q : query) (records : list R)
    (body : list string → R → M (list string)) (g : R → list string) :
  (∀ suggestions r, body suggestions r = mret (suggestions ++ g r)) →
  (answer ← ask q (Ok records);
   match answer with
   | Failed err => _ ← emit (CompErrorln err); mret ([], ShellCompDirectiveError)
   | Ok records =>
       suggestions ← forRange body [] records;
       mret (suggestions, ShellCompDirectiveNoFileComp)
   end)
  = Run [Asked q] (Returns (flat_map g records, ShellCompDirectiveNoFileComp)).
Proof.
  intros Hstep. unfold ask, mbind, M_bind. simpl.
  by rewrite (forRange_append body g [] records (λ acc r _, Hstep acc r)).
Qed.

Lemma getVolumes_failed toComplete msg :
  VolumeList backend = Failed msg →
  getVolumes backend toComplete =
  Run [Asked QVolumeList; CompErrorln msg] (Returns ([], ShellCompDirectiveError)).
Proof. intros H. unfold getVolumes. by rewrite H. Qed.

Lemma getVolumes_ok toComplete volumes :
  VolumeList backend = Ok volumes →
  getVolumes backend toComplete =
  Run [Asked QVolumeList]
      (Returns (flat_map (volumeSuggestion toComplete) volumes,
                ShellCompDirectiveNoFileComp)).
Proof.
  intros H. unfold getVolumes. rewrite H. apply adapter_total.
  intros acc v. unfold volumeSuggestion.
  destruct (strings.HasPrefix _ _); by rewrite ?app_nil_r.
Qed.

Lemma getNetworks_failed toComplete msg :
  NetworkList backend = Failed msg →
  getNetworks backend toComplete =
  Run [Asked QNetworkList; CompErrorln msg] (Returns ([], ShellCompDirectiveError)).
Proof. intros H. unfold getNetworks. by rewrite H. Qed.

Lemma getNetworks_ok toComplete networks :
  NetworkList backend = Ok networks →
  getNetworks backend toComplete =
  Run [Asked QNetworkList]
      (Returns (flat_map (networkSuggestion toComplete) networks,
                ShellCompDirectiveNoFileComp)).
Proof.
  intros H. unfold getNetworks. rewrite H. apply adapter_total.
  intros acc n. unfold networkSuggestion.
  destruct (strings.HasPrefix _ _); by rewrite ?app_nil_r.
Qed.

Lemma getRegistries_failed msg :
  GetRegistries backend = Failed msg →
  getRegistries backend =
  Run [Asked QGetRegistries; CompErrorln msg] (Returns ([], ShellCompDirectiveError)).
Proof. intros H. unfold getRegistries. by rewrite H. Qed.

Lemma getRegistries_ok regs :
  GetRegistries backend = Ok regs →
  getRegistries backend =
  Run [Asked QGetRegistries] (Returns (regs, ShellCompDirectiveNoFileComp)).
Proof. intros H. unfold getRegistries. by rewrite H. Qed.

(** The three adapters that slice IDs, on safe records and on a record
    with a short ID. *)
Lemma getContainers_safe toComplete cType statuses containers :
  ContainerList backend true true (statusFilters statuses) = Ok containers →
  Forall (containerSafe toComplete cType) containers →
  getContainers backend toComplete cType statuses =
  Run [Asked (QContainerList true true (statusFilters statuses))]
      (Returns (flat_map (λ c, containerIDSuggestion toComplete cType c
                               ++ containerNameSuggestion toComplete cType c)
                         containers,
                ShellCompDirectiveNoFileComp)).
Proof.
  intros Hq Hsafe. destruct (getContainers_ok toComplete cType _ _ Hq) as [Ht Hr].
  rewrite <- (M_eta (getContainers _ _ _ _)), Ht, Hr.
  rewrite (forRange_append _ (λ c, containerIDSuggestion toComplete cType c
                               ++ containerNameSuggestion toComplete cType c)); [done|].
  intros acc c Hin. apply containerSuggestions_safe.
  by apply (proj1 (Forall_forall _ _) Hsafe).
Qed.

Lemma getContainers_short_id toComplete cType statuses containers c :
  ContainerList backend true true (statusFilters statuses) = Ok containers →
  c ∈ containers →
  idMatches toComplete cType (ListContainer.ID c) = true →
  (len (ListContainer.ID c) < 12)%nat →
  panics (getContainers backend toComplete cType statuses).
Proof.
  intros Hq Hin Hid Hlen. destruct (getContainers_ok toComplete cType _ _ Hq) as [_ Hr].
  destruct (forRange_panics (containerSuggestions toComplete cType) [] containers c Hin)
    as [p Hp].
  - intros acc. exists SliceBoundsOutOfRange.
    by rewrite containerSuggestions_short_id.
  - exists p. by rewrite Hr, Hp.
Qed.

Lemma getPods_safe toComplete cType statuses pods :
  PodPs backend (statusFilters statuses) = Ok pods →
  Forall (podSafe toComplete cType) pods →
  getPods backend toComplete cType statuses =
  Run [Asked (QPodPs (statusFilters statuses))]
      (Returns (flat_map (λ pod, podIDSuggestion toComplete cType pod
                                 ++ podNameSuggestion toComplete cType pod) pods,
                ShellCompDirectiveNoFileComp)).
Proof.
  intros Hq Hsafe. destruct (getPods_ok toComplete cType _ _ Hq) as [Ht Hr].
  rewrite <- (M_eta (getPods _ _ _ _)), Ht, Hr.
  rewrite (forRange_append _ (λ pod, podIDSuggestion toComplete cType pod
                                 ++ podNameSuggestion toComplete cType pod)); [done|].
  intros acc pod Hin. apply podSuggestions_safe.
  by apply (proj1 (Forall_forall _ _) Hsafe).
Qed.

Lemma getPods_short_id toComplete cType statuses pods pod :
  PodPs backend (statusFilters statuses) = Ok pods →
  pod ∈ pods →
  idMatches toComplete cType (ListPodsReport.Id pod) = true →
  (len (ListPodsReport.Id pod) < 12)%nat →
  panics (getPods backend toComplete cType statuses).
Proof.
  intros Hq Hin Hid Hlen. destruct (getPods_ok toComplete cType _ _ Hq) as [_ Hr].
  destruct (forRange_panics (podSuggestions toComplete cType) [] pods pod Hin)
    as [p Hp].
  - intros acc. exists SliceBoundsOutOfRange. by rewrite podSuggestions_short_id.
  - exists p. by rewrite Hr, Hp.
Qed.

Lemma getImages_safe toComplete images :
  ImageList backend = Ok images →
  Forall (imageSafe toComplete) images →
  getImages backend toComplete =
  Run [Asked QImageList]
      (Returns (flat_map (λ image, imageIDSuggestion toComplete image
                                   ++ imageTagSuggestions toComplete image) images,
                ShellCompDirectiveNoFileComp)).
Proof.
  intros Hq Hsafe. destruct (getImages_ok toComplete _ Hq) as [Ht Hr].
  rewrite <- (M_eta (getImages _ _)), Ht, Hr.
  rewrite (forRange_append _ (λ image, imageIDSuggestion toComplete image
                                   ++ imageTagSuggestions toComplete image)); [done|].
  intros acc image Hin. apply imageSuggestions_safe.
  by apply (proj1 (Forall_forall _ _) Hsafe).
Qed.

Lemma getImages_short_id toComplete images image :
  ImageList backend = Ok images →
  image ∈ images →
  imageIDMatches toComplete (ImageSummary.ID image) = true →
  (len (ImageSummary.ID image) < 12)%nat →
  panics (getImages backend toComplete).
Proof.
  intros Hq Hin Hid Hlen. destruct (getImages_ok toComplete _ Hq) as [_ Hr].
  destruct (forRange_panics (imageSuggestions toComplete) [] images image Hin)
    as [p Hp].
  - intros acc. exists SliceBoundsOutOfRange. by rewrite imageSuggestions_short_id.
  - exists p. by rewrite Hr, Hp.
Qed.

(** *** Failure of the backend, and the directive on success *)

Variable mapRange : ∀ V : Type, gmap string V → list (string * V).

(** When the gate lets the completion through, an entry point is what
    follows the gate. *)
Lemma gate_open cmd args toComplete (rejected accepted : M completion) :
  result (validCurrentCmdLine cmd args toComplete) = Returns true →
  result (valid ← validCurrentCmdLine cmd args toComplete;
          if negb valid then rejected else accepted)
  = result accepted.
Proof. intros H. by rewrite (bind_returns _ _ _ H). Qed.

(** The whole run behind an open gate. *)
Lemma gate_passed cmd args toComplete (rejected : list string * Z)
    (accepted : M (list string * Z)) :
  result (validCurrentCmdLine cmd args toComplete) = Returns true →
  (valid ← validCurrentCmdLine cmd args toComplete;
   if negb valid then mret rejected else accepted)
  = Run (trace (validCurrentCmdLine cmd args toComplete) ++ trace accepted)
        (result accepted).
Proof. intros H. unfold mbind, M_bind. by rewrite H. Qed.

(** One call of the query interface, and what follows it. *)
Lemma ask_bind {A B} (q : query) (r : reply A) (f : reply A → M B) :
  ask q r ≫= f = Run (Asked q :: trace (f r)) (result (f r)).
Proof. reflexivity. Qed.

Lemma adapterContract_loop {R} (records : list R)
    (body : list string → R → M (list string)) (q : query) (m : M completion) :
  trace m = [Asked q]
  ∧ result m = match result (forRange body [] records) with
               | Returns suggestions => Returns (suggestions, ShellCompDirectiveNoFileComp)
               | Panics p => Panics p
               end →
  trace m = [Asked q]
  ∧ (panics m ∨ ∃ suggestions, result m = Returns (suggestions, ShellCompDirectiveNoFileComp)).
Proof.
  intros [Ht Hr]. split; [done|]. rewrite Hr. unfold panics. rewrite Hr.
  destruct (result (forRange body [] records)); eauto.
Qed.

(** C8.  Every adapter sends one query.  If the query fails, the adapter
    reports the error and returns an empty list with the directive Error,
    and nothing else; if it succeeds, the directive is NoFileComp: always
    for volumes, networks, registries and connections, and for
    containers, pods and images whenever the loop does not panic, which
    it does not on records that are safe for the token.  The run is
    stated whole for each of the seven: for the connections, whose
    query is made by the entry point itself, it is the run of the gate
    followed by the one query and, on a failure, the one report. *)
Theorem backend_failure_and_success toComplete cType statuses :
  adapterContract (ContainerList backend true true (statusFilters statuses))
                  (QContainerList true true (statusFilters statuses))
                  (getContainers backend toComplete cType statuses)
  ∧ adapterContract (PodPs backend (statusFilters statuses))
                    (QPodPs (statusFilters statuses))
                    (getPods backend toComplete cType statuses)
  ∧ adapterContract (ImageList backend) QImageList (getImages backend toComplete)
  ∧ adapterContractTotal (VolumeList backend) QVolumeList (getVolumes backend toComplete)
  ∧ adapterContractTotal (NetworkList backend) QNetworkList (getNetworks backend toComplete)
  ∧ adapterContractTotal (GetRegistries backend) QGetRegistries (getRegistries backend)
  ∧ (∀ cmd args,
       result (validCurrentCmdLine cmd args toComplete) = Returns true →
       match ReadCustomConfig backend with
       | Failed msg =>
           AutocompleteSystemConnections backend mapRange cmd args toComplete
           = Run (trace (validCurrentCmdLine cmd args toComplete)
                  ++ [Asked QReadCustomConfig; CompErrorln msg])
                 (Returns ([], ShellCompDirectiveError))
       | Ok _ =>
           ∃ suggestions,
             AutocompleteSystemConnections backend mapRange cmd args toComplete
             = Run (trace (validCurrentCmdLine cmd args toComplete)
                    ++ [Asked QReadCustomConfig])
                   (Returns (suggestions, ShellCompDirectiveNoFileComp))
       end)
  ∧ (∀ containers,
       ContainerList backend true true (statusFilters statuses) = Ok containers →
       Forall (containerSafe toComplete cType) containers →
       ∃ suggestions,
         result (getContainers backend toComplete cType statuses)
         = Returns (suggestions, ShellCompDirectiveNoFileComp))
  ∧ (∀ pods,
       PodPs backend (statusFilters statuses) = Ok pods →
       Forall (podSafe toComplete cType) pods →
       ∃ suggestions,
         result (getPods backend toComplete cType statuses)
         = Returns (suggestions, ShellCompDirectiveNoFileComp))
  ∧ (∀ images,
       ImageList backend = Ok images →
       Forall (imageSafe toComplete) images →
       ∃ suggestions,
         result (getImages backend toComplete)
         = Returns (suggestions, ShellCompDirectiveNoFileComp))
  ∧ hasFlag ShellCompDirectiveError ShellCompDirectiveNoFileComp = false
  ∧ hasFlag ShellCompDirectiveError ShellCompDirectiveNoSpace = false.
Proof.
  repeat split.
  - unfold adapterContract.
    destruct (ContainerList _ _ _ _) as [containers|msg] eqn:E.
    + eapply adapterContract_loop, getContainers_ok, E.
    + by apply getContainers_failed.
  - unfold adapterContract.
    destruct (PodPs _ _) as [pods|msg] eqn:E.
    + eapply adapterContract_loop, getPods_ok, E.
    + by apply getPods_failed.
  - unfold adapterContract.
    destruct (ImageList _) as [images|msg] eqn:E.
    + eapply adapterContract_loop, getImages_ok, E.
    + by apply getImages_failed.
  - unfold adapterContractTotal.
    destruct (VolumeList _) as [volumes|msg] eqn:E.
    + eexists. by apply getVolumes_ok.
    + by apply getVolumes_failed.
  - unfold adapterContractTotal.
    destruct (NetworkList _) as [networks|msg] eqn:E.
    + eexists. by apply getNetworks_ok.
    + by apply getNetworks_failed.
  - unfold adapterContractTotal.
    destruct (GetRegistries _) as [regs|msg] eqn:E.
    + eexists. by apply getRegistries_ok.
    + by apply getRegistries_failed.
  - intros cmd args Hgate. unfold AutocompleteSystemConnections.
    rewrite (gate_passed _ _ _ _ _ Hgate).
    destruct (ReadCustomConfig backend) as [destinations|msg]; [|done].
    rewrite ask_bind. cbv beta iota.
    rewrite (forRange_append _ (λ kv, [kv.1 +:+ tab +:+ Destination.URI kv.2]))
      by done.
    rewrite mret_bind. by eexists.
  - intros containers Hq Hsafe. eexists.
    by rewrite (getContainers_safe _ _ _ _ Hq Hsafe).
  - intros pods Hq Hsafe. eexists. by rewrite (getPods_safe _ _ _ _ Hq Hsafe).
  - intros images Hq Hsafe. eexists. by rewrite (getImages_safe _ _ Hq Hsafe).
Qed.

(** *** The slice of the ID *)

(** C9 (amended).  [getContainers], [getPods] and [getImages] take
    [ID[0:12]] of every record that reaches the ID branch, without a
    test of its length.  A record reaches the branch when ID completion
    is on for the token and the mode, and the token is a prefix of its
    ID.  If such a record has an ID shorter than 12 bytes, the function
    panics; if every such record has an ID of 12 bytes or more (and, for
    containers, a first name where names are completed), it returns. *)
Theorem id_slice_precondition toComplete cType statuses :
  (∀ containers,
     ContainerList backend true true (statusFilters statuses) = Ok containers →
     (∀ c, c ∈ containers →
           idMatches toComplete cType (ListContainer.ID c) = true →
           (len (ListContainer.ID c) < 12)%nat →
           panics (getContainers backend toComplete cType statuses))
     ∧ (Forall (containerSafe toComplete cType) containers →
        ∃ suggestions,
          result (getContainers backend toComplete cType statuses)
          = Returns (suggestions, ShellCompDirectiveNoFileComp)))
  ∧ (∀ pods,
       PodPs backend (statusFilters statuses) = Ok pods →
       (∀ pod, pod ∈ pods →
               idMatches toComplete cType (ListPodsReport.Id pod) = true →
               (len (ListPodsReport.Id pod) < 12)%nat →
               panics (getPods backend toComplete cType statuses))
       ∧ (Forall (podSafe toComplete cType) pods →
          ∃ suggestions,
            result (getPods backend toComplete cType statuses)
            = Returns (suggestions, ShellCompDirectiveNoFileComp)))
  ∧ (∀ images,
       ImageList backend = Ok images →
       (∀ image, image ∈ images →
                 imageIDMatches toComplete (ImageSummary.ID image) = true →
                 (len (ImageSummary.ID image) < 12)%nat →
                 panics (getImages backend toComplete))
       ∧ (Forall (imageSafe toComplete) images →
          ∃ suggestions,
            result (getImages backend toComplete)
            = Returns (suggestions, ShellCompDirectiveNoFileComp))).
Proof.
  split; [|split].
  - intros containers Hq. split.
    + intros c. by apply getContainers_short_id.
    + intros Hsafe. eexists. by rewrite (getContainers_safe _ _ _ _ Hq Hsafe).
  - intros pods Hq. split.
    + intros pod. by apply getPods_short_id.
    + intros Hsafe. eexists. by rewrite (getPods_safe _ _ _ _ Hq Hsafe).
  - intros images Hq. split.
    + intros image. by apply getImages_short_id.
    + intros Hsafe. eexists. by rewrite (getImages_safe _ _ Hq Hsafe).
Qed.

(** *** Registries *)

(** C7 (amended).  The registries adapter has no token to filter by: it
    returns every registry that the query gave, as it is, with
    NoFileComp; so does [AutocompleteRegistries], for every token that
    the gate lets through. *)
Theorem registries_are_not_filtered cmd args toComplete regs :
  GetRegistries backend = Ok regs →
  getRegistries backend
  = Run [Asked QGetRegistries] (Returns (regs, ShellCompDirectiveNoFileComp))
  ∧ (result (validCurrentCmdLine cmd args toComplete) = Returns true →
     result (AutocompleteRegistries backend cmd args toComplete)
     = Returns (regs, ShellCompDirectiveNoFileComp)).
Proof.
  intros Hq. split; [by apply getRegistries_ok|].
  intros Hgate. unfold AutocompleteRegistries.
  by rewrite (gate_open _ _ _ _ _ Hgate), (getRegistries_ok _ Hq).
Qed.

(** *** Tokens of at most one byte *)

Lemma idsEnabled_short toComplete :
  (len toComplete ≤ 1)%nat → idsEnabled toComplete completeDefault = false.
Proof.
  intros H. unfold idsEnabled. by rewrite (proj2 (Nat.ltb_ge _ _) H).
Qed.

Lemma containerSuggestions_short toComplete suggestions c :
  (len toComplete ≤ 1)%nat →
  containerSuggestions toComplete completeDefault suggestions c
  = containerSuggestions toComplete completeNames suggestions c.
Proof.
  intros H. unfold containerSuggestions. by rewrite (proj2 (Nat.ltb_ge _ _) H).
Qed.

Lemma podSuggestions_short toComplete suggestions pod :
  (len toComplete ≤ 1)%nat →
  podSuggestions toComplete completeDefault suggestions pod
  = podSuggestions toComplete completeNames suggestions pod.
Proof.
  intros H. unfold podSuggestions. by rewrite (proj2 (Nat.ltb_ge _ _) H).
Qed.

(** Without the ID branch, a step that returns has added the name
    suggestion of the container and nothing else. *)
Lemma containerSuggestions_names toComplete cType suggestions c suggestions' :
  idsEnabled toComplete cType = false →
  result (containerSuggestions toComplete cType suggestions c) = Returns suggestions' →
  suggestions' = suggestions ++ containerNameSuggestion toComplete cType c.
Proof.
  intros Hids. unfold containerSuggestions, containerNameSuggestion.
  fold (idsEnabled toComplete cType). rewrite Hids. cbn [andb].
  rewrite mret_bind. unfold index.
  destruct (bool_decide (cType = completeIDs)); cbn [negb andb].
  - intros [= <-]. destruct (_ !! _); by rewrite app_nil_r.
  - destruct (ListContainer.Names c !! 0%nat) as [name|]; [|done].
    rewrite mret_bind.
    destruct (strings.HasPrefix name toComplete); intros [= <-];
      by rewrite ?app_nil_r.
Qed.

Lemma forRange_container_names toComplete cType containers :
  idsEnabled toComplete cType = false →
  ∀ suggestions suggestions',
    result (forRange (containerSuggestions toComplete cType) suggestions containers)
    = Returns suggestions' →
    suggestions' = suggestions
                   ++ flat_map (containerNameSuggestion toComplete cType) containers.
Proof.
  intros Hids. induction containers as [|c containers IH];
    intros suggestions suggestions'; simpl.
  - intros [= <-]. by rewrite app_nil_r.
  - intros (s1 & H1 & H2)%bind_returns_inv.
    apply (containerSuggestions_names _ _ _ _ _ Hids) in H1 as ->.
    apply IH in H2 as ->. by rewrite <- app_assoc.
Qed.

Lemma podSafe_short toComplete pods :
  (len toComplete ≤ 1)%nat → Forall (podSafe toComplete completeDefault) pods.
Proof.
  intros H. apply Forall_forall. intros pod _. unfold podSafe, idMatches.
  by rewrite (idsEnabled_short _ H).
Qed.

Lemma imageSafe_short toComplete images :
  (len toComplete ≤ 1)%nat → Forall (imageSafe toComplete) images.
Proof.
  intros H. apply Forall_forall. intros image _. unfold imageSafe, imageIDMatches.
  by rewrite (proj2 (Nat.ltb_ge _ _) H).
Qed.

Lemma flat_map_nil_app {A} (f g : A → list string) l :
  (∀ x, f x = []) → flat_map (λ x, f x ++ g x) l = flat_map g l.
Proof.
  intros Hf. induction l as [|x l IH]; [done|]. simpl. by rewrite Hf, IH.
Qed.

Lemma containerNameSuggestion_match toComplete cType containers :
  Forall (nameMatch toComplete containers)
         (flat_map (containerNameSuggestion toComplete cType) containers).
Proof.
  apply Forall_forall. intros s Hin.
  apply list_elem_of_In, in_flat_map in Hin as (c & Hc%list_elem_of_In & Hs).
  unfold containerNameSuggestion in Hs.
  destruct (ListContainer.Names c !! 0%nat) as [name|] eqn:E; [|done].
  destruct (negb _) ; [|done]. cbn [andb] in Hs.
  destruct (strings.HasPrefix name toComplete) eqn:Hp; [|done].
  destruct Hs as [<-|[]]. by exists c, name.
Qed.

Lemma imageTagSuggestions_prefix toComplete image :
  Forall (λ s, strings.HasPrefix s toComplete = true
               ∧ ∃ repo, repo ∈ ImageSummary.RepoTags image
                         ∧ (s = repo ∨ s ∈ repoTagCandidates repo))
         (imageTagSuggestions toComplete image).
Proof.
  apply Forall_forall. intros s Hin.
  apply list_elem_of_In, in_flat_map in Hin as (repo & Hrepo%list_elem_of_In & Hs).
  destruct (bool_decide (toComplete = "")) eqn:E.
  - apply bool_decide_eq_true in E as ->. destruct Hs as [<-|[]].
    split; [apply HasPrefix_empty|]. exists repo. auto.
  - apply List.filter_In in Hs as [Hs%list_elem_of_In Hp]. split; [done|].
    exists repo. auto.
Qed.

(** C4.  On a token of at most one byte, in the default mode:
    [getContainers] and [getPods] do what they do in the mode that
    completes names only, and [getImages] returns suggestions made of
    repo tags only.  What they return are the name (repo tag)
    suggestions of the records, in order; the token is a prefix of the
    name, or repo tag candidate, that each suggestion is made of. *)
Theorem short_token_gives_no_id_suggestion toComplete statuses :
  (len toComplete ≤ 1)%nat →
  getContainers backend toComplete completeDefault statuses
  = getContainers backend toComplete completeNames statuses
  ∧ (∀ containers suggestions directive,
       ContainerList backend true true (statusFilters statuses) = Ok containers →
       result (getContainers backend toComplete completeDefault statuses)
       = Returns (suggestions, directive) →
       suggestions = flat_map (containerNameSuggestion toComplete completeDefault)
                              containers
       ∧ Forall (nameMatch toComplete containers) suggestions)
  ∧ getPods backend toComplete completeDefault statuses
    = getPods backend toComplete completeNames statuses
  ∧ (∀ pods,
       PodPs backend (statusFilters statuses) = Ok pods →
       result (getPods backend toComplete completeDefault statuses)
       = Returns (flat_map (podNameSuggestion toComplete completeDefault) pods,
                  ShellCompDirectiveNoFileComp)
       ∧ Forall (λ s, ∃ pod, pod ∈ pods
                             ∧ strings.HasPrefix (ListPodsReport.Name pod) toComplete = true
                             ∧ s = ListPodsReport.Name pod)
                (flat_map (podNameSuggestion toComplete completeDefault) pods))
  ∧ (∀ images,
       ImageList backend = Ok images →
       result (getImages backend toComplete)
       = Returns (flat_map (imageTagSuggestions toComplete) images,
                  ShellCompDirectiveNoFileComp)
       ∧ Forall (λ s, strings.HasPrefix s toComplete = true
                      ∧ ∃ image repo, image ∈ images
                                      ∧ repo ∈ ImageSummary.RepoTags image
                                      ∧ (s = repo ∨ s ∈ repoTagCandidates repo))
                (flat_map (imageTagSuggestions toComplete) images)).
Proof.
  intros Hlen. split; [|split; [|split; [|split]]].
  - unfold getContainers.
    destruct (ContainerList _ _ _ _) as [containers|msg]; [|done].
    unfold ask. rewrite !mret_bind || (unfold mbind at 1 3, M_bind at 1 3; simpl).
    by rewrite (forRange_ext _ (containerSuggestions toComplete completeNames))
      by (intros; by apply containerSuggestions_short).
  - intros containers suggestions directive Hq Hres.
    destruct (getContainers_ok toComplete completeDefault _ _ Hq) as [_ Hr].
    rewrite Hr in Hres.
    destruct (result (forRange _ _ _)) as [s'|] eqn:E; [|done].
    injection Hres as <- <-.
    apply (forRange_container_names _ _ _ (idsEnabled_short _ Hlen)) in E as ->.
    split; [done|]. apply containerNameSuggestion_match.
  - unfold getPods.
    destruct (PodPs _ _) as [pods|msg]; [|done].
    unfold ask. unfold mbind at 1 3, M_bind at 1 3; simpl.
    by rewrite (forRange_ext _ (podSuggestions toComplete completeNames))
      by (intros; by apply podSuggestions_short).
  - intros pods Hq. split.
    + rewrite (getPods_safe _ _ _ _ Hq (podSafe_short _ _ Hlen)). simpl.
      rewrite flat_map_nil_app; [done|].
      intros pod. unfold podIDSuggestion, idMatches.
      by rewrite (idsEnabled_short _ Hlen).
    + apply Forall_forall. intros s Hin.
      apply list_elem_of_In, in_flat_map in Hin as (pod & Hpod%list_elem_of_In & Hs).
      unfold podNameSuggestion in Hs. cbn [negb andb] in Hs.
      destruct (bool_decide _) in Hs; cbn [negb andb] in Hs; [done|].
      destruct (strings.HasPrefix _ _) eqn:Hp; [|done].
      destruct Hs as [<-|[]]. by exists pod.
  - intros images Hq. split.
    + rewrite (getImages_safe _ _ Hq (imageSafe_short _ _ Hlen)). simpl.
      rewrite flat_map_nil_app; [done|].
      intros image. unfold imageIDSuggestion, imageIDMatches.
      by rewrite (proj2 (Nat.ltb_ge _ _) Hlen).
    + apply Forall_forall. intros s Hin.
      apply list_elem_of_In, in_flat_map in Hin as (image & Himage%list_elem_of_In & Hs).
      pose proof (proj1 (Forall_forall _ _) (imageTagSuggestions_prefix toComplete image)
                    s (proj2 (list_elem_of_In _ _) Hs)) as (Hp & repo & Hrepo & Hcand).
      split; [done|]. by exists image, repo.
Qed.

(** *** Namespaces *)

Hypothesis mapRange_perm : ∀ V (m : gmap string V), mapRange V m ≡ₚ map_to_list m.

Lemma namespaceKeys_lookup key v :
  namespaceKeys backend !! key = Some v →
  key = "container:" ∨ key = "ns:" ∨ key = "host" ∨ key = "private".
Proof.
  unfold namespaceKeys. intros H.
  repeat (apply lookup_insert_Some in H as [[<- _]|[_ H]]; [by auto|]).
  by rewrite lookup_empty in H.
Qed.

(** A token that begins with ["container:"] goes to the completer of that
    key, in whatever order the loop visits the grammar. *)
Lemma AutocompleteNamespace_container cmd args rest :
  AutocompleteNamespace backend mapRange cmd args ("container:" +:+ rest)
  = ('(nested, dir) ← getContainers backend rest completeDefault [];
     mret (prefixSlice "container:" nested, dir)).
Proof.
  unfold AutocompleteNamespace.
  set (f := λ s, getContainers backend s completeDefault []).
  assert (("container:", Some f) ∈ mapRange _ (namespaceKeys backend)) as Hin.
  { rewrite mapRange_perm, elem_of_map_to_list. done. }
  apply list_elem_of_split in Hin as (before & after & Horder).
  rewrite (completeKeyValues_delegates mapRange _ _ "container:" f before after Horder).
  - by rewrite (drop_append "container:" rest).
  - assert (NoDup (mapRange _ (namespaceKeys backend)).*1) as Hnodup.
    { rewrite mapRange_perm. apply NoDup_fst_map_to_list. }
    rewrite Horder, fmap_app, fmap_cons in Hnodup.
    apply NoDup_app in Hnodup as (_ & Hnotin & _).
    apply Forall_forall. intros [key v] Hbefore. simpl.
    assert (key ≠ "container:") as Hne.
    { intros ->. apply (Hnotin "container:").
      - apply list_elem_of_fmap. by exists ("container:", v).
      - apply list_elem_of_here. }
    assert ((key, v) ∈ mapRange _ (namespaceKeys backend)) as Hin.
    { rewrite Horder. apply elem_of_app. by left. }
    rewrite mapRange_perm, elem_of_map_to_list in Hin.
    by destruct (namespaceKeys_lookup _ _ Hin) as [->|[->|[->| ->]]].
  - apply (HasPrefix_append "container:" rest).
Qed.

(** C10.  [AutocompleteUserNamespace] writes what [AutocompleteNamespace]
    writes; it returns the suggestions of [AutocompleteNamespace] with
    ["auto"] and ["keep-id"] appended and the same directive, and panics
    when [AutocompleteNamespace] does.  The two literals are appended
    whatever the token is: also to the suggestions that the completer of
    ["container:"] returned for a token that begins with that key. *)
Theorem user_namespace_appends_auto_keep_id cmd args toComplete :
  trace (AutocompleteUserNamespace backend mapRange cmd args toComplete)
  = trace (AutocompleteNamespace backend mapRange cmd args toComplete)
  ∧ match result (AutocompleteNamespace backend mapRange cmd args toComplete) with
    | Returns (results, directive) =>
        result (AutocompleteUserNamespace backend mapRange cmd args toComplete)
        = Returns (results ++ ["auto"; "keep-id"], directive)
    | Panics p =>
        result (AutocompleteUserNamespace backend mapRange cmd args toComplete)
        = Panics p
    end
  ∧ ∀ rest nested directive,
      result (getContainers backend rest completeDefault []) = Returns (nested, directive) →
      result (AutocompleteUserNamespace backend mapRange cmd args ("container:" +:+ rest))
      = Returns (((λ s, "container:" +:+ s) <$> nested) ++ ["auto"; "keep-id"],
                 directive).
Proof.
  split; [|split].
  - unfold AutocompleteUserNamespace, mbind, M_bind.
    destruct (result (AutocompleteNamespace _ _ _ _ _)) as [[results directive]|p];
      simpl; [apply app_nil_r | done].
  - unfold AutocompleteUserNamespace, mbind, M_bind.
    by destruct (result (AutocompleteNamespace _ _ _ _ _)) as [[results directive]|p].
  - intros rest nested directive Hres.
    unfold AutocompleteUserNamespace.
    rewrite AutocompleteNamespace_container.
    unfold mbind, M_bind. rewrite Hres. done.
Qed.

End Adapters.

(** ** The theorems on the sample backend *)

(** C3 (code defect).  From a repo tag and a token that is not empty,
    the code derives, for each suffix of the segments of the repo tag,
    the suffix joined and the suffix joined cut at its first [':'] (and
    then at its first ['@']), and keeps those that the token is a prefix
    of; on the empty token it gives the repo tag alone.  The cut is not
    the trailing [:tag]: for a registry with a port the second candidate
    is the host of the registry. *)
Theorem image_tag_cut_at_first_colon :
  (∀ toComplete suggestions repo,
     repoTagSuggestions toComplete suggestions repo =
     mret (suggestions ++
           if bool_decide (toComplete = "") then [repo]
           else List.filter (λ s, strings.HasPrefix s toComplete)
                            (repoTagCandidates repo)))
  ∧ repoTagCandidates "localhost:5000/app:latest"
    = ["localhost:5000/app:latest"; "localhost"; "app:latest"; "app"]
  ∧ withoutTag "localhost:5000/app:latest" = "localhost"
  ∧ stripTagOrDigest "localhost:5000/app:latest" = "localhost:5000/app"
  ∧ getImages demoBackend "l"
    = Run [Asked QImageList]
          (Returns (["localhost:5000/app:latest"; "localhost"],
                    ShellCompDirectiveNoFileComp)).
Proof.
  split; [exact repoTagSuggestions_result | by vm_compute].
Qed.

(** C7, as stated, fails: on the token ["q"], the registries adapter
    suggests ["docker.io"]. *)
Lemma registries_suggested_without_prefix :
  ∃ suggestions directive,
    result (AutocompleteRegistries demoBackend anyArgs [] "q")
    = Returns (suggestions, directive)
    ∧ "docker.io" ∈ suggestions
    ∧ strings.HasPrefix "docker.io" "q" = false.
Proof.
  exists ["docker.io"; "quay.io"], ShellCompDirectiveNoFileComp.
  split; [done|]. split; [apply list_elem_of_here | done].
Qed.

(** C7 (amended) on the sample backend and the token ["q"]. *)
Lemma registries_are_not_filtered_witness :
  GetRegistries demoBackend = Ok ["docker.io"; "quay.io"]
  ∧ result (validCurrentCmdLine anyArgs [] "q") = Returns true
  ∧ result (AutocompleteRegistries demoBackend anyArgs [] "q")
    = Returns (["docker.io"; "quay.io"], ShellCompDirectiveNoFileComp).
Proof.
  split; [reflexivity|]. split; [reflexivity|].
  exact (proj2 (registries_are_not_filtered demoBackend anyArgs [] "q"
                  ["docker.io"; "quay.io"] eq_refl) eq_refl).
Defined.

(** C9, as stated, fails: the empty token is a prefix of the ID ["abc"],
    which is shorter than 12 bytes, and [getPods] returns: in the default
    mode the ID branch is not taken on a token of less than two bytes. *)
Lemma short_id_harmless_when_ids_are_off :
  strings.HasPrefix "abc" "" = true
  ∧ (len "abc" < 12)%nat
  ∧ getPods demoBackend "" completeDefault []
    = Run [Asked (QPodPs ∅)] (Returns (["p1"], ShellCompDirectiveNoFileComp))
  ∧ ¬ panics (getPods demoBackend "" completeDefault []).
Proof.
  split; [done|]. split; [simpl; lia|]. split; [done|].
  by intros [p Hp].
Qed.

(** The sample containers are safe for every token and mode. *)
Lemma demoContainers_safe toComplete cType :
  Forall (containerSafe toComplete cType) demoContainers.
Proof.
  repeat constructor; simpl; try lia; done.
Defined.

(** C9 (amended) on the sample backend and the token ["ab"]: the pod
    with the short ID makes [getPods] panic, the containers are safe. *)
Lemma id_slice_precondition_witness :
  PodPs demoBackend (statusFilters []) = Ok demoPods
  ∧ idMatches "ab" completeDefault "abc" = true
  ∧ (len "abc" < 12)%nat
  ∧ panics (getPods demoBackend "ab" completeDefault [])
  ∧ ∃ suggestions,
      result (getContainers demoBackend "ab" completeDefault [])
      = Returns (suggestions, ShellCompDirectiveNoFileComp).
Proof.
  destruct (id_slice_precondition demoBackend "ab" completeDefault [])
    as (Hcontainers & Hpods & _).
  split; [reflexivity|]. split; [reflexivity|]. split; [simpl; lia|]. split.
  - apply (proj1 (Hpods demoPods eq_refl)
             {| ListPodsReport.Id := "abc"; ListPodsReport.Name := "p1" |}).
    + apply list_elem_of_here.
    + reflexivity.
    + simpl; lia.
  - apply (proj2 (Hcontainers demoContainers eq_refl)).
    apply demoContainers_safe.
Defined.

(** C8 on the sample backend: the volume query fails, the container
    query succeeds; and on the backend that is down: the configuration
    is not read. *)
Lemma backend_failure_and_success_witness :
  getVolumes demoBackend "ab" = failure QVolumeList "connection refused"
  ∧ Forall (containerSafe "ab" completeDefault) demoContainers
  ∧ (∃ suggestions,
       result (getContainers demoBackend "ab" completeDefault [])
       = Returns (suggestions, ShellCompDirectiveNoFileComp))
  ∧ AutocompleteSystemConnections downBackend listRange anyArgs [] "ab"
    = Run [Asked QReadCustomConfig; CompErrorln "config: permission denied"]
          (Returns ([], ShellCompDirectiveError)).
Proof.
  destruct (backend_failure_and_success demoBackend listRange "ab" completeDefault [])
    as (_ & _ & _ & Hvolumes & _ & _ & _ & Hcontainers & _).
  destruct (backend_failure_and_success downBackend listRange "ab" completeDefault [])
    as (_ & _ & _ & _ & _ & _ & Hconnections & _).
  split; [exact Hvolumes|]. split; [apply demoContainers_safe|]. split.
  - exact (Hcontainers demoContainers eq_refl (demoContainers_safe _ _)).
  - exact (Hconnections anyArgs [] eq_refl).
Defined.

(** C4 on the sample backend and the token ["a"]. *)
Lemma short_token_gives_no_id_suggestion_witness :
  (len "a" ≤ 1)%nat
  ∧ result (getImages demoBackend "a")
    = Returns (["app:latest"; "app"], ShellCompDirectiveNoFileComp)
  ∧ result (getPods demoBackend "a" completeDefault [])
    = Returns ([], ShellCompDirectiveNoFileComp).
Proof.
  assert (len "a" ≤ 1)%nat as Hlen by (simpl; lia).
  destruct (short_token_gives_no_id_suggestion demoBackend "a" [] Hlen)
    as (_ & _ & _ & Hpods & Himages).
  split; [exact Hlen|]. split.
  - exact (proj1 (Himages demoImages eq_refl)).
  - exact (proj1 (Hpods demoPods eq_refl)).
Defined.

(** C10 on the sample backend and the token ["container:w"]. *)
Lemma user_namespace_appends_auto_keep_id_witness :
  (∀ V (m : gmap string V), listRange V m ≡ₚ map_to_list m)
  ∧ result (getContainers demoBackend "w" completeDefault [])
    = Returns (["web" +:+ tab +:+ "pod1"], ShellCompDirectiveNoFileComp)
  ∧ result (AutocompleteUserNamespace demoBackend listRange anyArgs [] "container:w")
    = Returns (["container:web" +:+ tab +:+ "pod1"; "auto"; "keep-id"],
               ShellCompDirectiveNoFileComp).
Proof.
  split; [exact listRange_perm|]. split; [reflexivity|].
  destruct (user_namespace_appends_auto_keep_id demoBackend listRange listRange_perm
              anyArgs [] "container:w") as (_ & _ & H).
  exact (H "w" ["web" +:+ tab +:+ "pod1"] ShellCompDirectiveNoFileComp eq_refl).
Defined.

(** * Further properties *)

(** ** The arity gate *)

(** X1.  The counts that [validCurrentCmdLine] recovers from the error of
    [cobra.MinimumNArgs(n)] or [cobra.ExactArgs(n)] are [n] and the
    number of tokens that the validator was given. *)
Theorem counts_round_trip n (tokens : list string) msg :
  0 ≤ n < 2 ^ 63 → Z.of_nat (length tokens) < 2 ^ 63 →
  MinimumNArgs n tokens = Some msg ∨ ExactArgs n tokens = Some msg →
  recovered msg = (n, Z.of_nat (length tokens), None).
Proof.
  intros Hn Htokens [H|H].
  - unfold MinimumNArgs in H. destruct (_ <? _); [|done].
    injection H as <-. apply recovered_MinimumNArgs; lia.
  - unfold ExactArgs in H. destruct (negb _); [|done].
    injection H as <-. apply recovered_ExactArgs; lia.
Qed.

Lemma counts_round_trip_witness :
  0 ≤ 2 < 2 ^ 63
  ∧ Z.of_nat (length ["a"]) < 2 ^ 63
  ∧ MinimumNArgs 2 ["a"] = Some "requires at least 2 arg(s), only received 1"
  ∧ recovered "requires at least 2 arg(s), only received 1" = (2, 1, None).
Proof.
  assert (0 ≤ 2 < 2 ^ 63) as Hn by lia.
  assert (Z.of_nat (length ["a"]) < 2 ^ 63) as Htokens by (simpl; lia).
  split; [exact Hn|]. split; [exact Htokens|]. split; [reflexivity|].
  exact (counts_round_trip 2 ["a"] _ Hn Htokens (or_introl eq_refl)).
Defined.

(** X2.  With the two validators that the gate is written for,
    [MinimumNArgs] and [ExactArgs], the gate never returns false.  With
    [MinimumNArgs] it returns true on every command line; with
    [ExactArgs] it returns true while the line, the token included, has
    at most the arity, and panics on a longer one.  Nothing is said of
    other validators: an error in which the gate reads no counts makes
    it return false, see C1. *)
Theorem minimum_and_exact_args_never_close_the_gate n args toComplete :
  0 ≤ n < 2 ^ 63 → Z.of_nat (length args) + 1 < 2 ^ 63 →
  result (validCurrentCmdLine {| Args := Some (MinimumNArgs n) |} args toComplete)
  = Returns true
  ∧ result (validCurrentCmdLine {| Args := Some (ExactArgs n) |} args toComplete)
    = if Z.of_nat (length args) + 1 <=? n then Returns true
      else Panics NilDereference.
Proof.
  intros Hn Hargs. split; [by apply MinimumNArgs_gate | by apply ExactArgs_gate].
Qed.

Lemma minimum_and_exact_args_never_close_the_gate_witness :
  0 ≤ 1 < 2 ^ 63
  ∧ Z.of_nat (length ["a"]) + 1 < 2 ^ 63
  ∧ result (validCurrentCmdLine {| Args := Some (MinimumNArgs 1) |} ["a"] "x")
    = Returns true
  ∧ result (validCurrentCmdLine {| Args := Some (ExactArgs 1) |} ["a"] "x")
    = Panics NilDereference.
Proof.
  assert (0 ≤ 1 < 2 ^ 63) as Hn by lia.
  assert (Z.of_nat (length ["a"]) + 1 < 2 ^ 63) as Hargs by (simpl; lia).
  split; [exact Hn|]. split; [exact Hargs|].
  exact (minimum_and_exact_args_never_close_the_gate 1 ["a"] "x" Hn Hargs).
Defined.

(** ** The key-value combinator, on every token *)

(** The loop on a token that no key is a prefix of: the keys that the
    token is a prefix of are added in order. *)
Lemma rangeKeyValues_partial t entries suggestions directive :
  Forall (λ e, strings.HasPrefix t e.1 = false) entries →
  rangeKeyValues t entries suggestions directive =
  mret (suggestions ++ filter (λ key, strings.HasPrefix key t = true) entries.*1,
        if existsb (λ key, strings.HasPrefix key t && endsInSeparator key) entries.*1
        then noSpaceNoFileComp else directive).
Proof.
  intros Hno. revert suggestions directive.
  induction Hno as [|[key f] entries Hkey _ IH]; intros suggestions directive.
  - simpl. by rewrite app_nil_r.
  - cbn [rangeKeyValues]. simpl in Hkey. rewrite Hkey.
    cbn [fmap list_fmap fst existsb].
    assert (key ≠ "") as Hne.
    { intros ->. by rewrite HasPrefix_empty in Hkey. }
    destruct (strings.HasPrefix key t) eqn:Hp.
    + destruct (sliceLast_nonempty key Hne) as (c & -> & Hlast).
      rewrite mret_bind, IH, latKey_separator.
      rewrite filter_cons_True by done. rewrite <- app_assoc. cbn [app andb].
      unfold endsInSeparator at 2. rewrite Hlast. fold noSpaceNoFileComp.
      destruct (Ascii.eqb c "=" || Ascii.eqb c ":"); [|done].
      by destruct (existsb _ entries.*1).
    + rewrite IH. rewrite filter_cons_False by (rewrite Hp; done). done.
Qed.

(** The loop that reaches the key [key], a prefix of the token, before
    any other key that the token begins with. *)
Lemma rangeKeyValues_first t before key v after suggestions directive :
  Forall (λ e, strings.HasPrefix t e.1 = false) before →
  strings.HasPrefix t key = true →
  rangeKeyValues t (before ++ (key, v) :: after) suggestions directive =
  match v with
  | Some f =>
      '(nested, dir) ← f (strings.drop (len key) t);
      mret (prefixSlice key nested, dir)
  | None => mret ([], ShellCompDirectiveNoFileComp)
  end.
Proof.
  intros Hbefore Hkey.
  destruct (rangeKeyValues_skip t before ((key, v) :: after)
              suggestions directive Hbefore) as (s' & d' & ->).
  cbn [rangeKeyValues]. rewrite Hkey. destruct v as [f|]; [|done].
  by rewrite (sliceFrom_prefix _ _ Hkey), mret_bind.
Qed.

Lemma rangeKeyValues_no_panic t entries suggestions directive :
  (∀ key f rest, (key, Some f) ∈ entries → ¬ panics (f rest)) →
  ¬ panics (rangeKeyValues t entries suggestions directive).
Proof.
  revert suggestions directive.
  induction entries as [|[key v] entries IH]; intros suggestions directive Hf.
  - by intros [p Hp].
  - cbn [rangeKeyValues].
    assert (∀ key' f rest, (key', Some f) ∈ entries → ¬ panics (f rest)) as Hf'.
    { intros key' f rest Hin. apply (Hf key'). by apply list_elem_of_further. }
    destruct (strings.HasPrefix t key) eqn:Hkey.
    + destruct v as [f|]; [|by intros [p Hp]].
      rewrite (sliceFrom_prefix _ _ Hkey), mret_bind.
      intros [p Hp]. apply (Hf key f (strings.drop (len key) t)).
      { apply list_elem_of_here. }
      unfold mbind, M_bind in Hp.
      destruct (result (f (strings.drop (len key) t))) as [[nested dir]|p'] eqn:E.
      * done.
      * by exists p'.
    + destruct (strings.HasPrefix key t) eqn:Hp; [|by apply IH].
      assert (key ≠ "") as Hne.
      { intros ->. by rewrite HasPrefix_empty in Hkey. }
      destruct (sliceLast_nonempty key Hne) as (c & -> & _).
      rewrite mret_bind. by apply IH.
Qed.

Lemma rangeKeyValues_error_invariant t entries suggestions directive :
  (∀ key f rest c, (key, Some f) ∈ entries →
                   result (f rest) = Returns c → errorMeansEmpty c) →
  hasFlag directive ShellCompDirectiveError = false →
  ∀ c, result (rangeKeyValues t entries suggestions directive) = Returns c →
       errorMeansEmpty c.
Proof.
  revert suggestions directive.
  induction entries as [|[key v] entries IH]; intros suggestions directive Hf Hd c.
  - intros [= <-]. unfold errorMeansEmpty. simpl. congruence.
  - cbn [rangeKeyValues].
    assert (∀ key' f rest c, (key', Some f) ∈ entries →
              result (f rest) = Returns c → errorMeansEmpty c) as Hf'.
    { intros key' f rest c' Hin. apply (Hf key'). by apply list_elem_of_further. }
    destruct (strings.HasPrefix t key) eqn:Hkey.
    + destruct v as [f|]; [|intros [= <-]; by intros _].
      rewrite (sliceFrom_prefix _ _ Hkey), mret_bind.
      intros ([nested dir] & Hres & [= <-])%bind_returns_inv.
      unfold errorMeansEmpty. simpl. intros Herr.
      pose proof (Hf key f _ _ (list_elem_of_here _ _) Hres Herr) as Hnested.
      simpl in Hnested. by rewrite Hnested.
    + destruct (strings.HasPrefix key t) eqn:Hp; [|by apply IH].
      assert (key ≠ "") as Hne.
      { intros ->. by rewrite HasPrefix_empty in Hkey. }
      destruct (sliceLast_nonempty key Hne) as (ch & -> & _).
      rewrite mret_bind. apply IH; [done|].
      by destruct (_ || _).
Qed.

(** The loop over entries with distinct keys, one of which, and no
    other, is a prefix of the token. *)
Lemma rangeKeyValues_only_key t entries key v suggestions directive :
  NoDup entries.*1 →
  (key, v) ∈ entries →
  strings.HasPrefix t key = true →
  (∀ key' v', (key', v') ∈ entries → strings.HasPrefix t key' = true → key' = key) →
  rangeKeyValues t entries suggestions directive =
  match v with
  | Some f =>
      '(nested, dir) ← f (strings.drop (len key) t);
      mret (prefixSlice key nested, dir)
  | None => mret ([], ShellCompDirectiveNoFileComp)
  end.
Proof.
  intros Hnodup Hin Hkey Hunique.
  apply list_elem_of_split in Hin as (before & after & ->).
  apply rangeKeyValues_first; [|done].
  rewrite fmap_app, fmap_cons in Hnodup.
  apply NoDup_app in Hnodup as (_ & Hnotin & _).
  apply Forall_forall. intros [key' v'] Hbefore. simpl.
  destruct (strings.HasPrefix t key') eqn:E; [|done].
  assert (key' = key) as ->.
  { apply (Hunique key' v'); [|done]. apply elem_of_app. by left. }
  exfalso. apply (Hnotin key).
  - apply list_elem_of_fmap. by exists (key, v').
  - apply list_elem_of_here.
Qed.

(** A token that begins with a key begins with no other key of a grammar
    without a key that is a prefix of another one. *)
Lemma HasPrefix_comparable key rest key' :
  strings.HasPrefix (key +:+ rest) key' = true →
  strings.HasPrefix key key' = true ∨ strings.HasPrefix key' key = true.
Proof.
  unfold strings.HasPrefix. revert key'.
  induction key as [|c key IH]; intros key'.
  - intros _. right. by destruct key'.
  - destruct key' as [|c' key']; [by left|].
    rewrite append_cons. cbn [String.prefix].
    destruct (ascii_dec c' c) as [->|]; [|done].
    destruct (ascii_dec c c); [|done]. apply IH.
Qed.

Section KeyValuesMore.

Variable mapRange : ∀ V : Type, gmap string V → list (string * V).
Hypothesis mapRange_perm : ∀ V (m : gmap string V), mapRange V m ≡ₚ map_to_list m.

(** X3.  On a token that no key of the grammar is a prefix of,
    [completeKeyValues] returns the keys that the token is a prefix of,
    each one once, with NoFileComp, and with NoSpace if and only if one
    of them ends in ['='] or [':']; it returns no suggestion, with
    NoFileComp alone, when the token is a prefix of no key. *)
Theorem completeKeyValues_partial_key (k : keyValueCompletion) t :
  (∀ key, key ∈ dom k → strings.HasPrefix t key = false) →
  ∃ suggestions directive,
    completeKeyValues mapRange t k = mret (suggestions, directive)
    ∧ suggestions ≡ₚ filter (λ key, strings.HasPrefix key t = true) (elements (dom k))
    ∧ (hasFlag directive ShellCompDirectiveNoSpace = true
       ↔ ∃ key, key ∈ dom k ∧ strings.HasPrefix key t = true
                ∧ endsInSeparator key = true)
    ∧ hasFlag directive ShellCompDirectiveNoFileComp = true
    ∧ hasFlag directive ShellCompDirectiveError = false
    ∧ ((∀ key, key ∈ dom k → strings.HasPrefix key t = false) →
       suggestions = [] ∧ directive = ShellCompDirectiveNoFileComp).
Proof.
  intros Hno. unfold completeKeyValues.
  rewrite rangeKeyValues_partial.
  2:{ apply Forall_forall. intros [key f] Hin. simpl. apply Hno.
      apply (elem_of_mapRange mapRange mapRange_perm) in Hin.
      apply elem_of_dom. by exists f. }
  eexists _, _. split; [done|]. rewrite app_nil_l.
  split; [by rewrite (mapRange_keys mapRange mapRange_perm)|].
  assert (existsb (λ key, strings.HasPrefix key t && endsInSeparator key)
                  (mapRange _ k).*1 = true
          ↔ ∃ key, key ∈ dom k ∧ strings.HasPrefix key t = true
                   ∧ endsInSeparator key = true) as Hex.
  { rewrite existsb_exists. setoid_rewrite <- list_elem_of_In.
    setoid_rewrite (mapRange_keys mapRange mapRange_perm).
    setoid_rewrite elem_of_elements. setoid_rewrite andb_true_iff. done. }
  split; [|split; [|split]].
  - destruct (existsb _ (mapRange _ k).*1).
    + split; [intros _; by apply Hex | done].
    + split; [done | intros H; by apply Hex in H].
  - by destruct (existsb _ (mapRange _ k).*1).
  - by destruct (existsb _ (mapRange _ k).*1).
  - intros Hnone.
    assert (∀ key, key ∈ (mapRange _ k).*1 → strings.HasPrefix key t = false) as Hall.
    { intros key Hin. apply Hnone.
      by rewrite (mapRange_keys mapRange mapRange_perm), elem_of_elements in Hin. }
    split.
    + destruct (filter _ (mapRange _ k).*1) as [|key keys] eqn:E; [done|].
      assert (key ∈ filter (λ key, strings.HasPrefix key t = true) (mapRange _ k).*1)
        as [Hp Hin]%list_elem_of_filter by (rewrite E; apply list_elem_of_here).
      by rewrite (Hall key Hin) in Hp.
    + destruct (existsb _ (mapRange _ k).*1); [|done].
      destruct (proj1 Hex eq_refl) as (key & Hin & Hp & _).
      by rewrite (Hnone key Hin) in Hp.
Qed.

(** X4.  When one key of the grammar, and no other, is a prefix of the
    token, the order in which the loop visits the grammar does not
    matter: [completeKeyValues] is the completer of that key on the rest
    of the token, with the key put back in front of its suggestions, or
    no suggestion with NoFileComp for a key without completer. *)
Theorem completeKeyValues_unique_key (k : keyValueCompletion) t key v :
  k !! key = Some v →
  strings.HasPrefix t key = true →
  (∀ key', key' ∈ dom k → strings.HasPrefix t key' = true → key' = key) →
  completeKeyValues mapRange t k =
  match v with
  | Some f =>
      '(nested, dir) ← f (strings.drop (len key) t);
      mret (prefixSlice key nested, dir)
  | None => mret ([], ShellCompDirectiveNoFileComp)
  end.
Proof.
  intros Hlookup Hkey Hunique. unfold completeKeyValues.
  apply rangeKeyValues_only_key with (key := key); [| |done|].
  - rewrite mapRange_perm. apply NoDup_fst_map_to_list.
  - by apply (elem_of_mapRange mapRange mapRange_perm).
  - intros key' v' Hin. apply Hunique, elem_of_dom. exists v'.
    by apply (elem_of_mapRange mapRange mapRange_perm).
Qed.

(** X5.  The two slices of [completeKeyValues], [toComplete[len(key):]]
    and [key[len(key)-1:]], are always in range, also for an empty key:
    [completeKeyValues] panics only if a nested completer does. *)
Theorem completeKeyValues_slices_in_range (k : keyValueCompletion) t :
  (∀ key f rest, k !! key = Some (Some f) → ¬ panics (f rest)) →
  ¬ panics (completeKeyValues mapRange t k).
Proof.
  intros Hf. apply rangeKeyValues_no_panic.
  intros key f rest Hin. apply (Hf key).
  by apply (elem_of_mapRange mapRange mapRange_perm).
Qed.

(** X6.  If every nested completer returns the directive Error only with
    an empty list, so does [completeKeyValues]. *)
Theorem completeKeyValues_keeps_error_invariant (k : keyValueCompletion) t :
  (∀ key f rest c, k !! key = Some (Some f) →
                   result (f rest) = Returns c → errorMeansEmpty c) →
  ∀ c, result (completeKeyValues mapRange t k) = Returns c → errorMeansEmpty c.
Proof.
  intros Hf. apply rangeKeyValues_error_invariant; [|done].
  intros key f rest c Hin. apply (Hf key).
  by apply (elem_of_mapRange mapRange mapRange_perm).
Qed.

End KeyValuesMore.

(** ** The modes of the adapters *)

Lemma flat_map_if {A B} (P : A → Prop) `{∀ x, Decision (P x)}
    (f : A → B) (g : A → list B) l :
  (∀ x, x ∈ l → g x = if decide (P x) then [f x] else []) →
  flat_map g l = f <$> filter P l.
Proof.
  induction l as [|x l IH]; intros Hg; [done|].
  cbn [flat_map]. rewrite Hg by apply list_elem_of_here.
  rewrite IH by (intros; apply Hg; by apply list_elem_of_further).
  rewrite filter_cons. by destruct (decide (P x)).
Qed.

Lemma idsEnabled_ids toComplete : idsEnabled toComplete completeIDs = true.
Proof. unfold idsEnabled. by rewrite orb_true_r. Qed.

Lemma idsEnabled_names toComplete : idsEnabled toComplete completeNames = false.
Proof. unfold idsEnabled. by rewrite andb_false_r. Qed.

Lemma containerSuggestions_no_name toComplete cType suggestions c :
  cType ≠ completeIDs → ListContainer.Names c = [] →
  panics (containerSuggestions toComplete cType suggestions c).
Proof.
  intros Hmode Hnames. unfold containerSuggestions, panics.
  rewrite (bool_decide_eq_false_2 _ Hmode), Hnames. cbn [negb].
  unfold sliceTo, index.
  destruct (_ && _); [destruct (_ <=? _)%nat|]; rewrite ?mret_bind; by eexists.
Qed.

Section Modes.

Variable backend : Backend.

(** X7.  In the mode that completes IDs only, [getContainers] and
    [getPods] return, for the records whose ID the token is a prefix of,
    in order, the first 12 bytes of the ID (for a container, with the pod
    name as annotation), and nothing else: names are not read, a
    container without name is harmless, and the length of the token does
    not matter. *)
Theorem ids_only_mode toComplete statuses :
  (∀ containers,
     ContainerList backend true true (statusFilters statuses) = Ok containers →
     Forall (λ c, strings.HasPrefix (ListContainer.ID c) toComplete = true →
                  (12 ≤ len (ListContainer.ID c))%nat) containers →
     getContainers backend toComplete completeIDs statuses
     = Run [Asked (QContainerList true true (statusFilters statuses))]
           (Returns ((λ c, strings.take 12 (ListContainer.ID c) +:+ tab
                           +:+ ListContainer.PodName c)
                     <$> filter (λ c, strings.HasPrefix (ListContainer.ID c) toComplete = true)
                                containers,
                     ShellCompDirectiveNoFileComp)))
  ∧ (∀ pods,
       PodPs backend (statusFilters statuses) = Ok pods →
       Forall (λ pod, strings.HasPrefix (ListPodsReport.Id pod) toComplete = true →
                      (12 ≤ len (ListPodsReport.Id pod))%nat) pods →
       getPods backend toComplete completeIDs statuses
       = Run [Asked (QPodPs (statusFilters statuses))]
             (Returns ((λ pod, strings.take 12 (ListPodsReport.Id pod))
                       <$> filter (λ pod, strings.HasPrefix (ListPodsReport.Id pod) toComplete = true)
                                  pods,
                       ShellCompDirectiveNoFileComp))).
Proof.
  split.
  - intros containers Hq Hlong.
    rewrite (getContainers_safe backend _ _ _ _ Hq).
    + do 3 f_equal. apply flat_map_if. intros c _.
      unfold containerIDSuggestion, containerNameSuggestion, idMatches.
      rewrite idsEnabled_ids. cbn [andb negb].
      rewrite bool_decide_eq_true_2 by done. cbn [negb andb].
      destruct (ListContainer.Names c !! 0%nat);
        rewrite app_nil_r; by destruct (strings.HasPrefix _ _).
    + apply Forall_forall. intros c Hin. split; [|done].
      unfold idMatches. rewrite idsEnabled_ids. cbn [andb].
      by apply (proj1 (Forall_forall _ _) Hlong).
  - intros pods Hq Hlong.
    rewrite (getPods_safe backend _ _ _ _ Hq).
    + do 3 f_equal. apply flat_map_if. intros pod _.
      unfold podIDSuggestion, podNameSuggestion, idMatches.
      rewrite idsEnabled_ids. cbn [andb negb].
      rewrite bool_decide_eq_true_2 by done. cbn [negb andb].
      rewrite app_nil_r. by destruct (strings.HasPrefix _ _).
    + apply Forall_forall. intros pod Hin.
      unfold podSafe, idMatches. rewrite idsEnabled_ids. cbn [andb].
      by apply (proj1 (Forall_forall _ _) Hlong).
Qed.

(** X8.  In the mode that completes names only, no ID is sliced:
    [getPods] returns the names that the token is a prefix of, in order,
    whatever the IDs are; so does [getContainers], with the first name
    of each container and its pod name as annotation, if every container
    has a name.  A container without name makes [getContainers] panic,
    in every mode that completes names. *)
Theorem names_only_mode toComplete statuses :
  (∀ pods,
     PodPs backend (statusFilters statuses) = Ok pods →
     getPods backend toComplete completeNames statuses
     = Run [Asked (QPodPs (statusFilters statuses))]
           (Returns (ListPodsReport.Name
                     <$> filter (λ pod, strings.HasPrefix (ListPodsReport.Name pod) toComplete = true)
                                pods,
                     ShellCompDirectiveNoFileComp)))
  ∧ (∀ containers,
       ContainerList backend true true (statusFilters statuses) = Ok containers →
       (Forall (λ c, ListContainer.Names c ≠ []) containers →
        getContainers backend toComplete completeNames statuses
        = Run [Asked (QContainerList true true (statusFilters statuses))]
              (Returns ((λ c, firstName c +:+ tab +:+ ListContainer.PodName c)
                        <$> filter (λ c, strings.HasPrefix (firstName c) toComplete = true)
                                   containers,
                        ShellCompDirectiveNoFileComp)))
       ∧ (∀ c cType, c ∈ containers → ListContainer.Names c = [] →
                     cType ≠ completeIDs →
                     panics (getContainers backend toComplete cType statuses))).
Proof.
  split.
  - intros pods Hq.
    rewrite (getPods_safe backend _ _ _ _ Hq).
    + do 3 f_equal. apply flat_map_if. intros pod _.
      unfold podIDSuggestion, podNameSuggestion, idMatches.
      rewrite idsEnabled_names. cbn [andb app].
      rewrite bool_decide_eq_false_2 by done. cbn [negb andb].
      by destruct (strings.HasPrefix _ _).
    + apply Forall_forall. intros pod _. unfold podSafe, idMatches.
      by rewrite idsEnabled_names.
  - intros containers Hq. split.
    + intros Hnames. rewrite (getContainers_safe backend _ _ _ _ Hq).
      * do 3 f_equal. apply flat_map_if. intros c Hin.
        pose proof (proj1 (Forall_forall _ _) Hnames c Hin) as Hc.
        unfold containerIDSuggestion, containerNameSuggestion, idMatches, firstName.
        rewrite idsEnabled_names. cbn [andb app].
        rewrite bool_decide_eq_false_2 by done. cbn [negb andb].
        simpl in Hc. destruct (ListContainer.Names c) as [|name names]; [congruence|].
        cbn [lookup list_lookup]. by destruct (strings.HasPrefix _ _).
      * apply Forall_forall. intros c Hin. split.
        -- unfold idMatches. by rewrite idsEnabled_names.
        -- intros _. by apply (proj1 (Forall_forall _ _) Hnames).
    + intros c cType Hin Hnames Hmode.
      destruct (getContainers_ok backend toComplete cType _ _ Hq) as [_ Hr].
      destruct (forRange_panics (containerSuggestions toComplete cType) []
                  containers c Hin) as [p Hp].
      * intros acc. by apply containerSuggestions_no_name.
      * exists p. by rewrite Hr, Hp.
Qed.

(** X9.  [getVolumes] and [getNetworks] return the names that the token
    is a prefix of, in the order of the query, with NoFileComp; they
    cannot panic. *)
Theorem volumes_and_networks_by_prefix toComplete :
  (∀ volumes,
     VolumeList backend = Ok volumes →
     getVolumes backend toComplete
     = Run [Asked QVolumeList]
           (Returns (filter (λ name, strings.HasPrefix name toComplete = true)
                            (VolumeListReport.Name <$> volumes),
                     ShellCompDirectiveNoFileComp)))
  ∧ (∀ networks,
       NetworkList backend = Ok networks →
       getNetworks backend toComplete
       = Run [Asked QNetworkList]
             (Returns (filter (λ name, strings.HasPrefix name toComplete = true)
                              (NetworkListReport.Name <$> networks),
                       ShellCompDirectiveNoFileComp))).
Proof.
  split.
  - intros volumes Hq. rewrite (getVolumes_ok backend _ _ Hq). do 3 f_equal. clear Hq.
    induction volumes as [|v volumes IH]; [done|].
    cbn [flat_map fmap list_fmap]. rewrite filter_cons, <- IH.
    unfold volumeSuggestion at 1.
    by destruct (strings.HasPrefix _ _).
  - intros networks Hq. rewrite (getNetworks_ok backend _ _ Hq). do 3 f_equal. clear Hq.
    induction networks as [|n networks IH]; [done|].
    cbn [flat_map fmap list_fmap]. rewrite filter_cons, <- IH.
    unfold networkSuggestion at 1.
    by destruct (strings.HasPrefix _ _).
Qed.

End Modes.

(** ** What the adapters suggest *)

Lemma forRange_preserves {A B} (P : B → Prop) (body : B → A → M B) l :
  (∀ acc x b, x ∈ l → P acc → result (body acc x) = Returns b → P b) →
  ∀ acc b, P acc → result (forRange body acc l) = Returns b → P b.
Proof.
  induction l as [|x l IH]; intros Hstep acc b Hacc; cbn [forRange].
  - by intros [= <-].
  - intros (acc' & Hx & Hl)%bind_returns_inv.
    apply (IH (λ acc x b Hin, Hstep acc x b (list_elem_of_further _ _ _ Hin)) acc');
      [|done].
    by apply (Hstep acc x acc' (list_elem_of_here _ _)).
Qed.

Lemma HasPrefix_trans s u t :
  strings.HasPrefix s u = true → strings.HasPrefix u t = true →
  strings.HasPrefix s t = true.
Proof.
  unfold strings.HasPrefix. revert u s.
  induction t as [|c t IH]; intros u s; [by destruct s|].
  destruct u as [|c1 u], s as [|c2 s]; cbn [String.prefix]; try done.
  destruct (ascii_dec c1 c2) as [->|]; [|done].
  destruct (ascii_dec c c2) as [->|]; [|done].
  apply IH.
Qed.

Lemma HasPrefix_take s t n :
  strings.HasPrefix s t = true →
  strings.HasPrefix (strings.take n s) (strings.take n t) = true.
Proof.
  unfold strings.HasPrefix. revert s t.
  induction n as [|n IH]; intros [|c s] [|c' t]; cbn [strings.take String.prefix];
    try done.
  destruct (ascii_dec c' c); [|done]. apply IH.
Qed.

Lemma HasPrefix_take_self t n : strings.HasPrefix t (strings.take n t) = true.
Proof.
  unfold strings.HasPrefix. revert t.
  induction n as [|n IH]; intros [|c t]; cbn [strings.take String.prefix]; try done.
  destruct (ascii_dec c c); [apply IH | done].
Qed.

Lemma HasPrefix_app_l s r t :
  strings.HasPrefix s t = true → strings.HasPrefix (s +:+ r) t = true.
Proof.
  unfold strings.HasPrefix. revert s.
  induction t as [|c t IH]; intros s; [by destruct (s +:+ r)|].
  destruct s as [|c' s]; [done|].
  rewrite append_cons. cbn [String.prefix].
  destruct (ascii_dec c c'); [apply IH | done].
Qed.

Lemma take_all s n : (len s ≤ n)%nat → strings.take n s = s.
Proof.
  revert s. induction n as [|n IH]; intros [|c s]; cbn [String.length strings.take];
    try done; [lia|].
  intros H. f_equal. apply IH. lia.
Qed.

Lemma continuesToken_prefix toComplete s r :
  strings.HasPrefix s toComplete = true → continuesToken toComplete (s +:+ r).
Proof.
  intros H. apply HasPrefix_app_l, (HasPrefix_trans _ _ _ H), HasPrefix_take_self.
Qed.

Lemma continuesToken_whole toComplete s :
  strings.HasPrefix s toComplete = true → continuesToken toComplete s.
Proof. intros H. apply (HasPrefix_trans _ _ _ H), HasPrefix_take_self. Qed.

Lemma continuesToken_id toComplete ID r :
  strings.HasPrefix ID toComplete = true →
  continuesToken toComplete (strings.take 12 ID +:+ r).
Proof. intros H. by apply HasPrefix_app_l, HasPrefix_take. Qed.

Lemma containerSuggestions_continue toComplete cType acc c b :
  Forall (continuesToken toComplete) acc →
  result (containerSuggestions toComplete cType acc c) = Returns b →
  Forall (continuesToken toComplete) b.
Proof.
  intros Hacc. unfold containerSuggestions, sliceTo, index.
  destruct (_ && strings.HasPrefix _ _) eqn:Hid.
  - apply andb_true_iff in Hid as [_ Hid].
    destruct (_ <=? _)%nat; [|done]. rewrite !mret_bind.
    assert (Forall (continuesToken toComplete)
              (acc ++ [strings.take 12 (ListContainer.ID c) +:+ tab
                       +:+ ListContainer.PodName c])) as Hacc'.
    { apply Forall_app. split; [done|]. apply Forall_singleton.
      by apply continuesToken_id. }
    destruct (negb _); [|by intros [= <-]].
    destruct (ListContainer.Names c !! 0%nat) as [name|]; [|done].
    rewrite mret_bind. destruct (strings.HasPrefix name toComplete) eqn:Hn;
      intros [= <-]; [|done].
    apply Forall_app. split; [done|]. apply Forall_singleton.
    by apply continuesToken_prefix.
  - rewrite mret_bind. destruct (negb _); [|by intros [= <-]].
    destruct (ListContainer.Names c !! 0%nat) as [name|]; [|done].
    rewrite mret_bind. destruct (strings.HasPrefix name toComplete) eqn:Hn;
      intros [= <-]; [|done].
    apply Forall_app. split; [done|]. apply Forall_singleton.
    by apply continuesToken_prefix.
Qed.

Lemma podSuggestions_continue toComplete cType acc pod b :
  Forall (continuesToken toComplete) acc →
  result (podSuggestions toComplete cType acc pod) = Returns b →
  Forall (continuesToken toComplete) b.
Proof.
  intros Hacc. unfold podSuggestions, sliceTo.
  assert (∀ acc', Forall (continuesToken toComplete) acc' →
            result (if negb (bool_decide (cType = completeIDs))
                       && strings.HasPrefix (ListPodsReport.Name pod) toComplete
                    then mret (acc' ++ [ListPodsReport.Name pod])
                    else mret acc') = Returns b →
            Forall (continuesToken toComplete) b) as Hname.
  { intros acc' Hacc'. destruct (_ && _) eqn:Hn; intros [= <-]; [|done].
    apply andb_true_iff in Hn as [_ Hn].
    apply Forall_app. split; [done|]. apply Forall_singleton.
    by apply continuesToken_whole. }
  destruct (_ && strings.HasPrefix (ListPodsReport.Id pod) _) eqn:Hid.
  - apply andb_true_iff in Hid as [_ Hid].
    destruct (_ <=? _)%nat; [|done]. rewrite !mret_bind. apply Hname.
    apply Forall_app. split; [done|]. apply Forall_singleton.
    rewrite <- (append_nil (strings.take 12 _)). by apply continuesToken_id.
  - rewrite mret_bind. by apply Hname.
Qed.

Lemma imageSuggestions_continue toComplete acc image b :
  Forall (continuesToken toComplete) acc →
  result (imageSuggestions toComplete acc image) = Returns b →
  Forall (continuesToken toComplete) b.
Proof.
  intros Hacc. unfold imageSuggestions, sliceTo.
  assert (∀ acc', Forall (continuesToken toComplete) acc' →
            result (forRange (repoTagSuggestions toComplete) acc'
                             (ImageSummary.RepoTags image)) = Returns b →
            Forall (continuesToken toComplete) b) as Htags.
  { intros acc' Hacc'. apply forRange_preserves; [|done].
    clear. intros acc repo b _ Hacc. rewrite repoTagSuggestions_result.
    intros [= <-]. apply Forall_app. split; [done|].
    destruct (bool_decide (toComplete = "")) eqn:E.
    - apply bool_decide_eq_true in E as ->. apply Forall_singleton.
      apply HasPrefix_empty.
    - apply Forall_forall. intros s [_ Hs]%list_elem_of_In%List.filter_In.
      by apply continuesToken_whole. }
  destruct (_ && _) eqn:Hid.
  - apply andb_true_iff in Hid as [_ Hid].
    destruct (_ <=? _)%nat; [|done]. rewrite !mret_bind. apply Htags.
    apply Forall_app. split; [done|]. apply Forall_singleton.
    rewrite <- (append_nil (strings.take 12 _)). by apply continuesToken_id.
  - rewrite mret_bind. by apply Htags.
Qed.

Lemma getContainers_continue (backend : Backend) toComplete cType statuses
    (c : list string * Z) :
  result (getContainers backend toComplete cType statuses) = Returns c →
  Forall (continuesToken toComplete) c.1.
Proof.
  intros H.
  destruct (ContainerList backend true true (statusFilters statuses))
    as [containers|msg] eqn:Hq.
  - destruct (getContainers_ok backend toComplete cType _ _ Hq) as [_ Hr].
    rewrite Hr in H.
    destruct (result (forRange _ _ _)) as [suggestions|] eqn:Hloop; [|done].
    injection H as <-. cbn [fst].
    eapply (forRange_preserves (Forall (continuesToken toComplete)));
      [|by apply Forall_nil|exact Hloop].
    intros acc x b _ Hacc. by apply containerSuggestions_continue.
  - rewrite (getContainers_failed backend _ _ _ _ Hq) in H.
    injection H as <-. by apply Forall_nil.
Qed.

Lemma getPods_continue (backend : Backend) toComplete cType statuses
    (c : list string * Z) :
  result (getPods backend toComplete cType statuses) = Returns c →
  Forall (continuesToken toComplete) c.1.
Proof.
  intros H.
  destruct (PodPs backend (statusFilters statuses)) as [pods|msg] eqn:Hq.
  - destruct (getPods_ok backend toComplete cType _ _ Hq) as [_ Hr].
    rewrite Hr in H.
    destruct (result (forRange _ _ _)) as [suggestions|] eqn:Hloop; [|done].
    injection H as <-. cbn [fst].
    eapply (forRange_preserves (Forall (continuesToken toComplete)));
      [|by apply Forall_nil|exact Hloop].
    intros acc x b _ Hacc. by apply podSuggestions_continue.
  - rewrite (getPods_failed backend _ _ _ _ Hq) in H.
    injection H as <-. by apply Forall_nil.
Qed.

Lemma getImages_continue (backend : Backend) toComplete (c : list string * Z) :
  result (getImages backend toComplete) = Returns c →
  Forall (continuesToken toComplete) c.1.
Proof.
  intros H.
  destruct (ImageList backend) as [images|msg] eqn:Hq.
  - destruct (getImages_ok backend toComplete _ Hq) as [_ Hr].
    rewrite Hr in H.
    destruct (result (forRange _ _ _)) as [suggestions|] eqn:Hloop; [|done].
    injection H as <-. cbn [fst].
    eapply (forRange_preserves (Forall (continuesToken toComplete)));
      [|by apply Forall_nil|exact Hloop].
    intros acc x b _ Hacc. by apply imageSuggestions_continue.
  - rewrite (getImages_failed backend _ _ Hq) in H.
    injection H as <-. by apply Forall_nil.
Qed.

Lemma getVolumes_continue (backend : Backend) toComplete (c : list string * Z) :
  result (getVolumes backend toComplete) = Returns c →
  Forall (continuesToken toComplete) c.1.
Proof.
  intros H.
  destruct (VolumeList backend) as [volumes|msg] eqn:Hq.
  - rewrite (getVolumes_ok backend _ _ Hq) in H. injection H as <-. cbn [fst].
    apply Forall_forall. intros s (v & _ & Hs)%list_elem_of_In%in_flat_map.
    unfold volumeSuggestion in Hs.
    destruct (strings.HasPrefix _ _) eqn:E; [|done].
    destruct Hs as [<-|[]]. by apply continuesToken_whole.
  - rewrite (getVolumes_failed backend _ _ Hq) in H.
    injection H as <-. by apply Forall_nil.
Qed.

Lemma getNetworks_continue (backend : Backend) toComplete (c : list string * Z) :
  result (getNetworks backend toComplete) = Returns c →
  Forall (continuesToken toComplete) c.1.
Proof.
  intros H.
  destruct (NetworkList backend) as [networks|msg] eqn:Hq.
  - rewrite (getNetworks_ok backend _ _ Hq) in H. injection H as <-. cbn [fst].
    apply Forall_forall. intros s (v & _ & Hs)%list_elem_of_In%in_flat_map.
    unfold networkSuggestion in Hs.
    destruct (strings.HasPrefix _ _) eqn:E; [|done].
    destruct Hs as [<-|[]]. by apply continuesToken_whole.
  - rewrite (getNetworks_failed backend _ _ Hq) in H.
    injection H as <-. by apply Forall_nil.
Qed.

Lemma continuesToken_short toComplete (suggestions : list string) :
  (len toComplete ≤ 12)%nat →
  Forall (continuesToken toComplete) suggestions →
  Forall (λ s, strings.HasPrefix s toComplete = true) suggestions.
Proof.
  intros Hlen Hall. unfold continuesToken in Hall.
  by rewrite (take_all _ _ Hlen) in Hall.
Qed.

(** X10.  Whatever the backend answers, every suggestion that
    [getContainers], [getPods], [getImages], [getVolumes] or
    [getNetworks] returns starts with the first 12 bytes of the token;
    for a token of at most 12 bytes, every suggestion starts with the
    token. *)
Theorem suggestions_continue_the_token (backend : Backend) toComplete cType
    statuses (c : list string * Z) :
  result (getContainers backend toComplete cType statuses) = Returns c
  ∨ result (getPods backend toComplete cType statuses) = Returns c
  ∨ result (getImages backend toComplete) = Returns c
  ∨ result (getVolumes backend toComplete) = Returns c
  ∨ result (getNetworks backend toComplete) = Returns c →
  Forall (continuesToken toComplete) c.1
  ∧ ((len toComplete ≤ 12)%nat →
     Forall (λ s, strings.HasPrefix s toComplete = true) c.1).
Proof.
  intros H.
  assert (Forall (continuesToken toComplete) c.1) as Hall.
  { destruct H as [H|[H|[H|[H|H]]]].
    - by apply getContainers_continue in H.
    - by apply getPods_continue in H.
    - by apply getImages_continue in H.
    - by apply getVolumes_continue in H.
    - by apply getNetworks_continue in H. }
  split; [done|]. intros Hlen. by apply continuesToken_short.
Qed.

(** ** Image references *)

Lemma HasPrefix_take_drop s pre :
  strings.HasPrefix s pre = true → s = pre +:+ strings.drop (len pre) s.
Proof.
  unfold strings.HasPrefix. revert s.
  induction pre as [|c pre IH]; intros s; [done|].
  destruct s as [|c' s]; cbn [String.prefix]; [done|].
  destruct (ascii_dec c c') as [->|]; [|done].
  intros H. rewrite append_cons. cbn [String.length strings.drop].
  f_equal. by apply IH.
Qed.

(** A string is what precedes the first occurrence of a separator, the
    separator, and what follows it. *)
Lemma Index_split s sep m :
  strings.Index s sep = Some m →
  s = strings.take m s +:+ sep +:+ strings.drop (m + len sep) s.
Proof.
  revert m. induction s as [|c s IH]; intros m; cbn [strings.Index].
  - destruct (strings.HasPrefix "" sep) eqn:E; [|done]. intros [= <-].
    by apply HasPrefix_take_drop.
  - destruct (strings.HasPrefix (String c s) sep) eqn:E.
    + intros [= <-]. by apply HasPrefix_take_drop.
    + destruct (strings.Index s sep) as [m'|]; [|done]. intros [= <-].
      cbn [strings.take Nat.add strings.drop]. rewrite append_cons.
      f_equal. by apply IH.
Qed.

Lemma genSplit_unfold s sep n :
  strings.genSplit s sep (S (S n))
  = match strings.Index s sep with
    | None => [s]
    | Some m => strings.take m s
                :: strings.genSplit (strings.drop (m + len sep) s) sep (S n)
    end.
Proof. reflexivity. Qed.

Lemma genSplit_nonempty s sep n : strings.genSplit s sep (S n) ≠ [].
Proof. destruct n; [done|]. rewrite genSplit_unfold. by destruct (strings.Index s sep). Qed.

(** Joining the pieces of a split with the separator gives the string
    back. *)
Lemma Join_genSplit n s sep : strings.Join (strings.genSplit s sep (S n)) sep = s.
Proof.
  revert s. induction n as [|n IH]; intros s; [done|].
  rewrite genSplit_unfold.
  destruct (strings.Index s sep) as [m|] eqn:E; [|done].
  specialize (IH (strings.drop (m + len sep) s)).
  pose proof (genSplit_nonempty (strings.drop (m + len sep) s) sep n) as Hne.
  destruct (strings.genSplit _ sep (S n)) as [|y l]; [done|].
  change (strings.Join (strings.take m s :: y :: l) sep)
    with (strings.take m s +:+ sep +:+ strings.Join (y :: l) sep).
  rewrite IH. symmetry. by apply Index_split.
Qed.

(** The occurrences of a byte are counted from its first occurrence. *)
Lemma Count_Index_byte c s :
  strings.Count s (String c "")
  = match strings.Index s (String c "") with
    | Some m => S (strings.Count (strings.drop (m + 1) s) (String c ""))
    | None => O
    end.
Proof.
  unfold strings.Count. induction s as [|c' s IH]; [done|].
  cbn [strings.countFrom strings.Index String.length Nat.sub].
  destruct (strings.HasPrefix (String c' s) (String c "")); [done|].
  rewrite IH. by destruct (strings.Index s (String c "")).
Qed.

(** The candidates of a reference are the reference, its cut, and the
    candidates of what follows its first slash. *)
Lemma repoTagCandidates_unfold repo :
  repoTagCandidates repo
  = repo :: withoutTag repo
    :: match strings.Index repo "/" with
       | Some m => repoTagCandidates (strings.drop (m + 1) repo)
       | None => []
       end.
Proof.
  unfold repoTagCandidates at 1, strings.Split.
  pose proof (Join_genSplit (strings.Count repo "/") repo "/") as Hjoin.
  rewrite Nat.add_1_r in *. rewrite (Count_Index_byte "/" repo) in *.
  destruct (strings.Index repo "/") as [m|] eqn:E.
  - rewrite genSplit_unfold in *. rewrite E in *.
    cbn [suffixes flat_map]. rewrite Hjoin. cbn [app]. do 2 f_equal.
    unfold repoTagCandidates, strings.Split. change (len "/") with 1%nat.
    by rewrite !Nat.add_1_r.
  - done.
Qed.

Lemma repoTagCandidates_self repo : repo ∈ repoTagCandidates repo.
Proof. rewrite repoTagCandidates_unfold. apply list_elem_of_here. Qed.

Lemma repoTagCandidates_after_slash dir rest s :
  s ∈ repoTagCandidates rest →
  s ∈ match strings.Index (dir +:+ "/" +:+ rest) "/" with
      | Some m => repoTagCandidates (strings.drop (m + 1) (dir +:+ "/" +:+ rest))
      | None => []
      end.
Proof.
  intros Hs. induction dir as [|c dir IH].
  - change ("" +:+ "/" +:+ rest) with (String "/" rest).
    by destruct rest.
  - rewrite append_cons. cbn [strings.Index]. unfold strings.HasPrefix at 1.
    cbn [String.prefix]. destruct (ascii_dec "/" c) as [<-|Hc].
    + replace (String.prefix "" (dir +:+ "/" +:+ rest)) with true
        by (by destruct (dir +:+ "/" +:+ rest)).
      cbn [Nat.add strings.drop]. rewrite repoTagCandidates_unfold.
      by do 2 apply list_elem_of_further.
    + destruct (strings.Index (dir +:+ "/" +:+ rest) "/") as [m|]; [|done].
      cbn [fmap option_fmap option_map Nat.add strings.drop]. exact IH.
Qed.

(** X11.  For a token that is not empty, the loop of [getImages] over
    the path suffixes of a repo tag is a recursion on what follows the
    first slash: the repo tag and its cut are tested against the token,
    then the rest of the repo tag is treated the same way; without slash
    the loop ends. *)
Theorem repoTagSuggestions_by_slash toComplete suggestions repo :
  toComplete ≠ "" →
  repoTagSuggestions toComplete suggestions repo
  = let suggestions :=
      suggestions ++ List.filter (λ s, strings.HasPrefix s toComplete)
                                 [repo; withoutTag repo] in
    match strings.Index repo "/" with
    | Some m => repoTagSuggestions toComplete suggestions
                                   (strings.drop (m + 1) repo)
    | None => mret suggestions
    end.
Proof.
  intros Ht. cbv zeta. rewrite repoTagSuggestions_result.
  rewrite (bool_decide_eq_false_2 _ Ht), repoTagCandidates_unfold.
  change (?a :: ?b :: ?l) with ([a; b] ++ l). rewrite List.filter_app.
  destruct (strings.Index repo "/") as [m|].
  - rewrite repoTagSuggestions_result, (bool_decide_eq_false_2 _ Ht).
    by rewrite app_assoc.
  - by rewrite app_nil_r.
Qed.

(** X12.  [getImages] offers, if the IDs it slices are long enough,
    every repo tag and every part of a repo tag that follows a slash,
    provided the token, not empty, is a prefix of it: an image can be
    completed from any of its path segments. *)
Theorem images_offer_path_suffixes (backend : Backend) toComplete images image
    repo candidate :
  ImageList backend = Ok images →
  Forall (imageSafe toComplete) images →
  image ∈ images → repo ∈ ImageSummary.RepoTags image →
  toComplete ≠ "" →
  (candidate = repo ∨ ∃ dir, repo = dir +:+ "/" +:+ candidate) →
  strings.HasPrefix candidate toComplete = true →
  ∃ suggestions,
    getImages backend toComplete
    = Run [Asked QImageList] (Returns (suggestions, ShellCompDirectiveNoFileComp))
    ∧ candidate ∈ suggestions.
Proof.
  intros Hq Hsafe Himage Hrepo Ht Hcand Hprefix.
  eexists. split; [by apply getImages_safe|].
  apply list_elem_of_In, in_flat_map. exists image.
  split; [by apply list_elem_of_In|]. apply in_or_app. right.
  unfold imageTagSuggestions. apply in_flat_map. exists repo.
  split; [by apply list_elem_of_In|].
  rewrite (bool_decide_eq_false_2 _ Ht). apply List.filter_In. split; [|done].
  apply list_elem_of_In. destruct Hcand as [->|[dir ->]].
  - apply repoTagCandidates_self.
  - rewrite repoTagCandidates_unfold. do 2 apply list_elem_of_further.
    apply repoTagCandidates_after_slash, repoTagCandidates_self.
Qed.

(** X13.  On a token of at most one byte [getImages] slices no ID, so
    that it cannot panic, whatever the backend answers; on the empty
    token it returns the repo tags of the images, whole and in order,
    and nothing else. *)
Theorem images_on_short_token (backend : Backend) :
  (∀ toComplete, (len toComplete ≤ 1)%nat →
                 ¬ panics (getImages backend toComplete))
  ∧ (∀ images, ImageList backend = Ok images →
               getImages backend ""
               = Run [Asked QImageList]
                     (Returns (flat_map ImageSummary.RepoTags images,
                               ShellCompDirectiveNoFileComp))).
Proof.
  assert (∀ toComplete images, (len toComplete ≤ 1)%nat →
            Forall (imageSafe toComplete) images) as Hsafe.
  { intros t images Ht. apply Forall_forall. intros image _.
    unfold imageSafe, imageIDMatches.
    by rewrite (proj2 (Nat.ltb_ge _ _) Ht). }
  split.
  - intros t Ht [p Hp].
    destruct (ImageList backend) as [images|msg] eqn:Hq.
    + by rewrite (getImages_safe backend _ _ Hq (Hsafe t images Ht)) in Hp.
    + by rewrite (getImages_failed backend _ _ Hq) in Hp.
  - intros images Hq.
    rewrite (getImages_safe backend _ _ Hq (Hsafe "" images (Nat.le_0_1))).
    do 3 f_equal. clear. induction images as [|image images IH]; [done|].
    cbn [flat_map]. rewrite IH. f_equal.
    unfold imageIDSuggestion, imageTagSuggestions, imageIDMatches.
    cbn [String.length Nat.ltb Nat.leb andb app bool_decide].
    induction (ImageSummary.RepoTags image) as [|repo l IHl]; [done|].
    cbn [flat_map]. by rewrite IHl.
Qed.

(** X14.  Where the cut of line 154 is the tag or the digest:
    [getImages] offers, if the IDs it slices are long enough, a repo tag
    without its tag or digest, provided what precedes the tag or digest
    has no [':'] and no ['@'], and the token, not empty, is a prefix of
    it. *)
Theorem images_offer_reference_without_tag (backend : Backend) toComplete images
    image (name rest : string) (sep : ascii) :
  ImageList backend = Ok images →
  Forall (imageSafe toComplete) images →
  image ∈ images →
  sep = ":"%char ∨ sep = "@"%char →
  name +:+ String sep rest ∈ ImageSummary.RepoTags image →
  noByte ":" name = true → noByte "@" name = true →
  toComplete ≠ "" →
  strings.HasPrefix name toComplete = true →
  ∃ suggestions,
    getImages backend toComplete
    = Run [Asked QImageList] (Returns (suggestions, ShellCompDirectiveNoFileComp))
    ∧ name ∈ suggestions.
Proof.
  intros Hq Hsafe Himage Hsep Hrepo Hcolon Hat Ht Hprefix.
  eexists. split; [by apply getImages_safe|].
  apply list_elem_of_In, in_flat_map. exists image.
  split; [by apply list_elem_of_In|]. apply in_or_app. right.
  unfold imageTagSuggestions. apply in_flat_map. exists (name +:+ String sep rest).
  split; [by apply list_elem_of_In|].
  rewrite (bool_decide_eq_false_2 _ Ht). apply List.filter_In. split; [|done].
  apply list_elem_of_In. rewrite repoTagCandidates_unfold.
  apply list_elem_of_further.
  destruct (withoutTag_strips name "" Hcolon Hat eq_refl eq_refl) as (_ & Htag & Hdigest).
  destruct Hsep as [-> | ->].
  - replace (withoutTag (name +:+ String ":" rest)) with name
      by (rewrite <- (append_nil name) at 1; symmetry; exact (Htag rest)).
    apply list_elem_of_here.
  - replace (withoutTag (name +:+ String "@" rest)) with name
      by (rewrite <- (append_nil name) at 1; symmetry; exact (Hdigest rest)).
    apply list_elem_of_here.
Qed.

(** ** The entry points behind the arity gate *)

Lemma gate_closed cmd args toComplete (rejected : list string * Z)
    (accepted : M (list string * Z)) :
  result (validCurrentCmdLine cmd args toComplete) = Returns false →
  (valid ← validCurrentCmdLine cmd args toComplete;
   if negb valid then mret rejected else accepted)
  = Run (trace (validCurrentCmdLine cmd args toComplete)) (Returns rejected).
Proof. intros H. unfold mbind, M_bind. rewrite H. cbn. by rewrite app_nil_r. Qed.

Lemma gate_panicked cmd args toComplete (rejected : list string * Z)
    (accepted : M (list string * Z)) p :
  result (validCurrentCmdLine cmd args toComplete) = Panics p →
  (valid ← validCurrentCmdLine cmd args toComplete;
   if negb valid then mret rejected else accepted)
  = Run (trace (validCurrentCmdLine cmd args toComplete)) (Panics p).
Proof. intros H. unfold mbind, M_bind. by rewrite H. Qed.

(** The gate writes on the debug channel only. *)
Lemma validCurrentCmdLine_trace cmd args toComplete :
  Forall (λ e, isDebug e = true) (trace (validCurrentCmdLine cmd args toComplete)).
Proof.
  unfold validCurrentCmdLine.
  destruct (Args cmd) as [validate|]; [|by constructor].
  destruct (validate (args ++ [toComplete])) as [msg|]; [|by constructor].
  destruct (fmt.Sscanf2 _ _) as [[need got] err].
  destruct err as [e|]; [|destruct (need >=? got)];
    unfold mbind, M_bind, emit, fmt.Error, throw, mret, M_ret;
    cbn [trace result app]; by repeat constructor.
Qed.

(** X15.  Every entry point behind the arity gate stops at the gate when
    the gate rejects the command line: it returns no suggestion with
    NoFileComp, and its trace is the one of the gate, so that the
    backend is not queried; when the gate panics, the entry point
    panics, with the same trace.  The gate itself writes on the debug
    channel only. *)
Theorem rejected_command_line_is_not_completed (backend : Backend)
    (mapRange : ∀ V : Type, gmap string V → list (string * V)) :
  Forall (λ entryPoint : Command → list string → string → M (list string * Z),
            ∀ cmd args toComplete,
              (result (validCurrentCmdLine cmd args toComplete) = Returns false →
               entryPoint cmd args toComplete
               = Run (trace (validCurrentCmdLine cmd args toComplete))
                     (Returns ([], ShellCompDirectiveNoFileComp)))
              ∧ (∀ p, result (validCurrentCmdLine cmd args toComplete) = Panics p →
                      entryPoint cmd args toComplete
                      = Run (trace (validCurrentCmdLine cmd args toComplete))
                            (Panics p)))
         (gatedEntryPoints backend mapRange)
  ∧ (∀ cmd args toComplete,
       Forall (λ e, isDebug e = true)
              (trace (validCurrentCmdLine cmd args toComplete))).
Proof.
  split; [|exact validCurrentCmdLine_trace].
  unfold gatedEntryPoints.
  repeat (apply Forall_cons; split);
    [..|by apply Forall_nil];
    intros cmd args toComplete;
    (split; [intros H; by apply gate_closed | intros p H; by apply gate_panicked]).
Qed.

(** ** The composite entry points *)

Section Composites.

Variable backend : Backend.

(** The adapters return the directive NoFileComp or Error, the latter
    with no suggestion. *)
Lemma getContainers_directive toComplete cType statuses c :
  result (getContainers backend toComplete cType statuses) = Returns c →
  c.2 = ShellCompDirectiveNoFileComp ∨ c = ([], ShellCompDirectiveError).
Proof.
  destruct (ContainerList backend true true (statusFilters statuses))
    as [containers|msg] eqn:Hq.
  - destruct (getContainers_ok backend toComplete cType _ _ Hq) as [_ ->].
    destruct (result (forRange _ _ _)); [|done]. intros [= <-]. by left.
  - rewrite (getContainers_failed backend _ _ _ _ Hq). intros [= <-]. by right.
Qed.

(** X16.  [AutocompleteContainersAndPods] and
    [AutocompleteContainersAndImages] hide a failure of the backend from
    the shell: behind an open gate each makes its two queries, also
    after the first one failed, and what it returns is the suggestions
    of the first followed by the suggestions of the second, with
    NoFileComp, never Error. *)
Theorem composites_hide_backend_failure cmd args toComplete :
  result (validCurrentCmdLine cmd args toComplete) = Returns true →
  (∀ containers pods,
     result (getContainers backend toComplete completeDefault []) = Returns containers →
     result (getPods backend toComplete completeDefault []) = Returns pods →
     AutocompleteContainersAndPods backend cmd args toComplete
     = Run (trace (validCurrentCmdLine cmd args toComplete)
            ++ trace (getContainers backend toComplete completeDefault [])
            ++ trace (getPods backend toComplete completeDefault []))
           (Returns (containers.1 ++ pods.1, ShellCompDirectiveNoFileComp)))
  ∧ (∀ containers images,
       result (getContainers backend toComplete completeDefault []) = Returns containers →
       result (getImages backend toComplete) = Returns images →
       AutocompleteContainersAndImages backend cmd args toComplete
       = Run (trace (validCurrentCmdLine cmd args toComplete)
              ++ trace (getContainers backend toComplete completeDefault [])
              ++ trace (getImages backend toComplete))
             (Returns (containers.1 ++ images.1, ShellCompDirectiveNoFileComp)))
  ∧ (∀ c, result (AutocompleteContainersAndPods backend cmd args toComplete) = Returns c
          ∨ result (AutocompleteContainersAndImages backend cmd args toComplete) = Returns c →
          c.2 = ShellCompDirectiveNoFileComp).
Proof.
  intros Hgate.
  assert (∀ (second : M (list string * Z)) containers more,
            result (getContainers backend toComplete completeDefault []) = Returns containers →
            result second = Returns more →
            ('(containers, _) ← getContainers backend toComplete completeDefault [];
             '(more, _) ← second;
             mret (containers ++ more, ShellCompDirectiveNoFileComp))
            = Run (trace (getContainers backend toComplete completeDefault [])
                   ++ trace second)
                  (Returns (containers.1 ++ more.1, ShellCompDirectiveNoFileComp)))
    as Hboth.
  { intros second [containers d1] [more d2] H1 H2.
    unfold mbind, M_bind. rewrite H1. cbn [result trace]. rewrite H2.
    cbn [result trace mret M_ret fst]. by rewrite app_nil_r. }
  assert (∀ (second : M (list string * Z)) c,
            result ('(containers, _) ← getContainers backend toComplete completeDefault [];
                    '(more, _) ← second;
                    mret (containers ++ more, ShellCompDirectiveNoFileComp))
            = Returns c → c.2 = ShellCompDirectiveNoFileComp) as Hdir.
  { intros second c ([containers d1] & _ & H)%bind_returns_inv.
    apply bind_returns_inv in H as ([more d2] & _ & H). by injection H as <-. }
  split; [|split].
  - intros containers pods H1 H2. unfold AutocompleteContainersAndPods.
    rewrite (gate_passed _ _ _ _ _ Hgate), (Hboth _ _ _ H1 H2). done.
  - intros containers images H1 H2. unfold AutocompleteContainersAndImages.
    rewrite (gate_passed _ _ _ _ _ Hgate), (Hboth _ _ _ H1 H2). done.
  - intros c [H|H].
    + unfold AutocompleteContainersAndPods in H.
      rewrite (gate_passed _ _ _ _ _ Hgate) in H. by apply Hdir in H.
    + unfold AutocompleteContainersAndImages in H.
      rewrite (gate_passed _ _ _ _ _ Hgate) in H. by apply Hdir in H.
Qed.

Lemma rangeCpCommand_first toComplete containers rest :
  Forall (λ s, strings.HasPrefix s toComplete = true) rest →
  rangeCpCommand toComplete containers rest
  = match rest with
    | [] => ([], ShellCompDirectiveDefault)
    | _ :: _ => (containers, ShellCompDirectiveNoSpace)
    end.
Proof.
  destruct rest as [|container rest]; [done|].
  intros [H _]%Forall_cons. cbn [rangeCpCommand]. by rewrite H.
Qed.

Lemma rangeCpCommand_none toComplete containers rest :
  Forall (λ s, strings.HasPrefix s toComplete = false) rest →
  rangeCpCommand toComplete containers rest = ([], ShellCompDirectiveDefault).
Proof.
  induction rest as [|container rest IH]; [done|].
  intros [H Hrest]%Forall_cons. cbn [rangeCpCommand]. rewrite H. by apply IH.
Qed.

(** X17.  [AutocompleteCpCommand], behind an open gate: with two
    arguments or more it returns nothing with NoFileComp and makes no
    query; with fewer, and a token of at most 12 bytes, it returns all
    the container suggestions with NoSpace, or, if there is none (also
    when the query failed), nothing with Default, so that paths are
    completed: the prefix test of its loop always succeeds on the first
    suggestion. *)
Theorem cp_command_containers_or_paths cmd args toComplete :
  result (validCurrentCmdLine cmd args toComplete) = Returns true →
  ((2 ≤ length args)%nat →
   AutocompleteCpCommand backend cmd args toComplete
   = Run (trace (validCurrentCmdLine cmd args toComplete))
         (Returns ([], ShellCompDirectiveNoFileComp)))
  ∧ ((length args < 2)%nat → (len toComplete ≤ 12)%nat →
     ∀ c, result (getContainers backend toComplete completeDefault []) = Returns c →
          AutocompleteCpCommand backend cmd args toComplete
          = Run (trace (validCurrentCmdLine cmd args toComplete)
                 ++ trace (getContainers backend toComplete completeDefault []))
                (Returns (match c.1 with
                          | [] => ([], ShellCompDirectiveDefault)
                          | _ :: _ => (c.1, ShellCompDirectiveNoSpace)
                          end))).
Proof.
  intros Hgate. split.
  - intros Hargs. unfold AutocompleteCpCommand.
    rewrite (gate_passed _ _ _ _ _ Hgate), (proj2 (Nat.ltb_ge _ _) Hargs).
    cbn [trace result mret M_ret]. by rewrite app_nil_r.
  - intros Hargs Hlen c Hc. unfold AutocompleteCpCommand.
    rewrite (gate_passed _ _ _ _ _ Hgate), (proj2 (Nat.ltb_lt _ _) Hargs).
    pose proof (continuesToken_short _ _ Hlen (getContainers_continue _ _ _ _ _ Hc))
      as Hall.
    unfold mbind, M_bind. rewrite Hc. destruct c as [containers d].
    cbn [trace result mret M_ret fst] in *. rewrite app_nil_r.
    by rewrite rangeCpCommand_first.
Qed.

End Composites.

(** ** The grammars of the entry points *)

Lemma drop_app_length (s1 s2 : string) : strings.drop (len s1) (s1 +:+ s2) = s2.
Proof.
  induction s1 as [|c s1 IH]; [done|].
  rewrite append_cons. cbn [String.length strings.drop]. exact IH.
Qed.

Ltac prefix_free :=
  intros key key' Hkey Hkey' Hprefix; set_unfold;
  repeat match goal with H : _ ∨ _ |- _ => destruct H as [H|H] end;
  subst; try done; vm_compute in Hprefix; discriminate.

Lemma psFilterKeys_prefixFree backend healthy unhealthy :
  prefixFree (psFilterKeys backend healthy unhealthy).
Proof. unfold psFilterKeys. prefix_free. Qed.

Lemma podPsFilterKeys_prefixFree backend : prefixFree (podPsFilterKeys backend).
Proof. unfold podPsFilterKeys. prefix_free. Qed.

Lemma securityOptionKeys_prefixFree : prefixFree securityOptionKeys.
Proof. unfold securityOptionKeys. prefix_free. Qed.

Lemma namespaceKeys_prefixFree backend : prefixFree (namespaceKeys backend).
Proof. unfold namespaceKeys. prefix_free. Qed.

Section Grammars.

Variable mapRange : ∀ V : Type, gmap string V → list (string * V).
Hypothesis mapRange_perm : ∀ V (m : gmap string V), mapRange V m ≡ₚ map_to_list m.

Lemma prefixFree_delegates (k : keyValueCompletion) key v rest :
  prefixFree k → k !! key = Some v →
  completeKeyValues mapRange (key +:+ rest) k = delegate key v rest.
Proof.
  intros Hfree Hlookup. unfold completeKeyValues, delegate.
  rewrite (rangeKeyValues_only_key (key +:+ rest) _ key v).
  - by rewrite drop_app_length.
  - rewrite mapRange_perm. apply NoDup_fst_map_to_list.
  - by apply (elem_of_mapRange mapRange mapRange_perm).
  - apply HasPrefix_append.
  - intros key' v' Hin%(elem_of_mapRange mapRange mapRange_perm) Hp.
    assert (key ∈ dom k) as Hkey by (apply elem_of_dom; by exists v).
    assert (key' ∈ dom k) as Hkey' by (apply elem_of_dom; by exists v').
    destruct (HasPrefix_comparable _ _ _ Hp) as [H|H].
    + by apply (Hfree key key').
    + symmetry. by apply (Hfree key' key).
Qed.

(** X18.  The grammars of [AutocompletePsFilters],
    [AutocompletePodPsFilters], [AutocompleteSecurityOption] and
    [AutocompleteNamespace] have no key that is a prefix of another one:
    on a token that begins with one of their keys, each of these entry
    points is the completion of what follows the key by the value of the
    key, whatever the order of the loop. *)
Theorem entry_point_grammars_delegate (backend : Backend)
    (healthy unhealthy : string) cmd args :
  (∀ key v rest,
     psFilterKeys backend healthy unhealthy !! key = Some v →
     AutocompletePsFilters backend mapRange healthy unhealthy cmd args (key +:+ rest)
     = delegate key v rest)
  ∧ (∀ key v rest,
       podPsFilterKeys backend !! key = Some v →
       AutocompletePodPsFilters backend mapRange cmd args (key +:+ rest)
       = delegate key v rest)
  ∧ (∀ key v rest,
       securityOptionKeys !! key = Some v →
       AutocompleteSecurityOption mapRange cmd args (key +:+ rest)
       = delegate key v rest)
  ∧ (∀ key v rest,
       namespaceKeys backend !! key = Some v →
       AutocompleteNamespace backend mapRange cmd args (key +:+ rest)
       = delegate key v rest).
Proof.
  repeat split; intros key v rest Hlookup.
  - by apply prefixFree_delegates; [apply psFilterKeys_prefixFree|].
  - by apply prefixFree_delegates; [apply podPsFilterKeys_prefixFree|].
  - by apply prefixFree_delegates; [apply securityOptionKeys_prefixFree|].
  - by apply prefixFree_delegates; [apply namespaceKeys_prefixFree|].
Qed.

End Grammars.

(** ** Flags *)

(** X19.  [AutocompleteVolumeFlag] never reports an error to the shell
    and never turns the completion of paths off: it makes the volume
    query, returns the names that the token is a prefix of, or nothing
    when the query failed, and the directive is NoSpace for a token
    without [':'] and Default for a token with one. *)
Theorem volume_flag_completes_paths_too (backend : Backend) cmd args toComplete :
  (∀ volumes,
     VolumeList backend = Ok volumes →
     AutocompleteVolumeFlag backend cmd args toComplete
     = Run [Asked QVolumeList]
           (Returns (filter (λ name, strings.HasPrefix name toComplete = true)
                            (VolumeListReport.Name <$> volumes),
                     if Contains toComplete ":" then ShellCompDirectiveDefault
                     else ShellCompDirectiveNoSpace)))
  ∧ (∀ msg,
       VolumeList backend = Failed msg →
       AutocompleteVolumeFlag backend cmd args toComplete
       = Run [Asked QVolumeList; CompErrorln msg]
             (Returns ([], if Contains toComplete ":" then ShellCompDirectiveDefault
                           else ShellCompDirectiveNoSpace)))
  ∧ (∀ c, result (AutocompleteVolumeFlag backend cmd args toComplete) = Returns c →
          hasFlag c.2 ShellCompDirectiveError = false
          ∧ hasFlag c.2 ShellCompDirectiveNoFileComp = false).
Proof.
  split; [|split].
  - intros volumes Hq. unfold AutocompleteVolumeFlag.
    rewrite (getVolumes_ok backend _ _ Hq). unfold mbind, M_bind.
    cbn [result trace mret M_ret app]. do 3 f_equal.
    clear Hq. induction volumes as [|v volumes IH]; [done|].
    cbn [flat_map fmap list_fmap]. rewrite filter_cons, IH.
    unfold volumeSuggestion at 1. by destruct (strings.HasPrefix _ _).
  - intros msg Hq. unfold AutocompleteVolumeFlag.
    rewrite (getVolumes_failed backend _ _ Hq). unfold mbind, M_bind.
    cbn [result trace mret M_ret app].
    by destruct (Contains toComplete ":").
  - intros c. unfold AutocompleteVolumeFlag.
    intros ([volumes d] & _ & H)%bind_returns_inv. injection H as <-.
    cbn [snd]. by destruct (Contains toComplete ":").
Qed.

(** The fields of a line. *)

Lemma genSplit_head s sep n :
  index (strings.genSplit s sep (S (S n))) 0 = mret (beforeFirst sep s).
Proof.
  rewrite genSplit_unfold. unfold beforeFirst.
  by destruct (strings.Index s sep).
Qed.

Lemma Count_none c s :
  strings.Count s (String c "") = O → strings.Index s (String c "") = None.
Proof. rewrite Count_Index_byte. by destruct (strings.Index s (String c "")). Qed.

Lemma genSplit_third c s n :
  (2 ≤ strings.Count s (String c ""))%nat →
  index (strings.genSplit s (String c "") (S (S (S (S n))))) 2
  = mret (beforeFirst (String c "") (afterFirst (String c "")
                                       (afterFirst (String c "") s))).
Proof.
  rewrite Count_Index_byte. unfold afterFirst at 2.
  rewrite (genSplit_unfold s).
  destruct (strings.Index s (String c "")) as [m1|]; [|lia].
  change (len (String c "")) with 1%nat.
  rewrite Count_Index_byte. unfold afterFirst.
  rewrite (genSplit_unfold (strings.drop (m1 + 1) s)).
  destruct (strings.Index (strings.drop (m1 + 1) s) (String c "")) as [m2|]; [|lia].
  intros _. change (len (String c "")) with 1%nat.
  apply (genSplit_head (strings.drop (m2 + 1) (strings.drop (m1 + 1) s))).
Qed.

Lemma genSplit_no_third c s n :
  (strings.Count s (String c "") < 2)%nat →
  index (strings.genSplit s (String c "") (S (S (S n)))) 2 = throw IndexOutOfRange.
Proof.
  rewrite Count_Index_byte, (genSplit_unfold s).
  destruct (strings.Index s (String c "")) as [m1|]; [|done].
  change (len (String c "")) with 1%nat. intros H.
  assert (strings.Count (strings.drop (m1 + 1) s) (String c "") = O) as H0 by lia.
  rewrite genSplit_unfold, (Count_none _ _ H0). done.
Qed.

Lemma userSuggestions_empty_token users line :
  userSuggestions "" users line = mret (users ++ [firstField line +:+ ":"]).
Proof.
  unfold userSuggestions, strings.SplitN. by rewrite genSplit_head, mret_bind.
Qed.

Lemma userSuggestions_fields toComplete users line :
  toComplete ≠ "" → (2 ≤ strings.Count line ":")%nat →
  userSuggestions toComplete users line
  = mret (users ++ [firstField line +:+ ":"; thirdField line +:+ ":"]).
Proof.
  intros Ht Hline. unfold userSuggestions, strings.SplitN.
  rewrite genSplit_head, mret_bind.
  destruct toComplete as [|c t]; [done|]. cbn [String.length Nat.ltb Nat.leb].
  rewrite (genSplit_third ":" line 3 Hline), mret_bind.
  by rewrite <- app_assoc.
Qed.

Lemma userSuggestions_short_line toComplete users line :
  toComplete ≠ "" → (strings.Count line ":" < 2)%nat →
  result (userSuggestions toComplete users line) = Panics IndexOutOfRange.
Proof.
  intros Ht Hline. unfold userSuggestions, strings.SplitN.
  rewrite genSplit_head, mret_bind.
  destruct toComplete as [|c t]; [done|]. cbn [String.length Nat.ltb Nat.leb].
  by rewrite (genSplit_no_third ":" line 4 Hline).
Qed.

Lemma groupSuggestions_names toComplete user groups line :
  (len toComplete ≤ len user + 1)%nat →
  groupSuggestions toComplete user groups line
  = mret (groups ++ [user +:+ ":" +:+ firstField line]).
Proof.
  intros Ht. unfold groupSuggestions, strings.SplitN.
  rewrite genSplit_head, mret_bind.
  by rewrite (proj2 (Nat.ltb_ge _ _) Ht).
Qed.

Lemma groupSuggestions_fields toComplete user groups line :
  (len user + 1 < len toComplete)%nat → (2 ≤ strings.Count line ":")%nat →
  groupSuggestions toComplete user groups line
  = mret (groups ++ [user +:+ ":" +:+ firstField line;
                     user +:+ ":" +:+ thirdField line]).
Proof.
  intros Ht Hline. unfold groupSuggestions, strings.SplitN.
  rewrite genSplit_head, mret_bind.
  rewrite (proj2 (Nat.ltb_lt _ _) Ht).
  rewrite (genSplit_third ":" line 0 Hline), mret_bind.
  by rewrite <- app_assoc.
Qed.

Lemma groupSuggestions_short_line toComplete user groups line :
  (len user + 1 < len toComplete)%nat → (strings.Count line ":" < 2)%nat →
  result (groupSuggestions toComplete user groups line) = Panics IndexOutOfRange.
Proof.
  intros Ht Hline. unfold groupSuggestions, strings.SplitN.
  rewrite genSplit_head, mret_bind.
  rewrite (proj2 (Nat.ltb_lt _ _) Ht).
  by rewrite (genSplit_no_third ":" line 1 Hline).
Qed.

Lemma flat_map_singleton {A B} (f : A → B) l : flat_map (λ x, [f x]) l = f <$> l.
Proof. induction l as [|x l IH]; [done|]. cbn [flat_map fmap list_fmap app]. by f_equal. Qed.

(** X20.  [AutocompleteUserFlag] on a token without [':'], with
    /etc/passwd read without error: on the empty token it returns the
    first field of every line followed by [':']; on another token, the
    first and the third field of every line, each followed by [':'],
    if every line has two [':'] or more.  The directive is NoSpace, and
    the lines are not filtered by the token.  On a token that is not
    empty, a line with fewer than two [':'] makes it panic. *)
Theorem user_flag_users (files : FileSystem) cmd args toComplete lines :
  Contains toComplete ":" = false →
  Open files "/etc/passwd" = Ok (lines, None) →
  (toComplete = "" →
   AutocompleteUserFlag files cmd args toComplete
   = mret ((λ line, firstField line +:+ ":") <$> lines, ShellCompDirectiveNoSpace))
  ∧ (toComplete ≠ "" →
     Forall (λ line, (2 ≤ strings.Count line ":")%nat) lines →
     AutocompleteUserFlag files cmd args toComplete
     = mret (flat_map (λ line, [firstField line +:+ ":"; thirdField line +:+ ":"])
                      lines,
             ShellCompDirectiveNoSpace))
  ∧ (toComplete ≠ "" →
     ∀ line, line ∈ lines → (strings.Count line ":" < 2)%nat →
             panics (AutocompleteUserFlag files cmd args toComplete)).
Proof.
  intros Hcolon Hopen. unfold AutocompleteUserFlag. rewrite Hcolon, Hopen.
  split; [|split].
  - intros ->.
    rewrite (forRange_append _ (λ line, [firstField line +:+ ":"]))
      by (intros; apply userSuggestions_empty_token).
    by rewrite mret_bind, flat_map_singleton.
  - intros Ht Hlines.
    rewrite (forRange_append _ (λ line, [firstField line +:+ ":";
                                         thirdField line +:+ ":"])).
    + by rewrite mret_bind.
    + intros users line Hin. apply userSuggestions_fields; [done|].
      by apply (proj1 (Forall_forall _ _) Hlines).
  - intros Ht line Hin Hline.
    destruct (forRange_panics (userSuggestions toComplete) [] lines line Hin)
      as [p Hp].
    + intros users. exists IndexOutOfRange. by apply userSuggestions_short_line.
    + exists p. by apply bind_panics.
Qed.

(** X21.  [AutocompleteUserFlag] on a token with a [':'], with
    /etc/group read without error, [user] being the token up to its
    first [':']: when nothing follows that [':'] it returns, for every
    line, [user], [':'] and the first field of the line; when something
    follows, the same and then [user], [':'] and the third field, if
    every line has two [':'] or more.  The directive is NoFileComp, and
    the lines are not filtered by the token.  When something follows the
    [':'], a line with fewer than two [':'] makes it panic. *)
Theorem user_flag_groups (files : FileSystem) cmd args toComplete lines :
  Contains toComplete ":" = true →
  Open files "/etc/group" = Ok (lines, None) →
  ((len toComplete ≤ len (firstField toComplete) + 1)%nat →
   AutocompleteUserFlag files cmd args toComplete
   = mret ((λ line, firstField toComplete +:+ ":" +:+ firstField line) <$> lines,
           ShellCompDirectiveNoFileComp))
  ∧ ((len (firstField toComplete) + 1 < len toComplete)%nat →
     Forall (λ line, (2 ≤ strings.Count line ":")%nat) lines →
     AutocompleteUserFlag files cmd args toComplete
     = mret (flat_map (λ line, [firstField toComplete +:+ ":" +:+ firstField line;
                                firstField toComplete +:+ ":" +:+ thirdField line])
                      lines,
             ShellCompDirectiveNoFileComp))
  ∧ ((len (firstField toComplete) + 1 < len toComplete)%nat →
     ∀ line, line ∈ lines → (strings.Count line ":" < 2)%nat →
             panics (AutocompleteUserFlag files cmd args toComplete)).
Proof.
  intros Hcolon Hopen. unfold AutocompleteUserFlag. rewrite Hcolon, Hopen.
  unfold strings.SplitN. rewrite genSplit_head, mret_bind.
  fold (firstField toComplete).
  split; [|split].
  - intros Ht.
    rewrite (forRange_append _ (λ line, [firstField toComplete +:+ ":"
                                         +:+ firstField line]))
      by (intros; by apply groupSuggestions_names).
    by rewrite mret_bind, flat_map_singleton.
  - intros Ht Hlines.
    rewrite (forRange_append _
               (λ line, [firstField toComplete +:+ ":" +:+ firstField line;
                         firstField toComplete +:+ ":" +:+ thirdField line])).
    + by rewrite mret_bind.
    + intros groups line Hin. apply groupSuggestions_fields; [done|].
      by apply (proj1 (Forall_forall _ _) Hlines).
  - intros Ht line Hin Hline.
    destruct (forRange_panics
                (groupSuggestions toComplete (firstField toComplete)) [] lines
                line Hin) as [p Hp].
    + intros groups. exists IndexOutOfRange. by apply groupSuggestions_short_line.
    + exists p. by apply bind_panics.
Qed.

(** ** System connections *)

Section Connections.

Variable mapRange : ∀ V : Type, gmap string V → list (string * V).
Hypothesis mapRange_perm : ∀ V (m : gmap string V), mapRange V m ≡ₚ map_to_list m.

(** X22.  [AutocompleteSystemConnections], behind an open gate and with
    a configuration that is read, makes that one query and returns, with
    NoFileComp, one suggestion for every service destination, its name
    with its URI as annotation, in the order of the loop over the map;
    the token is not used. *)
Theorem system_connections_lists_every_destination (backend : Backend) cmd args
    toComplete destinations :
  result (validCurrentCmdLine cmd args toComplete) = Returns true →
  ReadCustomConfig backend = Ok destinations →
  ∃ suggestions,
    AutocompleteSystemConnections backend mapRange cmd args toComplete
    = Run (trace (validCurrentCmdLine cmd args toComplete) ++ [Asked QReadCustomConfig])
          (Returns (suggestions, ShellCompDirectiveNoFileComp))
    ∧ suggestions ≡ₚ (λ kv, kv.1 +:+ tab +:+ Destination.URI kv.2)
                     <$> map_to_list destinations.
Proof.
  intros Hgate Hq.
  exists ((λ kv, kv.1 +:+ tab +:+ Destination.URI kv.2) <$> mapRange _ destinations).
  split; [|by rewrite mapRange_perm].
  unfold AutocompleteSystemConnections.
  rewrite (gate_passed _ _ _ _ _ Hgate), Hq, ask_bind. cbv beta iota.
  rewrite (forRange_append _ (λ kv, [kv.1 +:+ tab +:+ Destination.URI kv.2]))
    by done.
  by rewrite mret_bind, flat_map_singleton.
Qed.

End Connections.

(** ** The properties on concrete inputs *)

Lemma filterGrammar_dom key :
  key ∈ dom filterGrammar → key = "status=" ∨ key = "host".
Proof. unfold filterGrammar. set_unfold. tauto. Qed.

Lemma filterGrammar_completer key f :
  filterGrammar !! key = Some (Some f) → f = statusCompleter.
Proof.
  unfold filterGrammar. intros [[_ [= <-]]|[_ H]]%lookup_insert_Some; [done|].
  by apply lookup_singleton_Some in H as [_ [=]].
Qed.

(** X3 on the grammar [filterGrammar] and the token ["st"]. *)
Lemma completeKeyValues_partial_key_witness :
  (∀ key, key ∈ dom filterGrammar → strings.HasPrefix "st" key = false)
  ∧ ∃ suggestions directive,
      completeKeyValues listRange "st" filterGrammar = mret (suggestions, directive)
      ∧ suggestions ≡ₚ filter (λ key, strings.HasPrefix key "st" = true)
                              (elements (dom filterGrammar))
      ∧ (hasFlag directive ShellCompDirectiveNoSpace = true
         ↔ ∃ key, key ∈ dom filterGrammar ∧ strings.HasPrefix key "st" = true
                  ∧ endsInSeparator key = true)
      ∧ hasFlag directive ShellCompDirectiveNoFileComp = true
      ∧ hasFlag directive ShellCompDirectiveError = false
      ∧ ((∀ key, key ∈ dom filterGrammar → strings.HasPrefix key "st" = false) →
         suggestions = [] ∧ directive = ShellCompDirectiveNoFileComp).
Proof.
  assert (∀ key, key ∈ dom filterGrammar → strings.HasPrefix "st" key = false)
    as Hkeys.
  { by intros key [->| ->]%filterGrammar_dom. }
  split; [exact Hkeys|].
  exact (completeKeyValues_partial_key listRange listRange_perm filterGrammar "st"
           Hkeys).
Defined.

(** X4 on the grammar [filterGrammar] and the token ["status=r"]. *)
Lemma completeKeyValues_unique_key_witness :
  filterGrammar !! "status=" = Some (Some statusCompleter)
  ∧ strings.HasPrefix "status=r" "status=" = true
  ∧ (∀ key', key' ∈ dom filterGrammar →
             strings.HasPrefix "status=r" key' = true → key' = "status=")
  ∧ completeKeyValues listRange "status=r" filterGrammar
    = mret (["status=running"; "status=paused"], ShellCompDirectiveNoFileComp).
Proof.
  assert (filterGrammar !! "status=" = Some (Some statusCompleter)) as Hlookup
    by reflexivity.
  assert (∀ key', key' ∈ dom filterGrammar →
                  strings.HasPrefix "status=r" key' = true → key' = "status=")
    as Hunique.
  { by intros key' [->| ->]%filterGrammar_dom. }
  split; [exact Hlookup|]. split; [reflexivity|]. split; [exact Hunique|].
  exact (completeKeyValues_unique_key listRange listRange_perm filterGrammar
           "status=r" "status=" (Some statusCompleter) Hlookup eq_refl Hunique).
Defined.

(** X5 on the grammar [filterGrammar]. *)
Lemma completeKeyValues_slices_in_range_witness :
  (∀ key f rest, filterGrammar !! key = Some (Some f) → ¬ panics (f rest))
  ∧ ¬ panics (completeKeyValues listRange "status" filterGrammar)
  ∧ ¬ panics (completeKeyValues listRange "status=x" filterGrammar).
Proof.
  assert (∀ key f rest, filterGrammar !! key = Some (Some f) → ¬ panics (f rest))
    as Hf.
  { intros key f rest ->%filterGrammar_completer. by intros [p Hp]. }
  split; [exact Hf|]. split.
  - exact (completeKeyValues_slices_in_range listRange listRange_perm
             filterGrammar "status" Hf).
  - exact (completeKeyValues_slices_in_range listRange listRange_perm
             filterGrammar "status=x" Hf).
Defined.

(** X6 on the grammar [filterGrammar]. *)
Lemma completeKeyValues_keeps_error_invariant_witness :
  (∀ key f rest c, filterGrammar !! key = Some (Some f) →
                   result (f rest) = Returns c → errorMeansEmpty c)
  ∧ ∀ c, result (completeKeyValues listRange "status=" filterGrammar) = Returns c →
         errorMeansEmpty c.
Proof.
  assert (∀ key f rest c, filterGrammar !! key = Some (Some f) →
                          result (f rest) = Returns c → errorMeansEmpty c) as Hf.
  { intros key f rest c ->%filterGrammar_completer [= <-]. by intros H. }
  split; [exact Hf|].
  exact (completeKeyValues_keeps_error_invariant listRange listRange_perm
           filterGrammar "status=" Hf).
Defined.

(** X7 on the containers of [demoBackend] and the token ["abf"]. *)
Lemma ids_only_mode_witness :
  ContainerList demoBackend true true (statusFilters []) = Ok demoContainers
  ∧ Forall (λ c, strings.HasPrefix (ListContainer.ID c) "abf" = true →
                 (12 ≤ len (ListContainer.ID c))%nat) demoContainers
  ∧ getContainers demoBackend "abf" completeIDs []
    = Run [Asked (QContainerList true true ∅)]
          (Returns (["abff00112233" +:+ tab], ShellCompDirectiveNoFileComp)).
Proof.
  assert (Forall (λ c, strings.HasPrefix (ListContainer.ID c) "abf" = true →
                       (12 ≤ len (ListContainer.ID c))%nat) demoContainers) as Hlong.
  { repeat constructor; simpl; lia. }
  split; [reflexivity|]. split; [exact Hlong|].
  exact (proj1 (ids_only_mode demoBackend "abf" []) demoContainers eq_refl Hlong).
Defined.

(** X8 on the pods of [demoBackend], whose ID is short, and on a
    container without name. *)
Lemma names_only_mode_witness :
  getPods demoBackend "p" completeNames []
  = Run [Asked (QPodPs ∅)] (Returns (["p1"], ShellCompDirectiveNoFileComp))
  ∧ panics (getContainers namelessBackend "w" completeDefault []).
Proof.
  split.
  - exact (proj1 (names_only_mode demoBackend "p" []) demoPods eq_refl).
  - refine (proj2 (proj2 (names_only_mode namelessBackend "w" [])
                     [namelessContainer] eq_refl)
              namelessContainer completeDefault (list_elem_of_here _ _) eq_refl _).
    discriminate.
Defined.

(** X10 on the containers of [demoBackend] and the token ["ab"]. *)
Lemma suggestions_continue_the_token_witness :
  result (getContainers demoBackend "ab" completeDefault [])
  = Returns (["abcdef123456" +:+ tab +:+ "pod1"; "abff00112233" +:+ tab],
             ShellCompDirectiveNoFileComp)
  ∧ Forall (λ s, strings.HasPrefix s "ab" = true)
           ["abcdef123456" +:+ tab +:+ "pod1"; "abff00112233" +:+ tab].
Proof.
  assert (result (getContainers demoBackend "ab" completeDefault [])
          = Returns (["abcdef123456" +:+ tab +:+ "pod1"; "abff00112233" +:+ tab],
                     ShellCompDirectiveNoFileComp)) as Hc by reflexivity.
  split; [exact Hc|].
  refine (proj2 (suggestions_continue_the_token demoBackend "ab" completeDefault []
                   _ (or_introl Hc)) _).
  simpl. lia.
Defined.

(** X11 on the repo tag of [demoImages] and the token ["app"]. *)
Lemma repoTagSuggestions_by_slash_witness :
  "app" ≠ ""
  ∧ strings.Index "localhost:5000/app:latest" "/" = Some 14%nat
  ∧ repoTagSuggestions "app" [] "localhost:5000/app:latest"
    = repoTagSuggestions "app" [] "app:latest".
Proof.
  assert ("app" ≠ "") as Ht by discriminate.
  split; [exact Ht|]. split; [reflexivity|].
  exact (repoTagSuggestions_by_slash "app" [] "localhost:5000/app:latest" Ht).
Defined.

(** X12 on the image of [demoBackend] and the token ["app"]. *)
Lemma images_offer_path_suffixes_witness :
  ImageList demoBackend = Ok demoImages
  ∧ Forall (imageSafe "app") demoImages
  ∧ "app" ≠ ""
  ∧ strings.HasPrefix "app:latest" "app" = true
  ∧ ∃ suggestions,
      getImages demoBackend "app"
      = Run [Asked QImageList] (Returns (suggestions, ShellCompDirectiveNoFileComp))
      ∧ "app:latest" ∈ suggestions.
Proof.
  assert (Forall (imageSafe "app") demoImages) as Hsafe.
  { apply Forall_cons; split; [|by apply Forall_nil]. intros _. simpl. lia. }
  assert ("app" ≠ "") as Ht by discriminate.
  split; [reflexivity|]. split; [exact Hsafe|]. split; [exact Ht|].
  split; [reflexivity|].
  exact (images_offer_path_suffixes demoBackend "app" demoImages _
           "localhost:5000/app:latest" "app:latest" eq_refl Hsafe
           (list_elem_of_here _ _) (list_elem_of_here _ _) Ht
           (or_intror (ex_intro _ "localhost:5000" eq_refl)) eq_refl).
Defined.

(** X13 on the images of [demoBackend]. *)
Lemma images_on_short_token_witness :
  ¬ panics (getImages demoBackend "l")
  ∧ getImages demoBackend ""
    = Run [Asked QImageList]
          (Returns (["localhost:5000/app:latest"], ShellCompDirectiveNoFileComp)).
Proof.
  split.
  - refine (proj1 (images_on_short_token demoBackend) "l" _). simpl. lia.
  - exact (proj2 (images_on_short_token demoBackend) demoImages eq_refl).
Defined.

(** X14 on an image without registry port. *)
Lemma images_offer_reference_without_tag_witness :
  ImageList connectionsBackend = Ok [alpineImage]
  ∧ Forall (imageSafe "qu") [alpineImage]
  ∧ noByte ":" "quay.io/libpod/alpine" = true
  ∧ noByte "@" "quay.io/libpod/alpine" = true
  ∧ "qu" ≠ ""
  ∧ strings.HasPrefix "quay.io/libpod/alpine" "qu" = true
  ∧ ∃ suggestions,
      getImages connectionsBackend "qu"
      = Run [Asked QImageList] (Returns (suggestions, ShellCompDirectiveNoFileComp))
      ∧ "quay.io/libpod/alpine" ∈ suggestions.
Proof.
  assert (Forall (imageSafe "qu") [alpineImage]) as Hsafe.
  { apply Forall_cons; split; [|by apply Forall_nil]. by intros [=]. }
  assert ("qu" ≠ "") as Ht by discriminate.
  split; [reflexivity|]. split; [exact Hsafe|]. split; [reflexivity|].
  split; [reflexivity|]. split; [exact Ht|]. split; [reflexivity|].
  exact (images_offer_reference_without_tag connectionsBackend "qu" [alpineImage]
           alpineImage "quay.io/libpod/alpine" "latest" ":" eq_refl Hsafe
           (list_elem_of_here _ _) (or_introl eq_refl) (list_elem_of_here _ _)
           eq_refl eq_refl Ht eq_refl).
Defined.

(** X15 on a validator whose error holds no counts. *)
Lemma rejected_command_line_is_not_completed_witness :
  result (validCurrentCmdLine noArguments [] "x") = Returns false
  ∧ AutocompleteContainers demoBackend noArguments [] "x"
    = Run [CompDebugln "no arguments are accepted"; CompDebugln "expected integer"]
          (Returns ([], ShellCompDirectiveNoFileComp)).
Proof.
  split; [reflexivity|].
  pose proof (proj1 (rejected_command_line_is_not_completed demoBackend listRange))
    as Hall.
  apply Forall_cons in Hall as [Hfirst _].
  exact (proj1 (Hfirst noArguments [] "x") eq_refl).
Defined.

(** X16 on the backend that is down. *)
Lemma composites_hide_backend_failure_witness :
  result (validCurrentCmdLine anyArgs [] "x") = Returns true
  ∧ AutocompleteContainersAndPods downBackend anyArgs [] "x"
    = Run [Asked (QContainerList true true ∅);
           CompErrorln "containers: connection refused";
           Asked (QPodPs ∅);
           CompErrorln "pods: connection refused"]
          (Returns ([], ShellCompDirectiveNoFileComp)).
Proof.
  split; [reflexivity|].
  exact (proj1 (composites_hide_backend_failure downBackend anyArgs [] "x" eq_refl)
           ([], ShellCompDirectiveError) ([], ShellCompDirectiveError)
           eq_refl eq_refl).
Defined.

(** X17 on the containers of [demoBackend] and on the backend that is
    down. *)
Lemma cp_command_containers_or_paths_witness :
  result (validCurrentCmdLine anyArgs [] "ab") = Returns true
  ∧ (length ([] : list string) < 2)%nat
  ∧ (len "ab" ≤ 12)%nat
  ∧ AutocompleteCpCommand demoBackend anyArgs [] "ab"
    = Run [Asked (QContainerList true true ∅)]
          (Returns (["abcdef123456" +:+ tab +:+ "pod1"; "abff00112233" +:+ tab],
                    ShellCompDirectiveNoSpace))
  ∧ AutocompleteCpCommand downBackend anyArgs [] "ab"
    = Run [Asked (QContainerList true true ∅);
           CompErrorln "containers: connection refused"]
          (Returns ([], ShellCompDirectiveDefault)).
Proof.
  assert (length ([] : list string) < 2)%nat as Hargs by (simpl; lia).
  assert (len "ab" ≤ 12)%nat as Hlen by (simpl; lia).
  split; [reflexivity|]. split; [exact Hargs|]. split; [exact Hlen|]. split.
  - exact (proj2 (cp_command_containers_or_paths demoBackend anyArgs [] "ab" eq_refl)
             Hargs Hlen _ eq_refl).
  - exact (proj2 (cp_command_containers_or_paths downBackend anyArgs [] "ab" eq_refl)
             Hargs Hlen _ eq_refl).
Defined.

(** X18 on the filter [name=] of [AutocompletePsFilters]. *)
Lemma entry_point_grammars_delegate_witness :
  AutocompletePsFilters demoBackend listRange "healthy" "unhealthy" anyArgs []
                        ("name=" +:+ "w")
  = Run [Asked (QContainerList true true ∅)]
        (Returns (["name=web" +:+ tab +:+ "pod1"], ShellCompDirectiveNoFileComp)).
Proof.
  exact (proj1 (entry_point_grammars_delegate listRange listRange_perm demoBackend
                  "healthy" "unhealthy" anyArgs [])
           "name=" (Some (λ s, getContainers demoBackend s completeNames [])) "w"
           eq_refl).
Defined.

(** X19 on the backend whose volume query fails. *)
Lemma volume_flag_completes_paths_too_witness :
  AutocompleteVolumeFlag demoBackend anyArgs [] "data:/srv"
  = Run [Asked QVolumeList; CompErrorln "connection refused"]
        (Returns ([], ShellCompDirectiveDefault)).
Proof.
  exact (proj1 (proj2 (volume_flag_completes_paths_too demoBackend anyArgs []
                         "data:/srv")) "connection refused" eq_refl).
Defined.

(** X20 on two lines of /etc/passwd, and on an empty line. *)
Lemma user_flag_users_witness :
  Contains "r" ":" = false
  ∧ "r" ≠ ""
  ∧ Forall (λ line, (2 ≤ strings.Count line ":")%nat)
           ["root:x:0:0:root:/root:/bin/sh"; "daemon:x:1:1::/:/sbin/nologin"]
  ∧ AutocompleteUserFlag
      (demoFiles ["root:x:0:0:root:/root:/bin/sh"; "daemon:x:1:1::/:/sbin/nologin"] [])
      anyArgs [] "r"
    = mret (["root:"; "0:"; "daemon:"; "1:"], ShellCompDirectiveNoSpace)
  ∧ (strings.Count "" ":" < 2)%nat
  ∧ panics (AutocompleteUserFlag
              (demoFiles ["root:x:0:0:root:/root:/bin/sh"; ""] []) anyArgs [] "r").
Proof.
  assert ("r" ≠ "") as Ht by discriminate.
  assert (Forall (λ line, (2 ≤ strings.Count line ":")%nat)
            ["root:x:0:0:root:/root:/bin/sh"; "daemon:x:1:1::/:/sbin/nologin"])
    as Hlines.
  { repeat (apply Forall_cons; split); [..|by apply Forall_nil]; vm_compute; lia. }
  assert (strings.Count "" ":" < 2)%nat as Hshort by (vm_compute; lia).
  split; [reflexivity|]. split; [exact Ht|]. split; [exact Hlines|]. split.
  - exact (proj1 (proj2 (user_flag_users (demoFiles _ []) anyArgs [] "r" _
                           eq_refl eq_refl)) Ht Hlines).
  - split; [exact Hshort|].
    exact (proj2 (proj2 (user_flag_users (demoFiles _ []) anyArgs [] "r" _
                           eq_refl eq_refl)) Ht ""
             (list_elem_of_further _ _ _ (list_elem_of_here _ _)) Hshort).
Defined.

(** X21 on a line of /etc/group. *)
Lemma user_flag_groups_witness :
  Contains "root:w" ":" = true
  ∧ (len (firstField "root:w") + 1 < len "root:w")%nat
  ∧ Forall (λ line, (2 ≤ strings.Count line ":")%nat) ["wheel:x:10:root"]
  ∧ AutocompleteUserFlag (demoFiles [] ["wheel:x:10:root"]) anyArgs [] "root:w"
    = mret (["root:wheel"; "root:10"], ShellCompDirectiveNoFileComp).
Proof.
  assert (len (firstField "root:w") + 1 < len "root:w")%nat as Ht
    by (vm_compute; lia).
  assert (Forall (λ line, (2 ≤ strings.Count line ":")%nat) ["wheel:x:10:root"])
    as Hlines.
  { repeat (apply Forall_cons; split); [..|by apply Forall_nil]; vm_compute; lia. }
  split; [reflexivity|]. split; [exact Ht|]. split; [exact Hlines|].
  exact (proj1 (proj2 (user_flag_groups (demoFiles [] _) anyArgs [] "root:w" _
                         eq_refl eq_refl)) Ht Hlines).
Defined.

(** X22 on the backend with one connection. *)
Lemma system_connections_lists_every_destination_witness :
  result (validCurrentCmdLine anyArgs [] "x") = Returns true
  ∧ ∃ suggestions,
      AutocompleteSystemConnections connectionsBackend listRange anyArgs [] "x"
      = Run [Asked QReadCustomConfig]
            (Returns (suggestions, ShellCompDirectiveNoFileComp))
      ∧ suggestions ≡ₚ ["prod" +:+ tab +:+ "ssh://core@prod/run/podman.sock"].
Proof.
  split; [reflexivity|].
  destruct (system_connections_lists_every_destination listRange listRange_perm
              connectionsBackend anyArgs [] "x" _ eq_refl eq_refl)
    as (suggestions & Hrun & Hperm).
  exists suggestions. split; [exact Hrun|].
  by rewrite Hperm, map_to_list_singleton.
Defined.
